(** * TableTupleFilter: a byte-per-tuple view of a table and its marker iterator

    Shallow embedding of [src/ee/storage/tabletuplefilter.h] (VoltDB execution
    engine).  Unsigned 64-bit quantities are integers of [Z] whose wrap-around
    is written out with [wrap64]; the [char] markers are integers in the
    range of a signed byte (the x86-64 ABI the engine is built for has a
    signed [char], so a [char] compares with an [int8_t] by value).
    [assert] is modelled as a check that fails with [AssertionFailed], an
    out-of-range [operator[]] and a division by zero (both undefined in C++)
    as failures of their own. *)

From stdpp Require Import gmap list sorting.
From Stdlib Require Import ZArith Lia.

Local Open Scope Z_scope.

(** ** Machine integers *)

Definition wrap64 (x : Z) : Z := x mod 2 ^ 64.

Definition is_uint64 (x : Z) : Prop := 0 <= x < 2 ^ 64.

Definition is_char (x : Z) : Prop := -128 <= x <= 127.

(** ** Failures *)

Inductive error : Type :=
  | AssertionFailed
  | OutOfBounds
  | DivisionByZero
  | UnknownBlock
  | OutOfFuel.

Inductive result (A : Type) : Type :=
  | Ok (a : A)
  | Fail (e : error).

Arguments Ok {A} a.
Arguments Fail {A} e.

#[global]
Instance result_ret : MRet result := fun A a => Ok a.

#[global]
Instance result_bind : MBind result := fun A B f m =>
  match m with
  | Ok a => f a
  | Fail e => Fail e
  end.

Definition assert (b : bool) : result unit :=
  if b then Ok tt else Fail AssertionFailed.

(** [v[i]] on a [std::vector]: undefined outside the vector. *)
Definition vec_get (v : list Z) (i : Z) : result Z :=
  if (0 <=? i) && (i <? Z.of_nat (length v)) then
    match v !! Z.to_nat i with
    | Some x => Ok x
    | None => Fail OutOfBounds
    end
  else Fail OutOfBounds.

(** [v[i] = x] on a [std::vector]. *)
Definition vec_set (v : list Z) (i : Z) (x : Z) : result (list Z) :=
  if (0 <=? i) && (i <? Z.of_nat (length v)) then Ok (<[Z.to_nat i := x]> v)
  else Fail OutOfBounds.

(** ** The filter *)

Definition INACTIVE_TUPLE : Z := -1.
Definition ACTIVE_TUPLE : Z := 0.

(** Modelled from the spec: the header only declares
    [const static uint64_t INVALID_INDEX]; its value, the largest unsigned
    64-bit integer, is given where the constant is defined. *)
Definition INVALID_INDEX : Z := 2 ^ 64 - 1.

Record TableTupleFilter : Type := {
  m_tuples : list Z;
  m_blocks : list Z;
  m_blockIndexes : gmap Z Z;
  m_tuplesPerBlock : Z;
  m_tupleLength : Z;
  m_prevBlockAddress : Z;
  m_prevBlockIndex : Z;
  m_lastActiveTupleIndex : Z
}.

Definition set_tuples (t : TableTupleFilter) (v : list Z) : TableTupleFilter :=
  {| m_tuples := v;
     m_blocks := m_blocks t;
     m_blockIndexes := m_blockIndexes t;
     m_tuplesPerBlock := m_tuplesPerBlock t;
     m_tupleLength := m_tupleLength t;
     m_prevBlockAddress := m_prevBlockAddress t;
     m_prevBlockIndex := m_prevBlockIndex t;
     m_lastActiveTupleIndex := m_lastActiveTupleIndex t |}.

Definition set_prevBlock (t : TableTupleFilter) (a i : Z) : TableTupleFilter :=
  {| m_tuples := m_tuples t;
     m_blocks := m_blocks t;
     m_blockIndexes := m_blockIndexes t;
     m_tuplesPerBlock := m_tuplesPerBlock t;
     m_tupleLength := m_tupleLength t;
     m_prevBlockAddress := a;
     m_prevBlockIndex := i;
     m_lastActiveTupleIndex := m_lastActiveTupleIndex t |}.

Definition set_lastActiveTupleIndex (t : TableTupleFilter) (i : Z) : TableTupleFilter :=
  {| m_tuples := m_tuples t;
     m_blocks := m_blocks t;
     m_blockIndexes := m_blockIndexes t;
     m_tuplesPerBlock := m_tuplesPerBlock t;
     m_tupleLength := m_tupleLength t;
     m_prevBlockAddress := m_prevBlockAddress t;
     m_prevBlockIndex := m_prevBlockIndex t;
     m_lastActiveTupleIndex := i |}.

(** [m_tuples.size()]. *)
Definition m_tuples_size (t : TableTupleFilter) : Z := Z.of_nat (length (m_tuples t)).

Definition getTupleValue (t : TableTupleFilter) (tupleIdx : Z) : result Z :=
  _ ← assert (tupleIdx <? m_tuples_size t);
  vec_get (m_tuples t) tupleIdx.

Definition getTupleAddress (t : TableTupleFilter) (tupleIdx : Z) : result Z :=
  _ ← assert (tupleIdx <? m_tuples_size t);
  if m_tuplesPerBlock t =? 0 then Fail DivisionByZero else
  let blockIdx := tupleIdx / m_tuplesPerBlock t in
  _ ← assert (blockIdx <? Z.of_nat (length (m_blocks t)));
  b ← vec_get (m_blocks t) blockIdx;
  Ok (wrap64 (b + wrap64 (wrap64 (tupleIdx - blockIdx) * m_tupleLength t))).

Definition empty (t : TableTupleFilter) : bool :=
  m_lastActiveTupleIndex t =? INVALID_INDEX.

Definition getLastActiveTupleIndex (t : TableTupleFilter) : Z :=
  m_lastActiveTupleIndex t.

(** Modelled from the spec: [TableTuple] is declared in
    [common/tabletuple.h], which is absent; the filter only takes the address
    of a tuple handle. *)
Record TableTuple : Type := { address : Z }.

(** Modelled from the spec: [Table] is declared in a header that is absent.
    The filter looks at the base addresses of its blocks in enumeration
    order, at its geometry, and at its active tuples, here in the order in
    which its iterator reports them. *)
Record Table : Type := {
  getBlockAddresses : list Z;
  getTuplesPerBlock : Z;
  getTupleLength : Z;
  activeTuples : list TableTuple
}.

Section AddressTranslation.

(** Modelled from the spec: the blocks of the table's allocator have one
    fixed size and start at multiples of it.  [blockSize] is that size in
    bytes; the filter does not store it. *)
Variable blockSize : Z.

(** Modelled from the spec: [findBlockIndex] is declared in the header and
    defined in a file that is absent.  The single-entry cache is tried first:
    an address inside the span of the cached block reuses the cached offset.
    Otherwise the block-aligned base of the address is looked up in the
    address-to-offset map, an absent base is an unknown block, and the cache
    is refreshed. *)
Definition findBlockIndex (t : TableTupleFilter) (tupleAddress : Z)
    : result (Z * TableTupleFilter) :=
  if (m_prevBlockAddress t <=? tupleAddress)
     && (tupleAddress <? m_prevBlockAddress t + blockSize)
  then Ok (m_prevBlockIndex t, t)
  else
    let base := tupleAddress - tupleAddress mod blockSize in
    match m_blockIndexes t !! base with
    | None => Fail UnknownBlock
    | Some offset => Ok (offset, set_prevBlock t base offset)
    end.

Definition getTupleIndex (t : TableTupleFilter) (tuple : TableTuple)
    : result (Z * TableTupleFilter) :=
  let tupleAddress := address tuple in
  '(blockIndex, t) ← findBlockIndex t tupleAddress;
  if m_tupleLength t =? 0 then Fail DivisionByZero else
  Ok (wrap64 (wrap64 (tupleAddress - m_prevBlockAddress t) / m_tupleLength t + blockIndex), t).

Definition updateTuple (t : TableTupleFilter) (tuple : TableTuple) (marker : Z)
    : result (Z * TableTupleFilter) :=
  '(tupleIdx, t) ← getTupleIndex t tuple;
  _ ← assert ((tupleIdx <=? m_lastActiveTupleIndex t)
              && negb (m_lastActiveTupleIndex t =? INVALID_INDEX));
  v ← vec_get (m_tuples t) tupleIdx;
  _ ← assert (negb (v =? INACTIVE_TUPLE));
  tuples ← vec_set (m_tuples t) tupleIdx marker;
  Ok (tupleIdx, set_tuples t tuples).

Definition initActiveTuple (t : TableTupleFilter) (tuple : TableTuple)
    : result TableTupleFilter :=
  '(tupleIdx, t) ← getTupleIndex t tuple;
  v ← vec_get (m_tuples t) tupleIdx;
  _ ← assert (v =? INACTIVE_TUPLE);
  tuples ← vec_set (m_tuples t) tupleIdx ACTIVE_TUPLE;
  let t := set_tuples t tuples in
  if (m_lastActiveTupleIndex t =? INVALID_INDEX) || (m_lastActiveTupleIndex t <? tupleIdx)
  then Ok (set_lastActiveTupleIndex t tupleIdx)
  else Ok t.

(** Modelled from the spec: the starting offset of every enumerated block,
    its index in the enumeration times the number of tuples per block, keyed
    by the block's base address. *)
Definition block_offsets (blocks : list Z) (tuplesPerBlock : Z) : gmap Z Z :=
  list_to_map (imap (fun i b => (b, Z.of_nat i * tuplesPerBlock)) blocks).

(** Modelled from the spec: [init(blocks, tuplesPerBlock, tupleLength)] is
    declared in the header and defined in a file that is absent.  It records
    the blocks in enumeration order, the offset of each block, the geometry,
    and one marker per slot, all inactive; no slot is active yet, so the last
    active index is the invalid one.  The spec does not say what the cache
    holds at this point: it is left as the constructor made it. *)
Definition init (t : TableTupleFilter) (blocks : list Z) (tuplesPerBlock tupleLength : Z)
    : TableTupleFilter :=
  {| m_tuples := replicate (length blocks * Z.to_nat tuplesPerBlock)%nat INACTIVE_TUPLE;
     m_blocks := blocks;
     m_blockIndexes := block_offsets blocks tuplesPerBlock;
     m_tuplesPerBlock := tuplesPerBlock;
     m_tupleLength := tupleLength;
     m_prevBlockAddress := m_prevBlockAddress t;
     m_prevBlockIndex := m_prevBlockIndex t;
     m_lastActiveTupleIndex := INVALID_INDEX |}.

(** Modelled from the spec: the pass of [init] over the tuples the table
    reports as active, each one marked with [initActiveTuple]. *)
Fixpoint initActiveTuples (t : TableTupleFilter) (tuples : list TableTuple)
    : result TableTupleFilter :=
  match tuples with
  | [] => Ok t
  | tuple :: rest => t ← initActiveTuple t tuple; initActiveTuples t rest
  end.

(** Modelled from the spec: [init] from a table, defined in the same absent file;
    after the geometry is set up, every tuple the table reports as active is
    marked active. *)
Definition init_table (t : TableTupleFilter) (table : Table) : result TableTupleFilter :=
  initActiveTuples
    (init t (getBlockAddresses table) (getTuplesPerBlock table) (getTupleLength table))
    (activeTuples table).

(** *** States the operations keep the filter in *)

(** Every enumerated block starts at a multiple of the block size. *)
Definition blocks_aligned (t : TableTupleFilter) : Prop :=
  0 < blockSize /\
  Forall (fun b => is_uint64 b /\ b mod blockSize = 0) (m_blocks t).

(** The map gives every enumerated block its index times the tuples per block. *)
Definition offsets_ok (t : TableTupleFilter) : Prop :=
  forall (i : nat) (b : Z),
    m_blocks t !! i = Some b ->
    m_blockIndexes t !! b = Some (Z.of_nat i * m_tuplesPerBlock t).

(** The cache names a block-aligned address, and when that address is an
    enumerated block the cached offset is the block's. *)
Definition cache_ok (t : TableTupleFilter) : Prop :=
  m_prevBlockAddress t mod blockSize = 0 /\
  forall offset, m_blockIndexes t !! m_prevBlockAddress t = Some offset ->
                 m_prevBlockIndex t = offset.

(** [tupleAddress] lies in the enumerated block number [i], based at [b]. *)
Definition in_block (t : TableTupleFilter) (i : nat) (b tupleAddress : Z) : Prop :=
  m_blocks t !! i = Some b /\ b <= tupleAddress < b + blockSize.

(** The slot of an address in block number [i], based at [b]: the class
    comment's [(Tuple Address - Tuple Block Address) / Tuple Size + Block Offset]. *)
Definition slot_of (t : TableTupleFilter) (i : nat) (b tupleAddress : Z) : Z :=
  (tupleAddress - b) / m_tupleLength t + Z.of_nat i * m_tuplesPerBlock t.

End AddressTranslation.

(** The last active index, when there is one, is a slot of the marker array. *)
Definition last_ok (t : TableTupleFilter) : Prop :=
  is_uint64 (m_lastActiveTupleIndex t) /\
  (m_lastActiveTupleIndex t <> INVALID_INDEX ->
   m_lastActiveTupleIndex t < m_tuples_size t).

(** No slot behind the last active index was ever marked. *)
Definition marked_below_last (t : TableTupleFilter) : Prop :=
  forall (s : nat) (v : Z),
    m_tuples t !! s = Some v -> v <> INACTIVE_TUPLE ->
    m_lastActiveTupleIndex t <> INVALID_INDEX /\
    Z.of_nat s <= m_lastActiveTupleIndex t.

Definition markers_ok (t : TableTupleFilter) : Prop :=
  last_ok t /\ marked_below_last t.

(** ** The iterator

    [m_tableFilter] is the address of the filter the iterator was made for;
    the filter itself is passed to the operations that read it. *)

Record TableTupleFilter_iter : Type := {
  m_tableFilter : Z;
  m_tupleIdx : Z
}.

Definition equal (it other : TableTupleFilter_iter) : result bool :=
  _ ← assert (m_tableFilter it =? m_tableFilter other);
  Ok (m_tupleIdx it =? m_tupleIdx other).

Definition dereference (it : TableTupleFilter_iter) : Z := m_tupleIdx it.

(** The [do ... while] of [increment]; one unit of fuel per turn. *)
Fixpoint increment_loop (fuel : nat) (MARKER : Z) (t : TableTupleFilter)
    (lastActiveTupleIndex tupleIdx : Z) : result Z :=
  match fuel with
  | O => Fail OutOfFuel
  | S fuel' =>
      let tupleIdx := wrap64 (tupleIdx + 1) in
      if tupleIdx <=? lastActiveTupleIndex then
        v ← getTupleValue t tupleIdx;
        if negb (v =? MARKER)
        then increment_loop fuel' MARKER t lastActiveTupleIndex tupleIdx
        else Ok tupleIdx
      else Ok tupleIdx
  end.

Definition increment (fuel : nat) (MARKER : Z) (t : TableTupleFilter)
    (it : TableTupleFilter_iter) : result TableTupleFilter_iter :=
  let lastActiveTupleIndex := getLastActiveTupleIndex t in
  i ← increment_loop fuel MARKER t lastActiveTupleIndex (m_tupleIdx it);
  Ok {| m_tableFilter := m_tableFilter it; m_tupleIdx := i |}.

(** [TableTupleFilter::begin<MARKER>()], [this] being the filter's address. *)
Definition begin (fuel : nat) (this : Z) (MARKER : Z) (t : TableTupleFilter)
    : result TableTupleFilter_iter :=
  let it := {| m_tableFilter := this; m_tupleIdx := INVALID_INDEX |} in
  if negb (empty t) then increment fuel MARKER t it else Ok it.

(** [TableTupleFilter::end<MARKER>()]. *)
Definition end_ (this : Z) (MARKER : Z) (t : TableTupleFilter) : TableTupleFilter_iter :=
  let lastActiveTupleIndex :=
    if negb (getLastActiveTupleIndex t =? INVALID_INDEX)
    then wrap64 (getLastActiveTupleIndex t + 1)
    else INVALID_INDEX in
  {| m_tableFilter := this; m_tupleIdx := lastActiveTupleIndex |}.

(** The loop of a caller, [for (it = begin; it != end; ++it) visit( *it )]:
    the indices visited and the iterator the loop stops at. *)
Fixpoint walk (fuel steps : nat) (MARKER : Z) (t : TableTupleFilter)
    (it e : TableTupleFilter_iter) : result (list Z * TableTupleFilter_iter) :=
  match steps with
  | O => Fail OutOfFuel
  | S steps' =>
      stop ← equal it e;
      if (stop : bool) then Ok ([], it)
      else
        it' ← increment fuel MARKER t it;
        '(visited, last) ← walk fuel steps' MARKER t it' e;
        Ok (dereference it :: visited, last)
  end.

Definition iterate (fuel : nat) (this : Z) (MARKER : Z) (t : TableTupleFilter)
    : result (list Z * TableTupleFilter_iter) :=
  b ← begin fuel this MARKER t;
  walk fuel fuel MARKER t b (end_ this MARKER t).

(** The slots of [[from, to_)] whose marker is [MARKER], in increasing order. *)
Definition matching (MARKER : Z) (t : TableTupleFilter) (from to_ : Z) : list Z :=
  filter (fun i => m_tuples t !! Z.to_nat i = Some MARKER) (seqZ from (to_ - from)).

(** Fuel that lets an iteration over [t] run to its end. *)
Definition iteration_fuel (t : TableTupleFilter) : nat :=
  if empty t then 1%nat else Z.to_nat (m_lastActiveTupleIndex t + 2).

(** The filter of the scenario: two blocks of four tuples of sixteen bytes,
    the slots 0, 1, 3 and 6 active. *)
Definition scenario_blocks : list Z := [4096; 8192].

Definition scenario_marked : TableTupleFilter :=
  {| m_tuples := [0; 0; -1; 0; -1; -1; 0; -1];
     m_blocks := scenario_blocks;
     m_blockIndexes := block_offsets scenario_blocks 4;
     m_tuplesPerBlock := 4;
     m_tupleLength := 16;
     m_prevBlockAddress := 8192;
     m_prevBlockIndex := 4;
     m_lastActiveTupleIndex := 6 |}.

(** A filter as its constructor leaves it, with nothing enumerated yet. *)
Definition scenario_fresh : TableTupleFilter :=
  {| m_tuples := [];
     m_blocks := [];
     m_blockIndexes := ∅;
     m_tuplesPerBlock := 0;
     m_tupleLength := 0;
     m_prevBlockAddress := 0;
     m_prevBlockIndex := 0;
     m_lastActiveTupleIndex := INVALID_INDEX |}.

(** The scenario's filter before any tuple is marked active. *)
Definition scenario_unmarked : TableTupleFilter :=
  init scenario_fresh scenario_blocks 4 16.

(** The scenario over arbitrary block addresses: a table of two blocks based
    at [b0] and [b1], four tuples of sixteen bytes per block, whose active
    tuples are at the positions 0, 1 and 3 of the first block and 2 of the
    second; [tuples] is the order in which the table reports them. *)
Definition scenario_active (b0 b1 : Z) : list TableTuple :=
  [ {| address := b0 |}; {| address := b0 + 16 |};
    {| address := b0 + 48 |}; {| address := b1 + 32 |} ].

Definition scenario_table (b0 b1 : Z) (tuples : list TableTuple) : Table :=
  {| getBlockAddresses := [b0; b1];
     getTuplesPerBlock := 4;
     getTupleLength := 16;
     activeTuples := tuples |}.

(** The same tuples as pairs of a block number and a position in the block. *)
Definition scenario_positions : list (nat * Z) :=
  [ (0%nat, 0); (0%nat, 1); (0%nat, 3); (1%nat, 2) ].

Definition position_tuple (b0 b1 : Z) (p : nat * Z) : TableTuple :=
  {| address := match fst p with O => b0 | S _ => b1 end + 16 * snd p |}.

Definition position_slot (p : nat * Z) : nat :=
  Z.to_nat (snd p + Z.of_nat (fst p) * 4).

(** The markers [T] and the last active index [L] of the scenario's filter
    once the slots [marked] have been marked active. *)
Definition scenario_marks (marked : list nat) (T : list Z) (L : Z) : Prop :=
  length T = 8%nat /\
  (forall s, s ∈ marked -> (s < 8)%nat) /\
  (forall s, (s < 8)%nat ->
             T !! s = Some (if decide (s ∈ marked) then ACTIVE_TUPLE else INACTIVE_TUPLE)) /\
  ((marked = [] /\ L = INVALID_INDEX) \/
   (0 <= L /\ Z.to_nat L ∈ marked /\ forall s, s ∈ marked -> Z.of_nat s <= L)).

(** Two distinct blocks of 64 bytes or more, at multiples of the block size
    and inside the 64-bit address space. *)
Definition scenario_addresses (blockSize b0 b1 : Z) : Prop :=
  64 <= blockSize /\ b0 <> b1 /\
  (0 <= b0 /\ b0 + 64 <= 2 ^ 64 /\ b0 mod blockSize = 0) /\
  (0 <= b1 /\ b1 + 64 <= 2 ^ 64 /\ b1 mod blockSize = 0).

(** The states the scenario's filter goes through. *)
Definition scenario_state (b0 b1 : Z) (tuples : list Z) (prevAddress prevIndex last : Z)
    : TableTupleFilter :=
  {| m_tuples := tuples;
     m_blocks := [b0; b1];
     m_blockIndexes := block_offsets [b0; b1] 4;
     m_tuplesPerBlock := 4;
     m_tupleLength := 16;
     m_prevBlockAddress := prevAddress;
     m_prevBlockIndex := prevIndex;
     m_lastActiveTupleIndex := last |}.

(** The marker array has one slot per tuple of every enumerated block. *)
Definition size_ok (t : TableTupleFilter) : Prop :=
  m_tuples_size t = Z.of_nat (length (m_blocks t)) * m_tuplesPerBlock t.

(** * ExecutorFactory: executors shared by the export data sources

    Shallow embedding of
    [src/frontend/org/voltdb/export/ExecutorFactory.java].  The factory is a
    record of its fields, a field that is [null] being [None]; a method is a
    function from the state of the factory to an outcome, which is a value
    or an exception together with the state the method leaves.  Executors
    are objects compared by identity: an executor is the number of
    executors made before it.  The state also records, outside the fields
    of the factory, how many executors have been made and on which ones
    [shutdown] was called.  Java [int] arithmetic wraps ([wrap32]).  The
    text of log and exception messages is left out, so that the name of
    the table, which only appears there, is no parameter; the three places
    that throw an [IllegalStateException] are told apart. *)

Module ExecutorFactory.

Definition executor : Type := nat.

Definition wrap32 (x : Z) : Z := (x + 2 ^ 31) mod 2 ^ 32 - 2 ^ 31.

Inductive IllegalState : Type :=
  | FreesUninitialized
  | FreesUnallocated
  | InvalidRefCount.

Inductive exn : Type :=
  | IllegalStateException (why : IllegalState)
  | NullPointerException
  | IndexOutOfBoundsException
  | IllegalArgumentException.

(** What the factory reads from its surroundings: the number of processors,
    the integer system property [MAX_EXPORT_THREADS] when it is set, and the
    local sites count of the node settings when they can be reached. *)
Record Environment : Type := {
  availableProcessors : Z;
  maxExportThreadsProperty : option Z;
  nodeLocalSitesCount : option Z
}.

Record factory : Type := {
  m_maxThreads : option Z;
  m_nextAlloc : Z;
  m_executors : option (list executor);
  m_refCounts : option (gmap executor Z);
  m_pid2execMap : option (gmap Z executor);
  created : nat;
  shutdowns : list executor
}.

Inductive outcome (A : Type) : Type :=
  | Return (a : A) (f : factory)
  | Throw (e : exn) (f : factory).

Arguments Return {A} a f.
Arguments Throw {A} e f.

Definition action (A : Type) : Type := factory -> outcome A.

Definition ret {A : Type} (a : A) : action A := fun f => Return a f.

Definition throw {A : Type} (e : exn) : action A := fun f => Throw e f.

Definition bind {A B : Type} (c : action A) (k : A -> action B) : action B :=
  fun f =>
    match c f with
    | Return a f' => k a f'
    | Throw e f' => Throw e f'
    end.

Local Notation "x <- c ;; k" := (bind c (fun x => k))
  (at level 100, c at next level, right associativity).
Local Notation "c ;; k" := (bind c (fun _ => k))
  (at level 100, right associativity).

Definition gets {A : Type} (field : factory -> A) : action A :=
  fun f => Return (field f) f.

(** Using a field that may be [null]. *)
Definition deref {A : Type} (field : factory -> option A) : action A :=
  fun f =>
    match field f with
    | Some a => Return a f
    | None => Throw NullPointerException f
    end.

Definition set_maxThreads (v : option Z) : action unit :=
  fun f => Return tt
    {| m_maxThreads := v; m_nextAlloc := m_nextAlloc f; m_executors := m_executors f;
       m_refCounts := m_refCounts f; m_pid2execMap := m_pid2execMap f;
       created := created f; shutdowns := shutdowns f |}.

Definition set_nextAlloc (v : Z) : action unit :=
  fun f => Return tt
    {| m_maxThreads := m_maxThreads f; m_nextAlloc := v; m_executors := m_executors f;
       m_refCounts := m_refCounts f; m_pid2execMap := m_pid2execMap f;
       created := created f; shutdowns := shutdowns f |}.

Definition set_executors (v : option (list executor)) : action unit :=
  fun f => Return tt
    {| m_maxThreads := m_maxThreads f; m_nextAlloc := m_nextAlloc f; m_executors := v;
       m_refCounts := m_refCounts f; m_pid2execMap := m_pid2execMap f;
       created := created f; shutdowns := shutdowns f |}.

Definition set_refCounts (v : option (gmap executor Z)) : action unit :=
  fun f => Return tt
    {| m_maxThreads := m_maxThreads f; m_nextAlloc := m_nextAlloc f;
       m_executors := m_executors f;
       m_refCounts := v; m_pid2execMap := m_pid2execMap f;
       created := created f; shutdowns := shutdowns f |}.

Definition set_pid2execMap (v : option (gmap Z executor)) : action unit :=
  fun f => Return tt
    {| m_maxThreads := m_maxThreads f; m_nextAlloc := m_nextAlloc f;
       m_executors := m_executors f;
       m_refCounts := m_refCounts f; m_pid2execMap := v;
       created := created f; shutdowns := shutdowns f |}.

(** [CoreUtils.getListeningExecutorService]: a new executor, different from
    every one made before. *)
Definition getListeningExecutorService : action executor :=
  fun f => Return (created f)
    {| m_maxThreads := m_maxThreads f; m_nextAlloc := m_nextAlloc f;
       m_executors := m_executors f;
       m_refCounts := m_refCounts f; m_pid2execMap := m_pid2execMap f;
       created := S (created f); shutdowns := shutdowns f |}.

(** [les.shutdown()]. *)
Definition shutdown (les : executor) : action unit :=
  fun f => Return tt
    {| m_maxThreads := m_maxThreads f; m_nextAlloc := m_nextAlloc f;
       m_executors := m_executors f;
       m_refCounts := m_refCounts f; m_pid2execMap := m_pid2execMap f;
       created := created f; shutdowns := les :: shutdowns f |}.

(** [ArrayList.remove(Object)]: the first occurrence goes. *)
Fixpoint remove_first (x : executor) (l : list executor) : list executor :=
  match l with
  | [] => []
  | y :: l' => if decide (x = y) then l' else y :: remove_first x l'
  end.

(** The calls on the collections, each through its field. *)
Definition executors_size : action Z :=
  executors <- deref m_executors ;; ret (Z.of_nat (length executors)).

Definition executors_add (les : executor) : action unit :=
  executors <- deref m_executors ;; set_executors (Some (executors ++ [les])).

Definition executors_get (index : Z) : action executor :=
  executors <- deref m_executors ;;
  if (0 <=? index) && (index <? Z.of_nat (length executors)) then
    match executors !! Z.to_nat index with
    | Some les => ret les
    | None => throw IndexOutOfBoundsException
    end
  else throw IndexOutOfBoundsException.

Definition executors_remove (les : executor) : action unit :=
  executors <- deref m_executors ;; set_executors (Some (remove_first les executors)).

(** [m_refCounts.get(les).intValue()]. *)
Definition refCounts_get (les : executor) : action Z :=
  refCounts <- deref m_refCounts ;;
  match refCounts !! les with
  | Some count => ret count
  | None => throw NullPointerException
  end.

Definition refCounts_put (les : executor) (count : Z) : action unit :=
  refCounts <- deref m_refCounts ;; set_refCounts (Some (<[les := count]> refCounts)).

Definition refCounts_remove (les : executor) : action unit :=
  refCounts <- deref m_refCounts ;; set_refCounts (Some (delete les refCounts)).

Definition pid2execMap_get (partitionId : Z) : action (option executor) :=
  pid2exec <- deref m_pid2execMap ;; ret (pid2exec !! partitionId).

Definition pid2execMap_put (partitionId : Z) (les : executor) : action unit :=
  pid2exec <- deref m_pid2execMap ;;
  set_pid2execMap (Some (<[partitionId := les]> pid2exec)).

(** [m_pid2execMap.values().removeIf(v -> v == les)]. *)
Definition pid2execMap_removeIf (les : executor) : action unit :=
  pid2exec <- deref m_pid2execMap ;;
  set_pid2execMap (Some (filter (fun kv => snd kv <> les) pid2exec)).

(** The methods of the class. *)

Definition ExecutorFactory_new (made : nat) (down : list executor) : factory :=
  {| m_maxThreads := None; m_nextAlloc := 0; m_executors := None;
     m_refCounts := None; m_pid2execMap := None;
     created := made; shutdowns := down |}.

Definition isInitialized : action bool :=
  maxThreads <- gets m_maxThreads ;;
  ret (match maxThreads with Some _ => true | None => false end).

Definition getMinThreads (env : Environment) : Z :=
  Z.max 2 (Z.quot (availableProcessors env) 4).

Definition getConfigMaxThreads (env : Environment) : Z :=
  match maxExportThreadsProperty env with
  | Some n => n
  | None => getMinThreads env
  end.

Definition getLocalSitesCount (env : Environment) : Z :=
  match nodeLocalSitesCount env with
  | Some n => n
  | None => 0
  end.

Definition initialize (env : Environment) : action unit :=
  initialized <- isInitialized ;;
  if (initialized : bool) then ret tt else
  set_maxThreads (Some (getConfigMaxThreads env)) ;;
  let minThreads := getMinThreads env in
  maxThreads <- deref m_maxThreads ;;
  (if maxThreads <? 1 then set_maxThreads (Some minThreads)
   else
     let localSitesCount := getLocalSitesCount env in
     if localSitesCount =? 0 then set_maxThreads (Some minThreads)
     else if localSitesCount <? maxThreads then set_maxThreads (Some localSitesCount)
     else ret tt) ;;
  set_nextAlloc 0 ;;
  maxThreads <- deref m_maxThreads ;;
  (if maxThreads <? 0 then throw IllegalArgumentException
   else set_executors (Some [])) ;;
  set_refCounts (Some ∅) ;;
  set_pid2execMap (Some ∅).

Definition getMaxThreadCount : action Z := deref m_maxThreads.

Definition getCurrentThreadCount : action Z := executors_size.

Definition allocate (partitionId : Z) : action executor :=
  les <- pid2execMap_get partitionId ;;
  match les with
  | Some les =>
      count <- refCounts_get les ;;
      let refCount := wrap32 (count + 1) in
      refCounts_put les refCount ;;
      ret les
  | None =>
      size <- executors_size ;;
      maxThreads <- deref m_maxThreads ;;
      if size <? maxThreads then
        les <- getListeningExecutorService ;;
        executors_add les ;;
        refCounts_put les 1 ;;
        pid2execMap_put partitionId les ;;
        ret les
      else
        nextAlloc <- gets m_nextAlloc ;;
        size <- executors_size ;;
        (if size <=? nextAlloc then set_nextAlloc 0 else ret tt) ;;
        nextAlloc <- gets m_nextAlloc ;;
        les <- executors_get nextAlloc ;;
        count <- refCounts_get les ;;
        let refCount := wrap32 (count + 1) in
        refCounts_put les refCount ;;
        pid2execMap_put partitionId les ;;
        nextAlloc <- gets m_nextAlloc ;;
        set_nextAlloc (wrap32 (nextAlloc + 1)) ;;
        ret les
  end.

Definition release (partitionId : Z) : action unit :=
  les <- pid2execMap_get partitionId ;;
  match les with
  | None => throw (IllegalStateException FreesUnallocated)
  | Some les =>
      count <- refCounts_get les ;;
      let refCount := wrap32 (count - 1) in
      if refCount <? 0 then throw (IllegalStateException InvalidRefCount)
      else if refCount =? 0 then
        executors_remove les ;;
        refCounts_remove les ;;
        pid2execMap_removeIf les ;;
        nextAlloc <- gets m_nextAlloc ;;
        size <- executors_size ;;
        (if size <? nextAlloc then set_nextAlloc 0 else ret tt) ;;
        shutdown les
      else refCounts_put les refCount
  end.

Definition getExecutor (env : Environment) (partitionId : Z) : action executor :=
  initialize env ;; allocate partitionId.

Definition freeExecutor (partitionId : Z) : action unit :=
  initialized <- isInitialized ;;
  if negb initialized then throw (IllegalStateException FreesUninitialized)
  else release partitionId.

(** An initialized factory, field by field. *)
Definition running (maxThreads nextAlloc : Z) (executors : list executor)
    (refCounts : gmap executor Z) (pid2exec : gmap Z executor)
    (made : nat) (down : list executor) : factory :=
  {| m_maxThreads := Some maxThreads; m_nextAlloc := nextAlloc;
     m_executors := Some executors; m_refCounts := Some refCounts;
     m_pid2execMap := Some pid2exec; created := made; shutdowns := down |}.

(** The states the methods keep an initialized factory in: at most
    [maxThreads] executors, none listed twice, each with a positive count,
    each made before and not shut down; every partition mapped to a listed
    executor; the next index to share within the list. *)
Definition running_ok (maxThreads nextAlloc : Z) (executors : list executor)
    (refCounts : gmap executor Z) (pid2exec : gmap Z executor)
    (made : nat) (down : list executor) : Prop :=
  1 <= maxThreads < 2 ^ 31 /\
  Z.of_nat (length executors) <= maxThreads /\
  NoDup executors /\
  (forall les, les ∈ executors <-> is_Some (refCounts !! les)) /\
  (forall les count, refCounts !! les = Some count -> 1 <= count < 2 ^ 31) /\
  (forall partitionId les, pid2exec !! partitionId = Some les -> les ∈ executors) /\
  0 <= nextAlloc <= Z.of_nat (length executors) /\
  (forall les, les ∈ executors -> (les < made)%nat) /\
  (forall les, les ∈ down -> (les < made)%nat) /\
  (forall les, les ∈ executors -> les ∉ down).

Definition consistent (f : factory) : Prop :=
  exists maxThreads nextAlloc executors refCounts pid2exec made down,
    f = running maxThreads nextAlloc executors refCounts pid2exec made down /\
    running_ok maxThreads nextAlloc executors refCounts pid2exec made down.

(** What a caller can observe of the collections. *)
Definition mapped (f : factory) (partitionId : Z) (les : executor) : Prop :=
  exists pid2exec, m_pid2execMap f = Some pid2exec /\ pid2exec !! partitionId = Some les.

Definition unmapped (f : factory) (partitionId : Z) : Prop :=
  exists pid2exec, m_pid2execMap f = Some pid2exec /\ pid2exec !! partitionId = None.

Definition count_of (f : factory) (les : executor) (count : Z) : Prop :=
  exists refCounts, m_refCounts f = Some refCounts /\ refCounts !! les = Some count.

Definition listed (f : factory) (les : executor) : Prop :=
  exists executors, m_executors f = Some executors /\ les ∈ executors.

Definition counts_below (f : factory) (bound : Z) : Prop :=
  forall les count, count_of f les count -> count < bound.

(** The number of [holders] whose partition is mapped to [les]. *)
Definition holding (pid2exec : gmap Z executor) (les : executor) (holders : list Z) : nat :=
  length (filter (fun partitionId => pid2exec !! partitionId = Some les) holders).

(** The counts account for the holders: [holders] lists the partitions of
    the calls of [getExecutor] not yet matched by a [freeExecutor]; every
    one of them is mapped, and the count of an executor is the number of
    holders mapped to it. *)
Definition accounted (f : factory) (holders : list Z) : Prop :=
  exists maxThreads nextAlloc executors refCounts pid2exec made down,
    f = running maxThreads nextAlloc executors refCounts pid2exec made down /\
    running_ok maxThreads nextAlloc executors refCounts pid2exec made down /\
    (forall partitionId, partitionId ∈ holders -> is_Some (pid2exec !! partitionId)) /\
    (forall les count, refCounts !! les = Some count ->
                       count = Z.of_nat (holding pid2exec les holders)).

(** One holder less. *)
Fixpoint remove_holder (partitionId : Z) (holders : list Z) : list Z :=
  match holders with
  | [] => []
  | h :: rest => if decide (partitionId = h) then rest else h :: remove_holder partitionId rest
  end.

(** The calls of the export data sources, one after the other: the run
    stops at the first call that throws. *)
Inductive call : Type :=
  | Get (partitionId : Z)
  | Free (partitionId : Z).

Fixpoint run_calls (env : Environment) (calls : list call) : action unit :=
  match calls with
  | [] => ret tt
  | Get partitionId :: rest =>
      bind (getExecutor env partitionId) (fun _ => run_calls env rest)
  | Free partitionId :: rest =>
      bind (freeExecutor partitionId) (fun _ => run_calls env rest)
  end.

(** The holders after the calls, when every [Free] is for a holder. *)
Fixpoint holders_after (calls : list call) (holders : list Z) : option (list Z) :=
  match calls with
  | [] => Some holders
  | Get partitionId :: rest => holders_after rest (partitionId :: holders)
  | Free partitionId :: rest =>
      if decide (partitionId ∈ holders)
      then holders_after rest (remove_holder partitionId holders)
      else None
  end.

(** A node of eight processors and eight local sites, two export threads
    asked for; the factory once initialized, and after the partitions 10
    and 11 asked for an executor. *)
Definition demo_env : Environment :=
  {| availableProcessors := 8; maxExportThreadsProperty := Some 2;
     nodeLocalSitesCount := Some 8 |}.

Definition demo_started : factory := running 2 0 [] ∅ ∅ 0 [].

Definition demo_two : factory :=
  running 2 0 [0; 1]%nat (<[1%nat := 1]> (<[0%nat := 1]> ∅))
          (<[11 := 1%nat]> (<[10 := 0%nat]> ∅)) 2 [].

(** The number of threads a first initialization settles on. *)
Definition settled_threads (env : Environment) : Z :=
  if getConfigMaxThreads env <? 1 then getMinThreads env
  else if getLocalSitesCount env =? 0 then getMinThreads env
  else if getLocalSitesCount env <? getConfigMaxThreads env then getLocalSitesCount env
  else getConfigMaxThreads env.

End ExecutorFactory.

(** ** Reading markers *)

Lemma vec_get_lookup (v : list Z) (i x : Z) :
  vec_get v i = Ok x <-> 0 <= i /\ v !! Z.to_nat i = Some x.
Proof.
  unfold vec_get. split.
  - destruct (0 <=? i) eqn:H0; simpl; [|discriminate].
    destruct (i <? Z.of_nat (length v)); [|discriminate].
    destruct (v !! Z.to_nat i); [|discriminate].
    intros [= ->]. split; [lia|reflexivity].
  - intros [H0 Hx]. pose proof (lookup_lt_Some _ _ _ Hx) as Hlt.
    rewrite (proj2 (Z.leb_le 0 i)) by lia.
    rewrite (proj2 (Z.ltb_lt i _)) by lia. simpl. rewrite Hx. reflexivity.
Qed.

Lemma getTupleValue_lookup (t : TableTupleFilter) (i x : Z) :
  getTupleValue t i = Ok x <-> 0 <= i /\ m_tuples t !! Z.to_nat i = Some x.
Proof.
  unfold getTupleValue, m_tuples_size. split.
  - destruct (i <? Z.of_nat (length (m_tuples t))); simpl; [|discriminate].
    apply vec_get_lookup.
  - intros [H0 Hx]. pose proof (lookup_lt_Some _ _ _ Hx) as Hlt.
    rewrite (proj2 (Z.ltb_lt i _)) by lia. simpl.
    apply vec_get_lookup. split; assumption.
Qed.

(** ** The marker iterator *)

Lemma wrap64_small (x : Z) : is_uint64 x -> wrap64 x = x.
Proof. intros H. apply Z.mod_small. exact H. Qed.

Lemma wrap64_invalid_succ : wrap64 (INVALID_INDEX + 1) = 0.
Proof. reflexivity. Qed.

Lemma filter_none (P : Z -> Prop) `{!forall x, Decision (P x)} (l : list Z) :
  Forall (fun x => ~ P x) l -> filter P l = [].
Proof.
  induction 1 as [|x l Hx _ IH]; [reflexivity|].
  rewrite filter_cons_False by exact Hx. exact IH.
Qed.

Lemma matching_nil (MARKER : Z) (t : TableTupleFilter) (from to_ : Z) :
  (forall j, from <= j < to_ -> m_tuples t !! Z.to_nat j <> Some MARKER) ->
  matching MARKER t from to_ = [].
Proof.
  intros H. unfold matching.
  apply filter_none, Forall_seqZ. intros j Hj. apply H. lia.
Qed.

Lemma matching_split (MARKER : Z) (t : TableTupleFilter) (from mid to_ : Z) :
  from <= mid <= to_ ->
  matching MARKER t from to_ = matching MARKER t from mid ++ matching MARKER t mid to_.
Proof.
  intros H. unfold matching.
  replace (to_ - from) with ((mid - from) + (to_ - mid)) by lia.
  rewrite seqZ_app by lia. rewrite filter_app.
  replace (from + (mid - from)) with mid by lia.
  replace (mid - from + (to_ - mid) - (mid - from)) with (to_ - mid) by lia.
  reflexivity.
Qed.

Lemma matching_head (MARKER : Z) (t : TableTupleFilter) (q to_ : Z) :
  q < to_ -> m_tuples t !! Z.to_nat q = Some MARKER ->
  matching MARKER t q to_ = q :: matching MARKER t (q + 1) to_.
Proof.
  intros Hq Hm. unfold matching. rewrite seqZ_cons by lia.
  rewrite filter_cons_True by exact Hm.
  replace (Z.succ q) with (q + 1) by lia.
  replace (Z.pred (to_ - q)) with (to_ - (q + 1)) by lia. reflexivity.
Qed.

Lemma elem_of_matching (MARKER : Z) (t : TableTupleFilter) (from to_ i : Z) :
  i ∈ matching MARKER t from to_ <->
  from <= i < to_ /\ m_tuples t !! Z.to_nat i = Some MARKER.
Proof.
  unfold matching. rewrite list_elem_of_filter, elem_of_seqZ.
  split; intros [H1 H2]; (split; [assumption || lia | assumption || lia]).
Qed.

Lemma seqZ_sorted (m n : Z) : StronglySorted Z.lt (seqZ m n).
Proof.
  destruct (Z.le_gt_cases n 0) as [Hn|Hn].
  - rewrite seqZ_nil by exact Hn. constructor.
  - rewrite <- (Z2Nat.id n) by lia. generalize (Z.to_nat n) as k. clear Hn.
    intros k. revert m. induction k as [|k IH]; intros m.
    + rewrite seqZ_nil by lia. constructor.
    + rewrite seqZ_cons by lia. constructor.
      * replace (Z.pred (Z.of_nat (S k))) with (Z.of_nat k) by lia. apply IH.
      * apply Forall_seqZ. intros x Hx. lia.
Qed.

Lemma filter_sorted (P : Z -> Prop) `{!forall x, Decision (P x)} (l : list Z) :
  StronglySorted Z.lt l -> StronglySorted Z.lt (filter P l).
Proof.
  induction 1 as [|x l Hs IH Hall]; [constructor|].
  destruct (decide (P x)) as [Hx|Hx].
  - rewrite filter_cons_True by exact Hx. constructor; [exact IH|].
    apply Forall_forall. intros y Hy. apply list_elem_of_filter in Hy as [_ Hy].
    rewrite Forall_forall in Hall. apply Hall. exact Hy.
  - rewrite filter_cons_False by exact Hx. exact IH.
Qed.

Lemma matching_sorted (MARKER : Z) (t : TableTupleFilter) (from to_ : Z) :
  StronglySorted Z.lt (matching MARKER t from to_).
Proof. unfold matching. apply filter_sorted, seqZ_sorted. Qed.

(** One [increment] from an index whose successor is [p] stops at the first
    slot from [p] on that carries [MARKER], or at [last + 1] when there is
    none; [last + 2 - p] units of fuel are enough. *)
Lemma increment_loop_finds (MARKER : Z) (t : TableTupleFilter) (last : Z) :
  last + 1 < 2 ^ 64 -> last < m_tuples_size t ->
  forall (n fuel : nat) (idx : Z),
    0 <= wrap64 (idx + 1) <= last + 1 ->
    Z.to_nat (last + 1 - wrap64 (idx + 1)) = n ->
    (n < fuel)%nat ->
    exists q,
      increment_loop fuel MARKER t last idx = Ok q /\
      wrap64 (idx + 1) <= q <= last + 1 /\
      (q <= last -> m_tuples t !! Z.to_nat q = Some MARKER) /\
      matching MARKER t (wrap64 (idx + 1)) q = [].
Proof.
  intros Hlast Hsize n. induction n as [|n IH]; intros fuel idx Hp Hn Hfuel.
  - destruct fuel as [|fuel]; [lia|]. simpl.
    assert (wrap64 (idx + 1) = last + 1) as Heq by lia.
    rewrite (proj2 (Z.leb_gt _ _)) by lia.
    exists (wrap64 (idx + 1)). split; [reflexivity|].
    split; [lia|]. split; [lia|]. apply matching_nil. lia.
  - destruct fuel as [|fuel]; [lia|]. simpl.
    set (p := wrap64 (idx + 1)) in *.
    rewrite (proj2 (Z.leb_le p last)) by lia.
    destruct (lookup_lt_is_Some_2 (m_tuples t) (Z.to_nat p)) as [v Hv];
      [unfold m_tuples_size in Hsize; lia|].
    rewrite (proj2 (getTupleValue_lookup t p v)) by (split; [lia|exact Hv]).
    simpl. destruct (Z.eqb_spec v MARKER) as [->|Hne]; simpl.
    + exists p. split; [reflexivity|]. split; [lia|].
      split; [intros _; exact Hv|]. apply matching_nil. lia.
    + assert (wrap64 (p + 1) = p + 1) as Hw by (apply wrap64_small; red; lia).
      destruct (IH fuel p) as (q & Hq & Hrange & Hm & Hnil).
      * rewrite Hw. lia.
      * rewrite Hw. lia.
      * lia.
      * rewrite Hw in *. exists q. split; [exact Hq|]. split; [lia|].
        split; [exact Hm|].
        rewrite (matching_split MARKER t p (p + 1) q) by lia.
        rewrite Hnil, app_nil_r. apply matching_nil.
        intros j Hj. replace j with p by lia. rewrite Hv. congruence.
Qed.

(** Walking from an iterator that stands on a slot carrying [MARKER], or on
    the end, visits the remaining slots carrying [MARKER] and stops at the
    end iterator. *)
Lemma walk_visits (MARKER : Z) (t : TableTupleFilter) (this : Z) (fuel : nat) :
  let last := m_lastActiveTupleIndex t in
  last + 1 < 2 ^ 64 -> last < m_tuples_size t ->
  (Z.to_nat (last + 2) <= fuel)%nat ->
  forall (n steps : nat) (q : Z),
    0 <= q <= last + 1 ->
    (q <= last -> m_tuples t !! Z.to_nat q = Some MARKER) ->
    Z.to_nat (last + 1 - q) = n ->
    (n < steps)%nat ->
    walk fuel steps MARKER t {| m_tableFilter := this; m_tupleIdx := q |}
         {| m_tableFilter := this; m_tupleIdx := last + 1 |}
    = Ok (matching MARKER t q (last + 1),
          {| m_tableFilter := this; m_tupleIdx := last + 1 |}).
Proof.
  intros last Hlast Hsize Hfuel n.
  induction (lt_wf n) as [n _ IH]. intros steps q Hq Hm Hn Hsteps.
  destruct steps as [|steps]; [lia|]. simpl.
  unfold equal. simpl. rewrite Z.eqb_refl. simpl.
  destruct (Z.eqb_spec q (last + 1)) as [->|Hne].
  - rewrite matching_nil by lia. reflexivity.
  - unfold increment, getLastActiveTupleIndex. simpl. fold last.
    assert (wrap64 (q + 1) = q + 1) as Hw by (apply wrap64_small; red; lia).
    destruct (increment_loop_finds MARKER t last Hlast Hsize
                (Z.to_nat (last + 1 - wrap64 (q + 1))) fuel q)
      as (q' & Hq' & Hrange & Hm' & Hnil); [rewrite Hw; lia|reflexivity|rewrite Hw; lia|].
    rewrite Hq'. simpl. rewrite Hw in *.
    rewrite (IH (Z.to_nat (last + 1 - q'))) with (steps := steps) (q := q');
      [|lia|lia|exact Hm'|reflexivity|lia].
    simpl. unfold dereference. simpl.
    rewrite (matching_head MARKER t q (last + 1)) by (lia || apply Hm; lia).
    rewrite (matching_split MARKER t (q + 1) q' (last + 1)) by lia.
    rewrite Hnil. reflexivity.
Qed.

(** An iteration over a non-empty filter visits the slots up to the last
    active one that carry [MARKER], with [last + 2] units of fuel. *)
Lemma iterate_nonempty (MARKER : Z) (t : TableTupleFilter) (this : Z) (fuel : nat) :
  let last := m_lastActiveTupleIndex t in
  is_uint64 last -> last <> INVALID_INDEX -> last < m_tuples_size t ->
  (Z.to_nat (last + 2) <= fuel)%nat ->
  iterate fuel this MARKER t
  = Ok (matching MARKER t 0 (last + 1), end_ this MARKER t)
  /\ end_ this MARKER t = {| m_tableFilter := this; m_tupleIdx := last + 1 |}.
Proof.
  intros last Hu Hne Hsize Hfuel. unfold is_uint64, INVALID_INDEX in Hu, Hne.
  assert (last + 1 < 2 ^ 64) as Hlt by lia.
  assert (end_ this MARKER t = {| m_tableFilter := this; m_tupleIdx := last + 1 |}) as He.
  { unfold end_, getLastActiveTupleIndex. fold last.
    destruct (Z.eqb_spec last INVALID_INDEX) as [Heq|_]; [unfold INVALID_INDEX in Heq; lia|].
    simpl. rewrite wrap64_small by (red; lia). reflexivity. }
  split; [|exact He].
  unfold iterate, begin, empty. rewrite !He. fold last.
  destruct (Z.eqb_spec last INVALID_INDEX) as [Heq|_]; [unfold INVALID_INDEX in Heq; lia|].
  simpl. unfold increment, getLastActiveTupleIndex. simpl. fold last.
  destruct (increment_loop_finds MARKER t last Hlt Hsize
              (Z.to_nat (last + 1 - wrap64 (INVALID_INDEX + 1))) fuel INVALID_INDEX)
    as (q & Hq & Hrange & Hm & Hnil);
    [rewrite wrap64_invalid_succ; lia|reflexivity|rewrite wrap64_invalid_succ; lia|].
  rewrite wrap64_invalid_succ in *. rewrite Hq. simpl.
  pose proof (walk_visits MARKER t this fuel Hlt Hsize Hfuel
                (Z.to_nat (last + 1 - q)) fuel q) as Hwalk.
  fold last in Hwalk. rewrite Hwalk; [|lia|exact Hm|reflexivity|lia].
  rewrite (matching_split MARKER t 0 q (last + 1)) by lia.
  rewrite Hnil. reflexivity.
Qed.

Lemma iterate_empty (MARKER : Z) (t : TableTupleFilter) (this : Z) (fuel : nat) :
  empty t = true ->
  begin fuel this MARKER t = Ok (end_ this MARKER t) /\
  ((0 < fuel)%nat -> iterate fuel this MARKER t = Ok ([], end_ this MARKER t)).
Proof.
  intros He. unfold iterate, begin. rewrite He. simpl.
  assert (end_ this MARKER t = {| m_tableFilter := this; m_tupleIdx := INVALID_INDEX |}) as ->.
  { unfold end_, getLastActiveTupleIndex. unfold empty in He. rewrite He. reflexivity. }
  split; [reflexivity|]. intros Hfuel. destruct fuel as [|fuel]; [lia|].
  simpl. unfold equal. simpl. rewrite !Z.eqb_refl. reflexivity.
Qed.

Lemma last_ok_nonempty (t : TableTupleFilter) :
  last_ok t -> empty t = false ->
  is_uint64 (m_lastActiveTupleIndex t) /\
  m_lastActiveTupleIndex t <> INVALID_INDEX /\
  m_lastActiveTupleIndex t < m_tuples_size t.
Proof.
  intros [Hu Hr] He. unfold empty in He. apply Z.eqb_neq in He. auto.
Qed.

(** ** Iteration: the claims *)

(** C2: over an initialized, non-empty filter, walking [begin<MARKER>()] by
    repeated [increment] up to [end<MARKER>()] visits exactly the slots of
    [[0, last active index]] whose marker is [MARKER], in strictly increasing
    order, and stops at the end iterator, whose index is the last active
    index plus one. *)
Theorem iteration_visits_matching_slots
    (MARKER : Z) (t : TableTupleFilter) (this : Z) (fuel : nat) :
  last_ok t -> empty t = false -> (iteration_fuel t <= fuel)%nat ->
  exists visited,
    iterate fuel this MARKER t = Ok (visited, end_ this MARKER t) /\
    (forall i, i ∈ visited <->
               0 <= i <= m_lastActiveTupleIndex t /\ getTupleValue t i = Ok MARKER) /\
    StronglySorted Z.lt visited /\
    m_tupleIdx (end_ this MARKER t) = m_lastActiveTupleIndex t + 1.
Proof.
  intros Hok He Hfuel.
  destruct (last_ok_nonempty t Hok He) as (Hu & Hne & Hsize).
  unfold iteration_fuel in Hfuel. rewrite He in Hfuel.
  destruct (iterate_nonempty MARKER t this fuel Hu Hne Hsize Hfuel) as [Hit Hend].
  exists (matching MARKER t 0 (m_lastActiveTupleIndex t + 1)).
  split; [exact Hit|]. split; [|split].
  - intros i. rewrite elem_of_matching, getTupleValue_lookup.
    split; intros [H1 H2]; (split; [lia|]); tauto.
  - apply matching_sorted.
  - rewrite Hend. reflexivity.
Qed.

Lemma iteration_visits_matching_slots_witness :
  last_ok scenario_marked /\ empty scenario_marked = false /\
  exists visited,
    iterate 8 0 0 scenario_marked = Ok (visited, end_ 0 0 scenario_marked) /\
    (forall i, i ∈ visited <->
               0 <= i <= m_lastActiveTupleIndex scenario_marked /\
               getTupleValue scenario_marked i = Ok 0) /\
    StronglySorted Z.lt visited /\
    m_tupleIdx (end_ 0 0 scenario_marked) = m_lastActiveTupleIndex scenario_marked + 1.
Proof.
  assert (last_ok scenario_marked) as Hok.
  { split; [split; simpl; lia|]. intros _. unfold m_tuples_size. simpl. lia. }
  split; [exact Hok|]. split; [reflexivity|].
  apply (iteration_visits_matching_slots 0 scenario_marked 0 8 Hok eq_refl).
  unfold iteration_fuel. simpl. lia.
Defined.

(** C7: over an empty filter, [begin<MARKER>()] is [end<MARKER>()] for every
    marker, the two compare equal, and the iteration visits nothing. *)
Theorem empty_filter_iterates_nothing
    (MARKER : Z) (t : TableTupleFilter) (this : Z) (fuel : nat) :
  empty t = true ->
  begin fuel this MARKER t = Ok (end_ this MARKER t) /\
  equal (end_ this MARKER t) (end_ this MARKER t) = Ok true /\
  m_tupleIdx (end_ this MARKER t) = INVALID_INDEX /\
  ((0 < fuel)%nat -> iterate fuel this MARKER t = Ok ([], end_ this MARKER t)).
Proof.
  intros He. destruct (iterate_empty MARKER t this fuel He) as [Hb Hi].
  split; [exact Hb|]. split; [|split; [|exact Hi]].
  - unfold equal. rewrite !Z.eqb_refl. reflexivity.
  - unfold end_, getLastActiveTupleIndex. unfold empty in He. rewrite He. reflexivity.
Qed.

Lemma empty_filter_iterates_nothing_witness :
  empty scenario_unmarked = true /\
  begin 1 0 5 scenario_unmarked = Ok (end_ 0 5 scenario_unmarked) /\
  equal (end_ 0 5 scenario_unmarked) (end_ 0 5 scenario_unmarked) = Ok true /\
  m_tupleIdx (end_ 0 5 scenario_unmarked) = INVALID_INDEX /\
  ((0 < 1)%nat -> iterate 1 0 5 scenario_unmarked = Ok ([], end_ 0 5 scenario_unmarked)).
Proof.
  split; [reflexivity|].
  apply (empty_filter_iterates_nothing 5 scenario_unmarked 0 1). reflexivity.
Defined.

(** C9: over an initialized filter the iteration from [begin<MARKER>()]
    terminates: from [iteration_fuel t] units of fuel on it returns, having
    reached the end iterator, and the indices it visited are finitely many,
    each one a slot no greater than the last active index. *)
Theorem iteration_terminates_within_bound
    (MARKER : Z) (t : TableTupleFilter) (this : Z) (fuel : nat) :
  last_ok t -> (iteration_fuel t <= fuel)%nat ->
  exists visited,
    iterate fuel this MARKER t = Ok (visited, end_ this MARKER t) /\
    Forall (fun i => 0 <= i <= m_lastActiveTupleIndex t) visited /\
    (length visited < iteration_fuel t)%nat.
Proof.
  intros Hok Hfuel. unfold iteration_fuel in *.
  destruct (empty t) eqn:He.
  - exists []. destruct (iterate_empty MARKER t this fuel He) as [_ Hi].
    split; [apply Hi; lia|]. split; [constructor|simpl; lia].
  - destruct (last_ok_nonempty t Hok He) as (Hu & Hne & Hsize).
    destruct (iterate_nonempty MARKER t this fuel Hu Hne Hsize Hfuel) as [Hit _].
    exists (matching MARKER t 0 (m_lastActiveTupleIndex t + 1)).
    split; [exact Hit|]. split.
    + apply Forall_forall. intros i Hi. apply elem_of_matching in Hi. lia.
    + unfold matching. eapply Nat.le_lt_trans; [apply length_filter|].
      rewrite length_seqZ. red in Hu. lia.
Qed.

Lemma iteration_terminates_within_bound_witness :
  last_ok scenario_marked /\
  exists visited,
    iterate 8 0 5 scenario_marked = Ok (visited, end_ 0 5 scenario_marked) /\
    Forall (fun i => 0 <= i <= m_lastActiveTupleIndex scenario_marked) visited /\
    (length visited < iteration_fuel scenario_marked)%nat.
Proof.
  assert (last_ok scenario_marked) as Hok.
  { split; [split; simpl; lia|]. intros _. unfold m_tuples_size. simpl. lia. }
  split; [exact Hok|].
  apply (iteration_terminates_within_bound 5 scenario_marked 0 8 Hok).
  unfold iteration_fuel. simpl. lia.
Defined.

(** C10: the [begin] iterator of a non-empty filter is made with its index
    at the invalid index, the largest unsigned 64-bit integer; the first
    [++] of [increment] wraps it to 0, so [begin] stops at the first slot
    from 0 on that carries [MARKER], or at the end when there is none.
    Without the wrap the successor, [2 ^ 64], would fail the loop test
    against the last active index at once. *)
Theorem begin_wraps_to_slot_zero
    (MARKER : Z) (t : TableTupleFilter) (this : Z) (fuel : nat) :
  last_ok t -> empty t = false -> (iteration_fuel t <= fuel)%nat ->
  begin fuel this MARKER t
  = increment fuel MARKER t {| m_tableFilter := this; m_tupleIdx := INVALID_INDEX |} /\
  INVALID_INDEX = 2 ^ 64 - 1 /\
  wrap64 (INVALID_INDEX + 1) = 0 /\
  ~ (INVALID_INDEX + 1 <= m_lastActiveTupleIndex t) /\
  exists q,
    begin fuel this MARKER t = Ok {| m_tableFilter := this; m_tupleIdx := q |} /\
    0 <= q <= m_lastActiveTupleIndex t + 1 /\
    (q <= m_lastActiveTupleIndex t -> getTupleValue t q = Ok MARKER) /\
    (forall j, 0 <= j < q -> getTupleValue t j <> Ok MARKER).
Proof.
  intros Hok He Hfuel.
  destruct (last_ok_nonempty t Hok He) as (Hu & Hne & Hsize).
  unfold iteration_fuel in Hfuel. rewrite He in Hfuel.
  assert (begin fuel this MARKER t
          = increment fuel MARKER t {| m_tableFilter := this; m_tupleIdx := INVALID_INDEX |})
    as Hb by (unfold begin; rewrite He; reflexivity).
  split; [exact Hb|]. split; [reflexivity|]. split; [reflexivity|].
  split; [unfold INVALID_INDEX; red in Hu; lia|].
  rewrite Hb. unfold increment, getLastActiveTupleIndex. simpl.
  red in Hu. unfold INVALID_INDEX in Hne.
  destruct (increment_loop_finds MARKER t (m_lastActiveTupleIndex t) ltac:(lia) Hsize
              (Z.to_nat (m_lastActiveTupleIndex t + 1 - wrap64 (INVALID_INDEX + 1)))
              fuel INVALID_INDEX)
    as (q & Hq & Hrange & Hm & Hnil);
    [rewrite wrap64_invalid_succ; lia|reflexivity|rewrite wrap64_invalid_succ; lia|].
  rewrite wrap64_invalid_succ in *. exists q. rewrite Hq. simpl.
  split; [reflexivity|]. split; [lia|]. split.
  - intros Hle. apply getTupleValue_lookup. split; [lia|auto].
  - intros j Hj Hv. apply getTupleValue_lookup in Hv as [_ Hv].
    assert (j ∈ matching MARKER t 0 q) as Hin by (apply elem_of_matching; split; [lia|exact Hv]).
    rewrite Hnil in Hin. inversion Hin.
Qed.

Lemma begin_wraps_to_slot_zero_witness :
  last_ok scenario_marked /\ empty scenario_marked = false /\
  begin 8 0 5 scenario_marked
  = increment 8 5 scenario_marked {| m_tableFilter := 0; m_tupleIdx := INVALID_INDEX |} /\
  INVALID_INDEX = 2 ^ 64 - 1 /\
  wrap64 (INVALID_INDEX + 1) = 0 /\
  ~ (INVALID_INDEX + 1 <= m_lastActiveTupleIndex scenario_marked) /\
  exists q,
    begin 8 0 5 scenario_marked = Ok {| m_tableFilter := 0; m_tupleIdx := q |} /\
    0 <= q <= m_lastActiveTupleIndex scenario_marked + 1 /\
    (q <= m_lastActiveTupleIndex scenario_marked -> getTupleValue scenario_marked q = Ok 5) /\
    (forall j, 0 <= j < q -> getTupleValue scenario_marked j <> Ok 5).
Proof.
  assert (last_ok scenario_marked) as Hok.
  { split; [split; simpl; lia|]. intros _. unfold m_tuples_size. simpl. lia. }
  split; [exact Hok|]. split; [reflexivity|].
  apply (begin_wraps_to_slot_zero 5 scenario_marked 0 8 Hok eq_refl).
  unfold iteration_fuel. simpl. lia.
Defined.

(** ** Address translation *)

Section AddressTranslationFacts.

Variable blockSize : Z.

Lemma aligned_base (b a : Z) :
  0 < blockSize -> b mod blockSize = 0 -> b <= a < b + blockSize ->
  a - a mod blockSize = b.
Proof.
  intros Hbs Hb Ha.
  assert (a mod blockSize = a - b) as ->; [|lia].
  symmetry. apply (Z.mod_unique_pos a blockSize (b / blockSize)); [lia|].
  pose proof (Z.div_mod b blockSize ltac:(lia)) as Hdm. rewrite Hb in Hdm. lia.
Qed.

Lemma set_prevBlock_same (t : TableTupleFilter) :
  set_prevBlock t (m_prevBlockAddress t) (m_prevBlockIndex t) = t.
Proof. destruct t. reflexivity. Qed.

Lemma blocks_aligned_lookup (t : TableTupleFilter) (i : nat) (b : Z) :
  blocks_aligned blockSize t -> m_blocks t !! i = Some b ->
  is_uint64 b /\ b mod blockSize = 0.
Proof.
  intros [_ Hall] Hb. rewrite Forall_forall in Hall.
  apply Hall. eapply list_elem_of_lookup_2. exact Hb.
Qed.

(** A resolved address leaves its block in the cache, whatever coherent
    content the cache had. *)
Lemma findBlockIndex_in_block (t : TableTupleFilter) (i : nat) (b a : Z) :
  blocks_aligned blockSize t -> offsets_ok t -> cache_ok blockSize t ->
  in_block blockSize t i b a ->
  findBlockIndex blockSize t a
  = Ok (Z.of_nat i * m_tuplesPerBlock t,
        set_prevBlock t b (Z.of_nat i * m_tuplesPerBlock t)).
Proof.
  intros Hal Hoff [Hcal Hcoff] [Hb Ha].
  destruct (blocks_aligned_lookup t i b Hal Hb) as [_ Hbal].
  destruct Hal as [Hbs _]. pose proof (Hoff i b Hb) as Hmap.
  pose proof (aligned_base b a Hbs Hbal Ha) as Hbase.
  unfold findBlockIndex.
  destruct ((m_prevBlockAddress t <=? a) && (a <? m_prevBlockAddress t + blockSize)) eqn:Hhit.
  - apply andb_true_iff in Hhit as [H1 H2].
    apply Z.leb_le in H1. apply Z.ltb_lt in H2.
    pose proof (aligned_base (m_prevBlockAddress t) a Hbs Hcal (conj H1 H2)) as Hprev.
    assert (m_prevBlockAddress t = b) as Hpb by lia.
    rewrite Hpb in Hcoff. rewrite (Hcoff _ Hmap).
    rewrite <- (Hcoff _ Hmap), <- Hpb. rewrite set_prevBlock_same. reflexivity.
  - simpl. rewrite Hbase, Hmap. reflexivity.
Qed.

Lemma getTupleIndex_in_block (t : TableTupleFilter) (tuple : TableTuple) (i : nat) (b : Z) :
  blocks_aligned blockSize t -> offsets_ok t -> cache_ok blockSize t ->
  in_block blockSize t i b (address tuple) ->
  m_tupleLength t <> 0 ->
  is_uint64 (address tuple) ->
  is_uint64 (slot_of t i b (address tuple)) ->
  getTupleIndex blockSize t tuple
  = Ok (slot_of t i b (address tuple),
        set_prevBlock t b (Z.of_nat i * m_tuplesPerBlock t)).
Proof.
  intros Hal Hoff Hc Hin Hlen Ha Hslot. unfold getTupleIndex.
  rewrite (findBlockIndex_in_block t i b (address tuple) Hal Hoff Hc Hin). simpl.
  destruct (Z.eqb_spec (m_tupleLength t) 0) as [|_]; [contradiction|].
  destruct Hin as [Hb Hrange].
  destruct (blocks_aligned_lookup t i b Hal Hb) as [Hbu _].
  rewrite (wrap64_small (address tuple - b)) by (unfold is_uint64 in *; lia).
  fold (slot_of t i b (address tuple)). rewrite wrap64_small by exact Hslot.
  reflexivity.
Qed.

(** Resolving an address only ever touches the cache. *)
Lemma findBlockIndex_frame (t t' : TableTupleFilter) (a off : Z) :
  findBlockIndex blockSize t a = Ok (off, t') ->
  exists pa pi, t' = set_prevBlock t pa pi.
Proof.
  unfold findBlockIndex.
  destruct ((m_prevBlockAddress t <=? a) && (a <? m_prevBlockAddress t + blockSize)).
  - intros [= <- <-]. exists (m_prevBlockAddress t), (m_prevBlockIndex t).
    symmetry. apply set_prevBlock_same.
  - simpl. destruct (m_blockIndexes t !! (a - a mod blockSize)) as [o|]; [|discriminate].
    intros [= <- <-]. eauto.
Qed.

Lemma getTupleIndex_frame (t t' : TableTupleFilter) (tuple : TableTuple) (idx : Z) :
  getTupleIndex blockSize t tuple = Ok (idx, t') ->
  is_uint64 idx /\ exists pa pi, t' = set_prevBlock t pa pi.
Proof.
  unfold getTupleIndex.
  destruct (findBlockIndex blockSize t (address tuple)) as [[off t1]|] eqn:Hf; [|discriminate].
  simpl. destruct (m_tupleLength t1 =? 0); [discriminate|].
  intros [= <- <-]. split.
  - apply Z.mod_pos_bound. lia.
  - eapply findBlockIndex_frame. exact Hf.
Qed.

(** The cache stays coherent across a resolution. *)
Lemma findBlockIndex_cache_ok (t t' : TableTupleFilter) (a off : Z) :
  0 < blockSize -> cache_ok blockSize t ->
  findBlockIndex blockSize t a = Ok (off, t') ->
  cache_ok blockSize t'.
Proof.
  intros Hbs Hc. unfold findBlockIndex.
  destruct ((m_prevBlockAddress t <=? a) && (a <? m_prevBlockAddress t + blockSize)).
  - intros [= <- <-]. exact Hc.
  - simpl. destruct (m_blockIndexes t !! (a - a mod blockSize)) as [o|] eqn:Hm; [|discriminate].
    intros [= <- <-]. split; simpl.
    + rewrite Zminus_mod, Z.mod_mod, Z.sub_diag by lia. apply Z.mod_0_l. lia.
    + intros o'. rewrite Hm. congruence.
Qed.

Lemma cache_ok_refreshed (t : TableTupleFilter) (i : nat) (b : Z) :
  blocks_aligned blockSize t -> offsets_ok t -> m_blocks t !! i = Some b ->
  cache_ok blockSize (set_prevBlock t b (Z.of_nat i * m_tuplesPerBlock t)).
Proof.
  intros Hal Hoff Hb. split; simpl.
  - apply (blocks_aligned_lookup t i b Hal Hb).
  - intros o. rewrite (Hoff i b Hb). congruence.
Qed.

Lemma fst_imap_indexed (g : nat -> Z) (l : list Z) :
  (imap (fun i b => (b, g i)) l).*1 = l.
Proof.
  revert g. induction l as [|x l IH]; intros g; [reflexivity|].
  simpl. f_equal. exact (IH (fun i => g (S i))).
Qed.

(** The map [init] builds gives every block of a duplicate-free enumeration
    its index times the tuples per block. *)
Lemma block_offsets_lookup (blocks : list Z) (tuplesPerBlock : Z) (i : nat) (b : Z) :
  NoDup blocks -> blocks !! i = Some b ->
  block_offsets blocks tuplesPerBlock !! b = Some (Z.of_nat i * tuplesPerBlock).
Proof.
  intros Hnd Hb. unfold block_offsets. apply elem_of_list_to_map_1.
  - rewrite fst_imap_indexed. exact Hnd.
  - apply (elem_of_lookup_imap_2 (fun i b => (b, Z.of_nat i * tuplesPerBlock))). exact Hb.
Qed.

Lemma init_offsets_ok (t : TableTupleFilter) (blocks : list Z) (tuplesPerBlock tupleLength : Z) :
  NoDup blocks -> offsets_ok (init t blocks tuplesPerBlock tupleLength).
Proof. intros Hnd i b Hb. simpl in *. apply block_offsets_lookup; assumption. Qed.

End AddressTranslationFacts.

(** ** Updating a marker *)

Section UpdateFacts.

Variable blockSize : Z.

(** What [updateTuple] does once the tuple's index is resolved. *)
Lemma updateTuple_resolved (t t1 : TableTupleFilter) (tuple : TableTuple) (marker idx : Z) :
  getTupleIndex blockSize t tuple = Ok (idx, t1) ->
  updateTuple blockSize t tuple marker =
  if (idx <=? m_lastActiveTupleIndex t) && negb (m_lastActiveTupleIndex t =? INVALID_INDEX)
  then match m_tuples t !! Z.to_nat idx with
       | Some v =>
           if v =? INACTIVE_TUPLE then Fail AssertionFailed
           else Ok (idx, set_tuples t1 (<[Z.to_nat idx := marker]> (m_tuples t)))
       | None => Fail OutOfBounds
       end
  else Fail AssertionFailed.
Proof.
  intros Hidx. unfold updateTuple. rewrite Hidx. simpl.
  destruct (getTupleIndex_frame blockSize t t1 tuple idx Hidx) as [Hu (pa & pi & ->)].
  simpl.
  destruct ((idx <=? m_lastActiveTupleIndex t)
            && negb (m_lastActiveTupleIndex t =? INVALID_INDEX)); [|reflexivity].
  simpl. unfold vec_get, vec_set. red in Hu.
  rewrite (proj2 (Z.leb_le 0 idx)) by lia. simpl.
  destruct (m_tuples t !! Z.to_nat idx) as [v|] eqn:Hv.
  - pose proof (lookup_lt_Some _ _ _ Hv) as Hlt.
    rewrite (proj2 (Z.ltb_lt idx _)) by lia. simpl.
    destruct (v =? INACTIVE_TUPLE); reflexivity.
  - destruct (idx <? Z.of_nat (length (m_tuples t))); reflexivity.
Qed.

Lemma updateTuple_inv (t t' : TableTupleFilter) (tuple : TableTuple) (marker idx : Z) :
  updateTuple blockSize t tuple marker = Ok (idx, t') ->
  exists t1 v,
    getTupleIndex blockSize t tuple = Ok (idx, t1) /\
    idx <= m_lastActiveTupleIndex t /\
    m_lastActiveTupleIndex t <> INVALID_INDEX /\
    m_tuples t !! Z.to_nat idx = Some v /\ v <> INACTIVE_TUPLE /\
    t' = set_tuples t1 (<[Z.to_nat idx := marker]> (m_tuples t)).
Proof.
  intros Hup.
  destruct (getTupleIndex blockSize t tuple) as [[idx0 t1]|e] eqn:Hidx;
    [|unfold updateTuple in Hup; rewrite Hidx in Hup; discriminate].
  rewrite (updateTuple_resolved t t1 tuple marker idx0 Hidx) in Hup.
  destruct ((idx0 <=? m_lastActiveTupleIndex t)
            && negb (m_lastActiveTupleIndex t =? INVALID_INDEX)) eqn:Hpre; [|discriminate].
  apply andb_true_iff in Hpre as [Hle Hne].
  apply Z.leb_le in Hle. apply negb_true_iff, Z.eqb_neq in Hne.
  destruct (m_tuples t !! Z.to_nat idx0) as [v|] eqn:Hv; [|discriminate].
  destruct (Z.eqb_spec v INACTIVE_TUPLE) as [|Hvne]; [discriminate|].
  injection Hup as <- <-. exists t1, v. auto 10.
Qed.

Lemma getTupleValue_set_tuples_other (t1 t : TableTupleFilter) (idx marker s : Z) :
  0 <= idx -> s <> idx ->
  getTupleValue (set_tuples t1 (<[Z.to_nat idx := marker]> (m_tuples t))) s
  = getTupleValue t s.
Proof.
  intros Hidx Hs. unfold getTupleValue, m_tuples_size, vec_get. simpl.
  rewrite length_insert.
  destruct (s <? Z.of_nat (length (m_tuples t))); [|reflexivity]. simpl.
  destruct (Z.leb_spec 0 s) as [H0|H0]; [|reflexivity]. simpl.
  rewrite list_lookup_insert_ne by lia. reflexivity.
Qed.

Lemma getTupleValue_set_tuples_same (t1 t : TableTupleFilter) (idx marker v : Z) :
  0 <= idx -> m_tuples t !! Z.to_nat idx = Some v ->
  getTupleValue (set_tuples t1 (<[Z.to_nat idx := marker]> (m_tuples t))) idx = Ok marker.
Proof.
  intros Hidx Hv. apply getTupleValue_lookup. split; [exact Hidx|]. simpl.
  apply list_lookup_insert_eq. eapply lookup_lt_Some. exact Hv.
Qed.

End UpdateFacts.

(** ** The states of an initialized filter *)

Section Invariants.

Variable blockSize : Z.

Lemma init_markers_ok (t : TableTupleFilter) (blocks : list Z) (tuplesPerBlock tupleLength : Z) :
  markers_ok (init t blocks tuplesPerBlock tupleLength).
Proof.
  split; [split|].
  - simpl. unfold is_uint64, INVALID_INDEX. lia.
  - simpl. congruence.
  - intros s v Hs Hv. simpl in Hs. apply lookup_replicate in Hs as [-> _]. congruence.
Qed.

Lemma initActiveTuple_markers_ok (t t' : TableTupleFilter) (tuple : TableTuple) :
  m_tuples_size t < 2 ^ 64 -> markers_ok t ->
  initActiveTuple blockSize t tuple = Ok t' ->
  markers_ok t' /\ m_tuples_size t' = m_tuples_size t.
Proof.
  intros Hsize [[Hu Hr] Hbelow]. unfold initActiveTuple.
  destruct (getTupleIndex blockSize t tuple) as [[idx t1]|] eqn:Hidx; [|discriminate].
  destruct (getTupleIndex_frame blockSize t t1 tuple idx Hidx) as [Hi (pa & pi & ->)].
  simpl. destruct (vec_get (m_tuples t) idx) as [v|] eqn:Hv; [|discriminate]. simpl.
  destruct (v =? INACTIVE_TUPLE); [|discriminate]. simpl.
  apply vec_get_lookup in Hv as [_ Hv]. pose proof (lookup_lt_Some _ _ _ Hv) as Hlt.
  unfold vec_set. red in Hi. unfold m_tuples_size in *.
  rewrite (proj2 (Z.leb_le 0 idx)) by lia.
  rewrite (proj2 (Z.ltb_lt idx _)) by lia. simpl.
  assert (forall s w, <[Z.to_nat idx := ACTIVE_TUPLE]> (m_tuples t) !! s = Some w ->
                      w <> INACTIVE_TUPLE ->
                      s = Z.to_nat idx \/ m_tuples t !! s = Some w) as Hins.
  { intros s w Hs _. destruct (decide (s = Z.to_nat idx)) as [|Hne]; [left; assumption|].
    right. rewrite list_lookup_insert_ne in Hs by congruence. exact Hs. }
  destruct ((m_lastActiveTupleIndex t =? INVALID_INDEX)
            || (m_lastActiveTupleIndex t <? idx)) eqn:Hadv;
    intros [= <-]; (split; [|simpl; rewrite length_insert; reflexivity]).
  - split; [split|]; simpl.
    + exact Hi.
    + intros _. unfold m_tuples_size. simpl. rewrite length_insert. lia.
    + intros s w Hs Hw. simpl in Hs |- *. split; [unfold INVALID_INDEX; lia|].
      destruct (Hins s w Hs Hw) as [->|Hold]; [lia|].
      destruct (Hbelow s w Hold Hw) as [Hne Hle].
      apply orb_true_iff in Hadv as [Heq|Hltb].
      * apply Z.eqb_eq in Heq. contradiction.
      * apply Z.ltb_lt in Hltb. lia.
  - apply orb_false_iff in Hadv as [Hneq Hge].
    apply Z.eqb_neq in Hneq. apply Z.ltb_ge in Hge.
    split; [split|]; simpl.
    + exact Hu.
    + intros _. unfold m_tuples_size. simpl. rewrite length_insert. apply Hr. exact Hneq.
    + intros s w Hs Hw. simpl in Hs |- *. split; [exact Hneq|].
      destruct (Hins s w Hs Hw) as [->|Hold]; [lia|].
      apply (Hbelow s w Hold Hw).
Qed.

Lemma initActiveTuples_markers_ok (tuples : list TableTuple) (t t' : TableTupleFilter) :
  m_tuples_size t < 2 ^ 64 -> markers_ok t ->
  initActiveTuples blockSize t tuples = Ok t' ->
  markers_ok t'.
Proof.
  revert t. induction tuples as [|tuple rest IH]; intros t Hsize Hok; simpl.
  - intros [= <-]. exact Hok.
  - destruct (initActiveTuple blockSize t tuple) as [t1|] eqn:H1; [|discriminate].
    simpl. destruct (initActiveTuple_markers_ok t t1 tuple Hsize Hok H1) as [Hok1 Hsz].
    apply IH; [rewrite Hsz; exact Hsize|exact Hok1].
Qed.

(** Initialization from a table leaves the markers well formed. *)
Lemma init_table_markers_ok (t t' : TableTupleFilter) (table : Table) :
  Z.of_nat (length (getBlockAddresses table)) * Z.of_nat (Z.to_nat (getTuplesPerBlock table))
  < 2 ^ 64 ->
  init_table blockSize t table = Ok t' ->
  markers_ok t'.
Proof.
  intros Hsize. unfold init_table. apply initActiveTuples_markers_ok.
  - unfold m_tuples_size. simpl. rewrite length_replicate. lia.
  - apply init_markers_ok.
Qed.

(** An update leaves the markers well formed. *)
Lemma updateTuple_markers_ok (t t' : TableTupleFilter) (tuple : TableTuple) (marker idx : Z) :
  markers_ok t ->
  updateTuple blockSize t tuple marker = Ok (idx, t') ->
  markers_ok t'.
Proof.
  intros [[Hu Hr] Hbelow] Hup.
  destruct (updateTuple_inv blockSize t t' tuple marker idx Hup)
    as (t1 & v0 & Hidx & Hle & Hlast & Hv0 & Hne0 & ->).
  destruct (getTupleIndex_frame blockSize t t1 tuple idx Hidx) as [Hi (pa & pi & ->)].
  red in Hi. split; [split|]; simpl.
  - exact Hu.
  - intros Hne. unfold m_tuples_size in *. simpl. rewrite length_insert. apply Hr. exact Hne.
  - intros s w Hs Hw. simpl in Hs |- *. split; [exact Hlast|].
    destruct (decide (s = Z.to_nat idx)) as [->|Hne]; [lia|].
    rewrite list_lookup_insert_ne in Hs by congruence. apply (Hbelow s w Hs Hw).
Qed.

(** The layout and the coherence of the cache survive every resolution,
    hence every [initActiveTuple] and every [updateTuple]. *)
Lemma getTupleIndex_layout (t t' : TableTupleFilter) (tuple : TableTuple) (idx : Z) :
  blocks_aligned blockSize t -> offsets_ok t -> cache_ok blockSize t ->
  getTupleIndex blockSize t tuple = Ok (idx, t') ->
  blocks_aligned blockSize t' /\ offsets_ok t' /\ cache_ok blockSize t'.
Proof.
  intros Hal Hoff Hc Hidx.
  assert (cache_ok blockSize t') as Hc'.
  { unfold getTupleIndex in Hidx.
    destruct (findBlockIndex blockSize t (address tuple)) as [[off t1]|] eqn:Hf; [|discriminate].
    simpl in Hidx. destruct (m_tupleLength t1 =? 0); [discriminate|].
    injection Hidx as _ <-.
    eapply findBlockIndex_cache_ok; [apply Hal|exact Hc|exact Hf]. }
  destruct (getTupleIndex_frame blockSize t t' tuple idx Hidx) as [_ (pa & pi & ->)].
  split; [exact Hal|]. split; [exact Hoff|exact Hc'].
Qed.

Lemma updateTuple_layout (t t' : TableTupleFilter) (tuple : TableTuple) (marker idx : Z) :
  blocks_aligned blockSize t -> offsets_ok t -> cache_ok blockSize t ->
  updateTuple blockSize t tuple marker = Ok (idx, t') ->
  blocks_aligned blockSize t' /\ offsets_ok t' /\ cache_ok blockSize t'.
Proof.
  intros Hal Hoff Hc Hup.
  destruct (updateTuple_inv blockSize t t' tuple marker idx Hup)
    as (t1 & v0 & Hidx & _ & _ & _ & _ & ->).
  exact (getTupleIndex_layout t t1 tuple idx Hal Hoff Hc Hidx).
Qed.

End Invariants.

(** ** The scenario's filter is well laid out *)

Lemma scenario_blocks_NoDup : NoDup scenario_blocks.
Proof.
  unfold scenario_blocks. apply NoDup_cons. split.
  - intros Hin. apply list_elem_of_singleton in Hin. discriminate.
  - apply NoDup_singleton.
Qed.

Lemma scenario_marked_aligned : blocks_aligned 64 scenario_marked.
Proof.
  split; [lia|]. simpl. unfold scenario_blocks, is_uint64.
  repeat constructor; lia.
Qed.

Lemma scenario_marked_offsets : offsets_ok scenario_marked.
Proof.
  intros i b Hb. simpl in *. apply block_offsets_lookup; [apply scenario_blocks_NoDup|exact Hb].
Qed.

Lemma scenario_marked_cache (i : nat) (b : Z) :
  scenario_blocks !! i = Some b ->
  cache_ok 64 (set_prevBlock scenario_marked b (Z.of_nat i * 4)).
Proof.
  intros Hb.
  apply (cache_ok_refreshed 64 scenario_marked i b
           scenario_marked_aligned scenario_marked_offsets Hb).
Qed.

Lemma scenario_marked_ok : markers_ok scenario_marked.
Proof.
  split.
  - split; [split; simpl; lia|]. intros _. unfold m_tuples_size. simpl. lia.
  - intros s v Hs Hv. simpl in *. split; [discriminate|].
    unfold INACTIVE_TUPLE in Hv.
    do 7 (destruct s as [|s]; [simpl in Hs; injection Hs as <-; lia|]).
    destruct s; simpl in Hs; [injection Hs as <-; lia|discriminate].
Qed.

(** ** Address translation: the claims *)

(** C8: for a tuple address inside an enumerated block, [getTupleIndex]
    returns [(address - block base) / tuple length + block offset], the block
    offset being the map's entry for the block base, which is the block's
    enumeration index times the tuples per block; this is so from every
    coherent content [(prevAddress, prevIndex)] of the last-resolved-block
    cache, and the call leaves the resolved block in the cache. *)
Theorem slot_index_formula
    (blockSize : Z) (t : TableTupleFilter) (tuple : TableTuple)
    (i : nat) (b prevAddress prevIndex : Z) :
  blocks_aligned blockSize t -> offsets_ok t ->
  in_block blockSize t i b (address tuple) ->
  m_tupleLength t <> 0 ->
  is_uint64 (address tuple) ->
  is_uint64 ((address tuple - b) / m_tupleLength t + Z.of_nat i * m_tuplesPerBlock t) ->
  cache_ok blockSize (set_prevBlock t prevAddress prevIndex) ->
  m_blockIndexes t !! b = Some (Z.of_nat i * m_tuplesPerBlock t) /\
  getTupleIndex blockSize (set_prevBlock t prevAddress prevIndex) tuple
  = Ok ((address tuple - b) / m_tupleLength t + Z.of_nat i * m_tuplesPerBlock t,
        set_prevBlock t b (Z.of_nat i * m_tuplesPerBlock t)).
Proof.
  intros Hal Hoff Hin Hlen Ha Hslot Hc. split; [apply Hoff, Hin|].
  rewrite (getTupleIndex_in_block blockSize (set_prevBlock t prevAddress prevIndex) tuple i b);
    try assumption.
  reflexivity.
Qed.

Lemma slot_index_formula_witness :
  blocks_aligned 64 scenario_marked /\ offsets_ok scenario_marked /\
  in_block 64 scenario_marked 1 8192 8224 /\
  cache_ok 64 (set_prevBlock scenario_marked 4096 0) /\
  m_blockIndexes scenario_marked !! 8192 = Some 4 /\
  getTupleIndex 64 (set_prevBlock scenario_marked 4096 0) {| address := 8224 |}
  = Ok (6, set_prevBlock scenario_marked 8192 4).
Proof.
  assert (in_block 64 scenario_marked 1 8192 8224) as Hin by (split; [reflexivity|lia]).
  assert (cache_ok 64 (set_prevBlock scenario_marked 4096 0)) as Hc
    by exact (scenario_marked_cache 0 4096 eq_refl).
  split; [exact scenario_marked_aligned|]. split; [exact scenario_marked_offsets|].
  split; [exact Hin|]. split; [exact Hc|].
  apply (slot_index_formula 64 scenario_marked {| address := 8224 |} 1 8192 4096 0
           scenario_marked_aligned scenario_marked_offsets Hin).
  - simpl. lia.
  - split; [vm_compute; discriminate|vm_compute; reflexivity].
  - split; [vm_compute; discriminate|vm_compute; reflexivity].
  - exact Hc.
Defined.

(** C1: the scenario's filter, as initialization leaves it, gives the tuple
    at 8224, in block 1, the slot index 6, and [getTupleAddress 6] is 8272,
    which lies in no enumerated block: the owning block is found by the
    division, but the position added to its base is the slot index less the
    block number, 5, where the position in the block is 2. *)
Theorem recovered_address_leaves_block :
  init_table 64 scenario_fresh (scenario_table 4096 8192 (scenario_active 4096 8192))
  = Ok scenario_marked /\
  in_block 64 scenario_marked 1 8192 8224 /\
  getTupleIndex 64 scenario_marked {| address := 8224 |} = Ok (6, scenario_marked) /\
  getTupleValue scenario_marked 6 = Ok ACTIVE_TUPLE /\
  getTupleAddress scenario_marked 6 = Ok 8272 /\
  8272 = 8192 + (6 - 6 / 4) * 16 /\
  forall (i : nat) (b : Z), ~ in_block 64 scenario_marked i b 8272.
Proof.
  split; [vm_compute; reflexivity|].
  split; [split; [reflexivity|lia]|].
  split; [reflexivity|]. split; [reflexivity|]. split; [reflexivity|].
  split; [reflexivity|].
  intros i b [Hb Hrange]. simpl in Hb. unfold scenario_blocks in Hb.
  destruct i as [|[|i]]; simpl in Hb; [| |discriminate]; injection Hb as <-; lia.
Qed.

(** ** Updating a marker: the claims *)

(** C5: once the tuple's slot index is resolved, [updateTuple] fails its
    assertion when the index exceeds the last active index, and when the
    slot's marker is the inactive code; when the index is at most the last
    active index and the slot's marker is not the inactive code, in a filter
    whose marked slots lie below the last active index, it does not fail. *)
Theorem update_precondition_checked
    (blockSize : Z) (t t1 : TableTupleFilter) (tuple : TableTuple) (marker idx : Z) :
  getTupleIndex blockSize t tuple = Ok (idx, t1) ->
  (m_lastActiveTupleIndex t < idx ->
   updateTuple blockSize t tuple marker = Fail AssertionFailed) /\
  (getTupleValue t idx = Ok INACTIVE_TUPLE ->
   updateTuple blockSize t tuple marker = Fail AssertionFailed) /\
  (markers_ok t ->
   idx <= m_lastActiveTupleIndex t ->
   (exists v, getTupleValue t idx = Ok v /\ v <> INACTIVE_TUPLE) ->
   exists t', updateTuple blockSize t tuple marker = Ok (idx, t')).
Proof.
  intros Hidx. rewrite (updateTuple_resolved blockSize t t1 tuple marker idx Hidx).
  split; [|split].
  - intros Hgt. rewrite (proj2 (Z.leb_gt _ _)) by lia. reflexivity.
  - intros Hv. apply getTupleValue_lookup in Hv as [_ Hv]. rewrite Hv.
    destruct ((idx <=? m_lastActiveTupleIndex t)
              && negb (m_lastActiveTupleIndex t =? INVALID_INDEX)); reflexivity.
  - intros [_ Hbelow] Hle (v & Hv & Hne).
    apply getTupleValue_lookup in Hv as [_ Hv].
    destruct (Hbelow _ _ Hv Hne) as [Hlast _].
    rewrite (proj2 (Z.leb_le _ _)) by lia.
    rewrite (proj2 (Z.eqb_neq _ _)) by exact Hlast. simpl. rewrite Hv.
    rewrite (proj2 (Z.eqb_neq _ _)) by exact Hne. eauto.
Qed.

Lemma update_precondition_checked_witness :
  getTupleIndex 64 scenario_marked {| address := 4112 |}
  = Ok (1, set_prevBlock scenario_marked 4096 0) /\
  (m_lastActiveTupleIndex scenario_marked < 1 ->
   updateTuple 64 scenario_marked {| address := 4112 |} 5 = Fail AssertionFailed) /\
  (getTupleValue scenario_marked 1 = Ok INACTIVE_TUPLE ->
   updateTuple 64 scenario_marked {| address := 4112 |} 5 = Fail AssertionFailed) /\
  (markers_ok scenario_marked ->
   1 <= m_lastActiveTupleIndex scenario_marked ->
   (exists v, getTupleValue scenario_marked 1 = Ok v /\ v <> INACTIVE_TUPLE) ->
   exists t', updateTuple 64 scenario_marked {| address := 4112 |} 5 = Ok (1, t')).
Proof.
  split; [reflexivity|].
  apply (update_precondition_checked 64 scenario_marked
           (set_prevBlock scenario_marked 4096 0) {| address := 4112 |} 5 1).
  reflexivity.
Defined.

(** C6: for a tuple that satisfies the update precondition and every code,
    [updateTuple] returns the tuple's slot index and stores the code at that
    slot, so that [getTupleValue] of the slot returns the code; the marker of
    every other slot, the blocks, the address-to-offset map, the tuples per
    block, the tuple length and the last active index are unchanged. *)
Theorem update_sets_only_resolved_slot
    (blockSize : Z) (t t1 : TableTupleFilter) (tuple : TableTuple) (marker idx : Z) :
  getTupleIndex blockSize t tuple = Ok (idx, t1) ->
  markers_ok t ->
  idx <= m_lastActiveTupleIndex t ->
  (exists v, getTupleValue t idx = Ok v /\ v <> INACTIVE_TUPLE) ->
  exists t',
    updateTuple blockSize t tuple marker = Ok (idx, t') /\
    m_tuples t' = <[Z.to_nat idx := marker]> (m_tuples t) /\
    getTupleValue t' idx = Ok marker /\
    (forall s, s <> idx -> getTupleValue t' s = getTupleValue t s) /\
    m_blocks t' = m_blocks t /\
    m_blockIndexes t' = m_blockIndexes t /\
    m_tuplesPerBlock t' = m_tuplesPerBlock t /\
    m_tupleLength t' = m_tupleLength t /\
    m_lastActiveTupleIndex t' = m_lastActiveTupleIndex t.
Proof.
  intros Hidx [_ Hbelow] Hle (v & Hv & Hne).
  apply getTupleValue_lookup in Hv as [H0 Hv].
  destruct (Hbelow _ _ Hv Hne) as [Hlast _].
  exists (set_tuples t1 (<[Z.to_nat idx := marker]> (m_tuples t))).
  split.
  - rewrite (updateTuple_resolved blockSize t t1 tuple marker idx Hidx).
    rewrite (proj2 (Z.leb_le _ _)) by lia.
    rewrite (proj2 (Z.eqb_neq _ _)) by exact Hlast. simpl. rewrite Hv.
    rewrite (proj2 (Z.eqb_neq _ _)) by exact Hne. reflexivity.
  - destruct (getTupleIndex_frame blockSize t t1 tuple idx Hidx) as [_ (pa & pi & ->)].
    split; [reflexivity|].
    split; [eapply getTupleValue_set_tuples_same; eassumption|].
    split; [intros s Hs; apply getTupleValue_set_tuples_other; assumption|].
    repeat split.
Qed.

Lemma update_sets_only_resolved_slot_witness :
  getTupleIndex 64 scenario_marked {| address := 4112 |}
  = Ok (1, set_prevBlock scenario_marked 4096 0) /\
  markers_ok scenario_marked /\
  1 <= m_lastActiveTupleIndex scenario_marked /\
  (exists v, getTupleValue scenario_marked 1 = Ok v /\ v <> INACTIVE_TUPLE) /\
  exists t',
    updateTuple 64 scenario_marked {| address := 4112 |} 5 = Ok (1, t') /\
    m_tuples t' = <[Z.to_nat 1 := 5]> (m_tuples scenario_marked) /\
    getTupleValue t' 1 = Ok 5 /\
    (forall s, s <> 1 -> getTupleValue t' s = getTupleValue scenario_marked s) /\
    m_blocks t' = m_blocks scenario_marked /\
    m_blockIndexes t' = m_blockIndexes scenario_marked /\
    m_tuplesPerBlock t' = m_tuplesPerBlock scenario_marked /\
    m_tupleLength t' = m_tupleLength scenario_marked /\
    m_lastActiveTupleIndex t' = m_lastActiveTupleIndex scenario_marked.
Proof.
  assert (exists v, getTupleValue scenario_marked 1 = Ok v /\ v <> INACTIVE_TUPLE) as Hv
    by (exists ACTIVE_TUPLE; split; [reflexivity|discriminate]).
  assert (1 <= m_lastActiveTupleIndex scenario_marked) as Hle by (simpl; lia).
  split; [reflexivity|]. split; [exact scenario_marked_ok|].
  split; [exact Hle|]. split; [exact Hv|].
  exact (update_sets_only_resolved_slot 64 scenario_marked
           (set_prevBlock scenario_marked 4096 0) {| address := 4112 |} 5 1
           eq_refl scenario_marked_ok Hle Hv).
Defined.

(** C4, as the code has it: an [updateTuple] with a code other than the
    inactive one leaves every slot whose marker is not the inactive code
    with a marker that is not the inactive code, and leaves the last active
    index as it is. *)
Theorem update_keeps_markers_active
    (blockSize : Z) (t t' : TableTupleFilter) (tuple : TableTuple) (marker idx : Z) :
  marker <> INACTIVE_TUPLE ->
  updateTuple blockSize t tuple marker = Ok (idx, t') ->
  m_lastActiveTupleIndex t' = m_lastActiveTupleIndex t /\
  forall s v,
    getTupleValue t s = Ok v -> v <> INACTIVE_TUPLE ->
    exists v', getTupleValue t' s = Ok v' /\ v' <> INACTIVE_TUPLE.
Proof.
  intros Hmarker Hup.
  destruct (updateTuple_inv blockSize t t' tuple marker idx Hup)
    as (t1 & v0 & Hidx & Hle & Hlast & Hv0 & Hne0 & ->).
  destruct (getTupleIndex_frame blockSize t t1 tuple idx Hidx) as [Hu (pa & pi & ->)].
  split; [reflexivity|]. intros s v Hv Hne. red in Hu.
  destruct (Z.eq_dec s idx) as [->|Hs].
  - exists marker. split; [|exact Hmarker].
    eapply getTupleValue_set_tuples_same; [lia|exact Hv0].
  - exists v. split; [|exact Hne].
    rewrite getTupleValue_set_tuples_other by (lia || assumption). exact Hv.
Qed.

Lemma update_keeps_markers_active_witness :
  5 <> INACTIVE_TUPLE /\
  updateTuple 64 scenario_marked {| address := 4112 |} 5
  = Ok (1, set_tuples (set_prevBlock scenario_marked 4096 0) [0; 5; -1; 0; -1; -1; 0; -1]) /\
  m_lastActiveTupleIndex
    (set_tuples (set_prevBlock scenario_marked 4096 0) [0; 5; -1; 0; -1; -1; 0; -1])
  = m_lastActiveTupleIndex scenario_marked /\
  forall s v,
    getTupleValue scenario_marked s = Ok v -> v <> INACTIVE_TUPLE ->
    exists v',
      getTupleValue
        (set_tuples (set_prevBlock scenario_marked 4096 0) [0; 5; -1; 0; -1; -1; 0; -1]) s
      = Ok v' /\ v' <> INACTIVE_TUPLE.
Proof.
  assert (5 <> INACTIVE_TUPLE) as Hm by discriminate.
  split; [exact Hm|]. split; [reflexivity|].
  exact (update_keeps_markers_active 64 scenario_marked _ {| address := 4112 |} 5 1 Hm eq_refl).
Defined.

(** C4, as stated, fails: on the scenario's filter the slot 1 is active and
    below the last active index, and [updateTuple] with the inactive code,
    which is a one-byte code, leaves it inactive. *)
Lemma update_with_inactive_code_deactivates :
  ~ (forall (marker idx : Z) (t' : TableTupleFilter),
       is_char marker ->
       updateTuple 64 scenario_marked {| address := 4112 |} marker = Ok (idx, t') ->
       forall s v,
         0 <= s <= m_lastActiveTupleIndex scenario_marked ->
         getTupleValue scenario_marked s = Ok v -> v <> INACTIVE_TUPLE ->
         exists v', getTupleValue t' s = Ok v' /\ v' <> INACTIVE_TUPLE).
Proof.
  intros H.
  destruct (H INACTIVE_TUPLE 1
              (set_tuples (set_prevBlock scenario_marked 4096 0)
                          [0; -1; -1; 0; -1; -1; 0; -1])
              ltac:(unfold is_char, INACTIVE_TUPLE; lia) eq_refl
              1 ACTIVE_TUPLE ltac:(simpl; lia) eq_refl ltac:(discriminate))
    as (v' & Hv' & Hne).
  vm_compute in Hv'. injection Hv' as <-. apply Hne. reflexivity.
Qed.

(** ** The end-to-end scenario *)

Section Scenario.

Variables blockSize b0 b1 : Z.
Hypothesis Haddr : scenario_addresses blockSize b0 b1.

Lemma scenario_state_aligned (T : list Z) (pa pi L : Z) :
  blocks_aligned blockSize (scenario_state b0 b1 T pa pi L).
Proof.
  destruct Haddr as (Hbs & _ & (H0 & H0' & H0a) & (H1 & H1' & H1a)).
  split; [lia|]. simpl. unfold is_uint64. repeat constructor; lia || assumption.
Qed.

Lemma scenario_state_offsets (T : list Z) (pa pi L : Z) :
  offsets_ok (scenario_state b0 b1 T pa pi L).
Proof.
  destruct Haddr as (_ & Hne & _).
  intros i b Hb. simpl in *. apply block_offsets_lookup; [|exact Hb].
  apply NoDup_cons. split; [|apply NoDup_singleton].
  intros Hin. apply list_elem_of_singleton in Hin. contradiction.
Qed.

(** Marking the tuple at position [k] of block number [i]. *)
Lemma scenario_step (T : list Z) (pa pi L : Z) (i : nat) (b k : Z) :
  cache_ok blockSize (scenario_state b0 b1 T pa pi L) ->
  [b0; b1] !! i = Some b ->
  0 <= k < 4 ->
  T !! Z.to_nat (k + Z.of_nat i * 4) = Some INACTIVE_TUPLE ->
  let s := k + Z.of_nat i * 4 in
  let T' := <[Z.to_nat s := ACTIVE_TUPLE]> T in
  let L' := if (L =? INVALID_INDEX) || (L <? s) then s else L in
  initActiveTuple blockSize (scenario_state b0 b1 T pa pi L) {| address := b + 16 * k |}
  = Ok (scenario_state b0 b1 T' b (Z.of_nat i * 4) L') /\
  cache_ok blockSize (scenario_state b0 b1 T' b (Z.of_nat i * 4) L').
Proof.
  intros Hc Hb Hk HT s T' L'.
  pose proof (scenario_state_aligned T pa pi L) as Hal.
  pose proof (scenario_state_offsets T pa pi L) as Hoff.
  destruct (blocks_aligned_lookup blockSize _ i b Hal Hb) as [Hbu Hba].
  assert (b + 64 <= 2 ^ 64) as Hb64.
  { destruct Haddr as (_ & _ & (? & ? & ?) & (? & ? & ?)).
    destruct i as [|[|i]]; simpl in Hb; [| |discriminate]; injection Hb as <-; lia. }
  assert (64 <= blockSize) as Hbs by apply Haddr.
  pose proof (lookup_lt_Some _ _ _ Hb) as Hi. simpl in Hi.
  assert (slot_of (scenario_state b0 b1 T pa pi L) i b (b + 16 * k) = s) as Hslot.
  { unfold slot_of. simpl. replace (b + 16 * k - b) with (k * 16) by lia.
    rewrite Z.div_mul by lia. reflexivity. }
  split.
  - unfold initActiveTuple.
    rewrite (getTupleIndex_in_block blockSize _ {| address := b + 16 * k |} i b Hal Hoff Hc);
      [|split; [exact Hb|simpl; lia]|simpl; lia|red in Hbu; red; simpl; lia
       |cbn [address]; rewrite Hslot; subst s; red; lia].
    cbn [address]. rewrite Hslot. simpl.
    rewrite (proj2 (vec_get_lookup T s INACTIVE_TUPLE)) by (split; [subst s; lia|exact HT]).
    simpl. unfold vec_set.
    pose proof (lookup_lt_Some _ _ _ HT) as Hlt.
    rewrite (proj2 (Z.leb_le 0 s)) by (subst s; lia).
    rewrite (proj2 (Z.ltb_lt s _)) by (subst s; lia). simpl.
    fold T'. subst L'. destruct ((L =? INVALID_INDEX) || (L <? s)); reflexivity.
  - apply (cache_ok_refreshed blockSize (scenario_state b0 b1 T' pa pi L') i b);
      [apply scenario_state_aligned|apply scenario_state_offsets|exact Hb].
Qed.

Lemma scenario_marks_perm (marked marked' : list nat) (T : list Z) (L : Z) :
  marked ≡ₚ marked' -> scenario_marks marked T L -> scenario_marks marked' T L.
Proof.
  intros Hp (Hlen & Hlt & Hlook & HL). split; [exact Hlen|]. split; [|split].
  - intros s Hs. apply Hlt. rewrite Hp. exact Hs.
  - intros s Hs. rewrite (Hlook s Hs). f_equal. apply decide_ext. rewrite Hp. reflexivity.
  - destruct HL as [[-> ->]|(H0 & Hin & Hmax)].
    + left. split; [|reflexivity]. apply Permutation_nil_l in Hp. symmetry. exact Hp.
    + right. split; [exact H0|]. split; [rewrite <- Hp; exact Hin|].
      intros s Hs. apply Hmax. rewrite Hp. exact Hs.
Qed.

(** Marking one more slot. *)
Lemma scenario_marks_step (marked : list nat) (T : list Z) (L s : Z) :
  scenario_marks marked T L -> 0 <= s < 8 -> Z.to_nat s ∉ marked ->
  scenario_marks (Z.to_nat s :: marked) (<[Z.to_nat s := ACTIVE_TUPLE]> T)
                 (if (L =? INVALID_INDEX) || (L <? s) then s else L).
Proof.
  intros (Hlen & Hlt & Hlook & HL) Hs Hnew.
  split; [rewrite length_insert; exact Hlen|]. split; [|split].
  - intros s' Hs'. apply elem_of_cons in Hs' as [->|Hs']; [lia|apply Hlt; exact Hs'].
  - intros s' Hs'. destruct (decide (s' = Z.to_nat s)) as [->|Hne].
    + rewrite list_lookup_insert_eq by lia.
      rewrite decide_True by (apply elem_of_cons; left; reflexivity). reflexivity.
    + rewrite list_lookup_insert_ne by congruence. rewrite (Hlook s' Hs').
      f_equal. apply decide_ext. rewrite elem_of_cons. tauto.
  - right. destruct HL as [[-> ->]|(H0 & Hin & Hmax)].
    + rewrite Z.eqb_refl. simpl. split; [lia|]. split; [apply elem_of_cons; left; reflexivity|].
      intros s' Hs'. apply list_elem_of_singleton in Hs'. lia.
    + assert (L <> INVALID_INDEX) as Hne.
      { pose proof (Hlt _ Hin). unfold INVALID_INDEX. lia. }
      rewrite (proj2 (Z.eqb_neq _ _)) by exact Hne. simpl.
      destruct (Z.ltb_spec L s) as [Hls|Hls].
      * split; [lia|]. split; [apply elem_of_cons; left; reflexivity|].
        intros s' Hs'. apply elem_of_cons in Hs' as [->|Hs']; [lia|].
        pose proof (Hmax s' Hs'). lia.
      * split; [exact H0|]. split; [apply elem_of_cons; right; exact Hin|].
        intros s' Hs'. apply elem_of_cons in Hs' as [->|Hs']; [lia|apply Hmax; exact Hs'].
Qed.

(** Marking the tuples at the positions [pos], none of them marked yet. *)
Lemma scenario_mark_all (pos : list (nat * Z)) :
  forall (marked : list nat) (T : list Z) (pa pi L : Z),
    cache_ok blockSize (scenario_state b0 b1 T pa pi L) ->
    scenario_marks marked T L ->
    Forall (fun p => (fst p < 2)%nat /\ 0 <= snd p < 4) pos ->
    NoDup (map position_slot pos ++ marked) ->
    exists T' pa' pi' L',
      initActiveTuples blockSize (scenario_state b0 b1 T pa pi L)
                       (map (position_tuple b0 b1) pos)
      = Ok (scenario_state b0 b1 T' pa' pi' L') /\
      cache_ok blockSize (scenario_state b0 b1 T' pa' pi' L') /\
      scenario_marks (map position_slot pos ++ marked) T' L'.
Proof.
  induction pos as [|[i k] pos IH]; intros marked T pa pi L Hc Hm Hpos Hnd.
  - simpl. eauto 10.
  - apply Forall_cons in Hpos as [[Hi Hk] Hpos]. simpl in Hi, Hk.
    simpl in Hnd. apply NoDup_cons in Hnd as [Hnew Hnd].
    set (s := k + Z.of_nat i * 4) in *.
    assert (0 <= s < 8) as Hs by (subst s; lia).
    assert (Z.to_nat s ∉ marked) as Hfresh.
    { intros Hin. apply Hnew. apply elem_of_app. right. exact Hin. }
    destruct Hm as (Hlen & Hlt & Hlook & HL).
    assert (T !! Z.to_nat s = Some INACTIVE_TUPLE) as HT.
    { rewrite Hlook by lia. rewrite decide_False by exact Hfresh. reflexivity. }
    assert ([b0; b1] !! i = Some (match i with O => b0 | S _ => b1 end)) as Hb.
    { destruct i as [|[|i]]; [reflexivity|reflexivity|lia]. }
    destruct (scenario_step T pa pi L i _ k Hc Hb Hk HT) as [Hstep Hc'].
    fold s in Hstep, Hc'.
    pose proof (scenario_marks_step marked T L s
                  (conj Hlen (conj Hlt (conj Hlook HL))) Hs Hfresh) as Hm'.
    destruct (IH (Z.to_nat s :: marked) _ _ _ _ Hc' Hm' Hpos) as (T' & pa' & pi' & L' & Hrun & Hc'' & Hm'').
    { eapply NoDup_Permutation_proper; [|apply NoDup_cons; split; [exact Hnew|exact Hnd]].
      symmetry. apply Permutation_middle. }
    exists T', pa', pi', L'. split; [|split; [exact Hc''|]].
    + cbn [map initActiveTuples].
      change (position_tuple b0 b1 (i, k))
        with {| address := match i with O => b0 | S _ => b1 end + 16 * k |}.
      rewrite Hstep. exact Hrun.
    + eapply scenario_marks_perm; [|exact Hm'']. symmetry. apply Permutation_middle.
Qed.

(** Whatever the order in which the table reports its four active tuples,
    initialization ends in the same markers and the same last active
    index. *)
Lemma scenario_initialized (t0 : TableTupleFilter) (tuples : list TableTuple) :
  cache_ok blockSize (init t0 [b0; b1] 4 16) ->
  tuples ≡ₚ scenario_active b0 b1 ->
  exists pa pi,
    init_table blockSize t0 (scenario_table b0 b1 tuples)
    = Ok (scenario_state b0 b1 [0; 0; -1; 0; -1; -1; 0; -1] pa pi 6) /\
    cache_ok blockSize (scenario_state b0 b1 [0; 0; -1; 0; -1; -1; 0; -1] pa pi 6).
Proof.
  intros Hc0 Hperm.
  assert (scenario_active b0 b1 = map (position_tuple b0 b1) scenario_positions) as Hcanon.
  { unfold scenario_active, scenario_positions, position_tuple. simpl.
    repeat f_equal; lia. }
  rewrite Hcanon in Hperm.
  destruct (Permutation_map_inv _ _ Hperm) as (pos & -> & Hpos).
  assert (map position_slot pos ≡ₚ [0; 1; 3; 6]%nat) as Hslots.
  { rewrite <- Hpos. reflexivity. }
  destruct (scenario_mark_all pos [] (replicate 8 INACTIVE_TUPLE)
              (m_prevBlockAddress t0) (m_prevBlockIndex t0) INVALID_INDEX)
    as (T' & pa' & pi' & L' & Hrun & Hc' & Hm').
  - exact Hc0.
  - split; [reflexivity|]. split; [intros s Hs; inversion Hs|]. split.
    + intros s Hs. rewrite decide_False by (intros Hin; inversion Hin).
      apply lookup_replicate. split; [reflexivity|exact Hs].
    + left. split; reflexivity.
  - rewrite <- Hpos. unfold scenario_positions. repeat constructor; simpl; lia.
  - rewrite app_nil_r, Hslots. apply (bool_decide_unpack _). reflexivity.
  - rewrite app_nil_r in Hm'. apply (scenario_marks_perm _ _ _ _ Hslots) in Hm'.
    destruct Hm' as (Hlen & _ & Hlook & HL).
    assert (T' = [0; 0; -1; 0; -1; -1; 0; -1]) as ->.
    { apply list_eq. intros s. destruct (le_lt_dec 8 s) as [Hge|Hlt].
      - rewrite lookup_ge_None_2 by lia. symmetry. apply lookup_ge_None_2. simpl. lia.
      - rewrite Hlook by exact Hlt.
        do 8 (destruct s as [|s]; [reflexivity|]). lia. }
    assert (L' = 6) as ->.
    { destruct HL as [[Hnil _]|(H0 & Hin & Hmax)]; [discriminate|].
      pose proof (Hmax 6%nat ltac:(repeat constructor)) as H6.
      rewrite !elem_of_cons, elem_of_nil in Hin. lia. }
    exists pa', pi'. split; [|exact Hc'].
    unfold init_table, scenario_table. simpl. exact Hrun.
Qed.

End Scenario.

Lemma scenario_iterate (b0 b1 MARKER this : Z) (fuel : nat) (T : list Z) (pa pi : Z) :
  (6 < length T)%nat -> (8 <= fuel)%nat ->
  iterate fuel this MARKER (scenario_state b0 b1 T pa pi 6)
  = Ok (matching MARKER (scenario_state b0 b1 T pa pi 6) 0 7,
        end_ this MARKER (scenario_state b0 b1 T pa pi 6)).
Proof.
  intros HT Hfuel.
  apply (iterate_nonempty MARKER (scenario_state b0 b1 T pa pi 6) this fuel).
  - split; simpl; lia.
  - discriminate.
  - unfold m_tuples_size. simpl. lia.
  - simpl. lia.
Qed.

(** C3: in the scenario of two blocks of four tuples of sixteen bytes, with
    active tuples at the positions 0, 1 and 3 of the first block and 2 of the
    second, reported by the table in any order, initialization leaves the
    last active index at 6 and an iteration over the active marker visits
    0, 1, 3, 6 in that order; updating the tuple of slot 1 with the code 5
    returns 1, after which an iteration over 5 visits 1 alone and an
    iteration over the active marker visits 0, 3, 6. *)
Theorem scenario_end_to_end
    (blockSize b0 b1 this : Z) (t0 : TableTupleFilter) (tuples : list TableTuple)
    (fuel : nat) :
  scenario_addresses blockSize b0 b1 ->
  cache_ok blockSize (init t0 [b0; b1] 4 16) ->
  tuples ≡ₚ scenario_active b0 b1 ->
  (8 <= fuel)%nat ->
  exists t t',
    init_table blockSize t0 (scenario_table b0 b1 tuples) = Ok t /\
    m_lastActiveTupleIndex t = 6 /\
    iterate fuel this ACTIVE_TUPLE t = Ok ([0; 1; 3; 6], end_ this ACTIVE_TUPLE t) /\
    updateTuple blockSize t {| address := b0 + 16 |} 5 = Ok (1, t') /\
    iterate fuel this 5 t' = Ok ([1], end_ this 5 t') /\
    iterate fuel this ACTIVE_TUPLE t' = Ok ([0; 3; 6], end_ this ACTIVE_TUPLE t').
Proof.
  intros Haddr Hc0 Hperm Hfuel.
  destruct (scenario_initialized blockSize b0 b1 Haddr t0 tuples Hc0 Hperm)
    as (pa & pi & Hinit & Hc).
  set (t := scenario_state b0 b1 [0; 0; -1; 0; -1; -1; 0; -1] pa pi 6) in *.
  set (t' := scenario_state b0 b1 [0; 5; -1; 0; -1; -1; 0; -1] b0 0 6).
  exists t, t'. split; [exact Hinit|]. split; [reflexivity|]. split; [|split; [|split]].
  - exact (scenario_iterate b0 b1 ACTIVE_TUPLE this fuel [0; 0; -1; 0; -1; -1; 0; -1] pa pi
             ltac:(simpl; lia) Hfuel).
  - pose proof (scenario_state_aligned blockSize b0 b1 Haddr
                  [0; 0; -1; 0; -1; -1; 0; -1] pa pi 6) as Hal.
    pose proof (scenario_state_offsets blockSize b0 b1 Haddr
                  [0; 0; -1; 0; -1; -1; 0; -1] pa pi 6) as Hoff.
    destruct Haddr as (Hbs & _ & (H0 & H0' & _) & _).
    rewrite (updateTuple_resolved blockSize t (set_prevBlock t b0 0) {| address := b0 + 16 |} 5 1);
      [reflexivity|].
    rewrite (getTupleIndex_in_block blockSize t {| address := b0 + 16 |} 0%nat b0 Hal Hoff Hc);
      [|split; [reflexivity|simpl; lia]|simpl; lia|red; simpl; lia|].
    + unfold slot_of. cbn [address]. simpl m_tupleLength.
      replace (b0 + 16 - b0) with (1 * 16) by lia. rewrite Z.div_mul by lia. reflexivity.
    + unfold slot_of. cbn [address]. simpl m_tupleLength.
      replace (b0 + 16 - b0) with (1 * 16) by lia. rewrite Z.div_mul by lia.
      red. simpl. lia.
  - exact (scenario_iterate b0 b1 5 this fuel [0; 5; -1; 0; -1; -1; 0; -1] b0 0
             ltac:(simpl; lia) Hfuel).
  - exact (scenario_iterate b0 b1 ACTIVE_TUPLE this fuel [0; 5; -1; 0; -1; -1; 0; -1] b0 0
             ltac:(simpl; lia) Hfuel).
Qed.

Lemma scenario_end_to_end_witness :
  scenario_addresses 64 4096 8192 /\
  cache_ok 64 (init scenario_fresh [4096; 8192] 4 16) /\
  scenario_active 4096 8192 ≡ₚ scenario_active 4096 8192 /\
  exists t t',
    init_table 64 scenario_fresh (scenario_table 4096 8192 (scenario_active 4096 8192))
    = Ok t /\
    m_lastActiveTupleIndex t = 6 /\
    iterate 8 0 ACTIVE_TUPLE t = Ok ([0; 1; 3; 6], end_ 0 ACTIVE_TUPLE t) /\
    updateTuple 64 t {| address := 4096 + 16 |} 5 = Ok (1, t') /\
    iterate 8 0 5 t' = Ok ([1], end_ 0 5 t') /\
    iterate 8 0 ACTIVE_TUPLE t' = Ok ([0; 3; 6], end_ 0 ACTIVE_TUPLE t').
Proof.
  assert (scenario_addresses 64 4096 8192) as Ha.
  { unfold scenario_addresses. repeat split; try lia; try discriminate; reflexivity. }
  assert (cache_ok 64 (init scenario_fresh [4096; 8192] 4 16)) as Hc.
  { split; [reflexivity|]. intros offset Hoff. vm_compute in Hoff. discriminate. }
  split; [exact Ha|]. split; [exact Hc|]. split; [reflexivity|].
  apply (scenario_end_to_end 64 4096 8192 0 scenario_fresh (scenario_active 4096 8192) 8
           Ha Hc (reflexivity _)). lia.
Defined.


(** * Further properties of the filter *)

Section ResolutionFacts.

Variable blockSize : Z.

(** Resolving the same address again hits the cache and changes nothing. *)
Lemma getTupleIndex_again (t t1 : TableTupleFilter) (tuple : TableTuple) (idx : Z) :
  0 < blockSize ->
  getTupleIndex blockSize t tuple = Ok (idx, t1) ->
  getTupleIndex blockSize t1 tuple = Ok (idx, t1).
Proof.
  intros Hbs. unfold getTupleIndex, findBlockIndex.
  destruct ((m_prevBlockAddress t <=? address tuple)
            && (address tuple <? m_prevBlockAddress t + blockSize)) eqn:Hhit.
  - simpl. destruct (m_tupleLength t =? 0) eqn:Hlen; [discriminate|].
    intros [= <- <-]. rewrite Hhit. simpl. rewrite Hlen. reflexivity.
  - simpl.
    destruct (m_blockIndexes t !! (address tuple - address tuple mod blockSize))
      as [off|] eqn:Hm; [|discriminate].
    simpl. destruct (m_tupleLength t =? 0) eqn:Hlen; [discriminate|].
    intros [= <- <-]. simpl.
    pose proof (Z.mod_pos_bound (address tuple) blockSize Hbs) as Hmod.
    rewrite (proj2 (Z.leb_le _ _)) by lia.
    rewrite (proj2 (Z.ltb_lt _ _)) by lia. simpl. rewrite Hlen. reflexivity.
Qed.

(** The markers and the last active index play no part in a resolution. *)
Lemma getTupleIndex_set_tuples (t t1 : TableTupleFilter) (tuple : TableTuple)
    (idx : Z) (T : list Z) :
  getTupleIndex blockSize t tuple = Ok (idx, t1) ->
  getTupleIndex blockSize (set_tuples t T) tuple = Ok (idx, set_tuples t1 T).
Proof.
  unfold getTupleIndex, findBlockIndex. simpl.
  destruct ((m_prevBlockAddress t <=? address tuple)
            && (address tuple <? m_prevBlockAddress t + blockSize)).
  - simpl. destruct (m_tupleLength t =? 0); [discriminate|]. intros [= <- <-]. reflexivity.
  - destruct (m_blockIndexes t !! (address tuple - address tuple mod blockSize));
      [|discriminate].
    simpl. destruct (m_tupleLength t =? 0); [discriminate|]. intros [= <- <-]. reflexivity.
Qed.

Lemma getTupleIndex_set_last (t t1 : TableTupleFilter) (tuple : TableTuple) (idx L : Z) :
  getTupleIndex blockSize t tuple = Ok (idx, t1) ->
  getTupleIndex blockSize (set_lastActiveTupleIndex t L) tuple
  = Ok (idx, set_lastActiveTupleIndex t1 L).
Proof.
  unfold getTupleIndex, findBlockIndex. simpl.
  destruct ((m_prevBlockAddress t <=? address tuple)
            && (address tuple <? m_prevBlockAddress t + blockSize)).
  - simpl. destruct (m_tupleLength t =? 0); [discriminate|]. intros [= <- <-]. reflexivity.
  - destruct (m_blockIndexes t !! (address tuple - address tuple mod blockSize));
      [|discriminate].
    simpl. destruct (m_tupleLength t =? 0); [discriminate|]. intros [= <- <-]. reflexivity.
Qed.

(** What [initActiveTuple] does once the tuple's index is resolved. *)
Lemma initActiveTuple_resolved (t t1 : TableTupleFilter) (tuple : TableTuple) (idx : Z) :
  getTupleIndex blockSize t tuple = Ok (idx, t1) ->
  initActiveTuple blockSize t tuple =
  match m_tuples t !! Z.to_nat idx with
  | Some v =>
      if v =? INACTIVE_TUPLE then
        let t2 := set_tuples t1 (<[Z.to_nat idx := ACTIVE_TUPLE]> (m_tuples t)) in
        if (m_lastActiveTupleIndex t =? INVALID_INDEX) || (m_lastActiveTupleIndex t <? idx)
        then Ok (set_lastActiveTupleIndex t2 idx)
        else Ok t2
      else Fail AssertionFailed
  | None => Fail OutOfBounds
  end.
Proof.
  intros Hidx. unfold initActiveTuple. rewrite Hidx. simpl.
  destruct (getTupleIndex_frame blockSize t t1 tuple idx Hidx) as [Hu (pa & pi & ->)].
  simpl. unfold vec_get, vec_set. red in Hu.
  rewrite (proj2 (Z.leb_le 0 idx)) by lia. simpl.
  destruct (m_tuples t !! Z.to_nat idx) as [v|] eqn:Hv.
  - pose proof (lookup_lt_Some _ _ _ Hv) as Hlt.
    rewrite (proj2 (Z.ltb_lt idx _)) by lia. simpl.
    destruct (v =? INACTIVE_TUPLE); reflexivity.
  - destruct (idx <? Z.of_nat (length (m_tuples t))); reflexivity.
Qed.

End ResolutionFacts.

(** ** Marking a tuple active *)

(** X1: [initActiveTuple] on a tuple whose slot is inactive sets that slot,
    and no other, to the active code; the last active index becomes the
    slot index when the filter was empty and otherwise the larger of the
    two; the size of the marker array, the blocks, the offsets and the
    geometry are unchanged. *)
Theorem initActiveTuple_marks_slot
    (blockSize : Z) (t t1 : TableTupleFilter) (tuple : TableTuple) (idx : Z) :
  getTupleIndex blockSize t tuple = Ok (idx, t1) ->
  getTupleValue t idx = Ok INACTIVE_TUPLE ->
  exists t',
    initActiveTuple blockSize t tuple = Ok t' /\
    getTupleValue t' idx = Ok ACTIVE_TUPLE /\
    (forall s, s <> idx -> getTupleValue t' s = getTupleValue t s) /\
    m_lastActiveTupleIndex t'
    = (if empty t then idx else Z.max (m_lastActiveTupleIndex t) idx) /\
    m_tuples_size t' = m_tuples_size t /\
    m_blocks t' = m_blocks t /\
    m_blockIndexes t' = m_blockIndexes t /\
    m_tuplesPerBlock t' = m_tuplesPerBlock t /\
    m_tupleLength t' = m_tupleLength t.
Proof.
  intros Hidx Hv. apply getTupleValue_lookup in Hv as [H0 Hv].
  rewrite (initActiveTuple_resolved blockSize t t1 tuple idx Hidx), Hv. simpl.
  destruct (getTupleIndex_frame blockSize t t1 tuple idx Hidx) as [_ (pa & pi & ->)].
  unfold empty.
  destruct (Z.eqb_spec (m_lastActiveTupleIndex t) INVALID_INDEX) as [Hemp|Hne]; simpl.
  - eexists. split; [reflexivity|].
    split; [exact (getTupleValue_set_tuples_same _ t idx ACTIVE_TUPLE _ H0 Hv)|].
    split; [intros s Hs; exact (getTupleValue_set_tuples_other _ t idx ACTIVE_TUPLE s H0 Hs)|].
    split; [reflexivity|].
    split; [unfold m_tuples_size; simpl; rewrite length_insert; reflexivity|].
    repeat split.
  - destruct (Z.ltb_spec (m_lastActiveTupleIndex t) idx) as [Hlt|Hge].
    + eexists. split; [reflexivity|].
      split; [exact (getTupleValue_set_tuples_same _ t idx ACTIVE_TUPLE _ H0 Hv)|].
      split; [intros s Hs; exact (getTupleValue_set_tuples_other _ t idx ACTIVE_TUPLE s H0 Hs)|].
      split; [simpl; lia|].
      split; [unfold m_tuples_size; simpl; rewrite length_insert; reflexivity|].
      repeat split.
    + eexists. split; [reflexivity|].
      split; [exact (getTupleValue_set_tuples_same _ t idx ACTIVE_TUPLE _ H0 Hv)|].
      split; [intros s Hs; exact (getTupleValue_set_tuples_other _ t idx ACTIVE_TUPLE s H0 Hs)|].
      split; [simpl; lia|].
      split; [unfold m_tuples_size; simpl; rewrite length_insert; reflexivity|].
      repeat split.
Qed.

Lemma initActiveTuple_marks_slot_witness :
  getTupleIndex 64 scenario_unmarked {| address := 8224 |}
  = Ok (6, set_prevBlock scenario_unmarked 8192 4) /\
  getTupleValue scenario_unmarked 6 = Ok INACTIVE_TUPLE /\
  exists t',
    initActiveTuple 64 scenario_unmarked {| address := 8224 |} = Ok t' /\
    getTupleValue t' 6 = Ok ACTIVE_TUPLE /\
    (forall s, s <> 6 -> getTupleValue t' s = getTupleValue scenario_unmarked s) /\
    m_lastActiveTupleIndex t'
    = (if empty scenario_unmarked then 6
       else Z.max (m_lastActiveTupleIndex scenario_unmarked) 6) /\
    m_tuples_size t' = m_tuples_size scenario_unmarked /\
    m_blocks t' = m_blocks scenario_unmarked /\
    m_blockIndexes t' = m_blockIndexes scenario_unmarked /\
    m_tuplesPerBlock t' = m_tuplesPerBlock scenario_unmarked /\
    m_tupleLength t' = m_tupleLength scenario_unmarked.
Proof.
  split; [reflexivity|]. split; [reflexivity|].
  exact (initActiveTuple_marks_slot 64 scenario_unmarked _ {| address := 8224 |} 6
           eq_refl eq_refl).
Defined.

Lemma initActiveTuple_inv (blockSize : Z) (t t' : TableTupleFilter) (tuple : TableTuple) :
  initActiveTuple blockSize t tuple = Ok t' ->
  exists idx t1,
    getTupleIndex blockSize t tuple = Ok (idx, t1) /\
    m_tuples t !! Z.to_nat idx = Some INACTIVE_TUPLE /\
    (t' = set_lastActiveTupleIndex
            (set_tuples t1 (<[Z.to_nat idx := ACTIVE_TUPLE]> (m_tuples t))) idx \/
     t' = set_tuples t1 (<[Z.to_nat idx := ACTIVE_TUPLE]> (m_tuples t))).
Proof.
  intros Hinit.
  destruct (getTupleIndex blockSize t tuple) as [[idx t1]|e] eqn:Hidx;
    [|unfold initActiveTuple in Hinit; rewrite Hidx in Hinit; discriminate].
  rewrite (initActiveTuple_resolved blockSize t t1 tuple idx Hidx) in Hinit.
  destruct (m_tuples t !! Z.to_nat idx) as [v|] eqn:Hv; [|discriminate].
  destruct (Z.eqb_spec v INACTIVE_TUPLE) as [->|]; [|discriminate].
  exists idx, t1. split; [reflexivity|]. split; [exact Hv|].
  simpl in Hinit.
  destruct ((m_lastActiveTupleIndex t =? INVALID_INDEX) || (m_lastActiveTupleIndex t <? idx));
    injection Hinit as <-; [left|right]; reflexivity.
Qed.

(** X2: a tuple can be marked active once only: after a successful
    [initActiveTuple], a second [initActiveTuple] on the same tuple fails
    the assertion that its slot is still inactive. *)
Theorem initActiveTuple_twice_fails
    (blockSize : Z) (t t' : TableTupleFilter) (tuple : TableTuple) :
  0 < blockSize ->
  initActiveTuple blockSize t tuple = Ok t' ->
  initActiveTuple blockSize t' tuple = Fail AssertionFailed.
Proof.
  intros Hbs Hinit.
  destruct (initActiveTuple_inv blockSize t t' tuple Hinit) as (idx & t1 & Hidx & Hv & Ht').
  pose proof (getTupleIndex_again blockSize t t1 tuple idx Hbs Hidx) as Hagain.
  pose proof (lookup_lt_Some _ _ _ Hv) as Hlt.
  pose proof (getTupleIndex_set_tuples blockSize t1 t1 tuple idx
                (<[Z.to_nat idx := ACTIVE_TUPLE]> (m_tuples t)) Hagain) as Hset.
  destruct Ht' as [-> | ->].
  - rewrite (initActiveTuple_resolved blockSize _ _ tuple idx
               (getTupleIndex_set_last blockSize _ _ tuple idx idx Hset)).
    simpl. rewrite list_lookup_insert_eq by exact Hlt. reflexivity.
  - rewrite (initActiveTuple_resolved blockSize _ _ tuple idx Hset).
    simpl. rewrite list_lookup_insert_eq by exact Hlt. reflexivity.
Qed.

Lemma initActiveTuple_twice_fails_witness :
  0 < 64 /\
  initActiveTuple 64 scenario_unmarked {| address := 8224 |}
  = Ok (set_lastActiveTupleIndex
          (set_tuples (set_prevBlock scenario_unmarked 8192 4)
                      [-1; -1; -1; -1; -1; -1; 0; -1]) 6) /\
  initActiveTuple 64
    (set_lastActiveTupleIndex
       (set_tuples (set_prevBlock scenario_unmarked 8192 4)
                   [-1; -1; -1; -1; -1; -1; 0; -1]) 6)
    {| address := 8224 |}
  = Fail AssertionFailed.
Proof.
  assert (0 < 64) as Hbs by lia.
  split; [exact Hbs|]. split; [reflexivity|].
  exact (initActiveTuple_twice_fails 64 scenario_unmarked _ {| address := 8224 |} Hbs eq_refl).
Defined.

(** ** Updating, again *)

(** X3: [updateTuple] never succeeds on an empty filter: whatever the tuple
    and the code, it fails, and when the tuple's index resolves it is the
    assertion on the last active index that fails. *)
Theorem updateTuple_empty_fails
    (blockSize : Z) (t : TableTupleFilter) (tuple : TableTuple) (marker : Z) :
  empty t = true ->
  (exists e, updateTuple blockSize t tuple marker = Fail e) /\
  (forall idx t1,
     getTupleIndex blockSize t tuple = Ok (idx, t1) ->
     updateTuple blockSize t tuple marker = Fail AssertionFailed).
Proof.
  intros He. unfold empty in He.
  assert (forall idx t1,
            getTupleIndex blockSize t tuple = Ok (idx, t1) ->
            updateTuple blockSize t tuple marker = Fail AssertionFailed) as Hres.
  { intros idx t1 Hidx.
    rewrite (updateTuple_resolved blockSize t t1 tuple marker idx Hidx).
    rewrite He, andb_false_r. reflexivity. }
  split; [|exact Hres].
  destruct (getTupleIndex blockSize t tuple) as [[idx t1]|e] eqn:Hidx.
  - exists AssertionFailed. eapply Hres. reflexivity.
  - exists e. unfold updateTuple. rewrite Hidx. reflexivity.
Qed.

Lemma updateTuple_empty_fails_witness :
  empty scenario_unmarked = true /\
  (exists e, updateTuple 64 scenario_unmarked {| address := 4112 |} 5 = Fail e) /\
  (forall idx t1,
     getTupleIndex 64 scenario_unmarked {| address := 4112 |} = Ok (idx, t1) ->
     updateTuple 64 scenario_unmarked {| address := 4112 |} 5 = Fail AssertionFailed).
Proof.
  split; [reflexivity|].
  exact (updateTuple_empty_fails 64 scenario_unmarked {| address := 4112 |} 5 eq_refl).
Defined.

Lemma updateTuple_again (blockSize : Z) (t t' : TableTupleFilter) (tuple : TableTuple)
    (marker idx : Z) :
  0 < blockSize ->
  updateTuple blockSize t tuple marker = Ok (idx, t') ->
  getTupleIndex blockSize t' tuple = Ok (idx, t') /\
  0 <= idx <= m_lastActiveTupleIndex t' /\
  m_lastActiveTupleIndex t' <> INVALID_INDEX /\
  m_tuples t' !! Z.to_nat idx = Some marker.
Proof.
  intros Hbs Hup.
  destruct (updateTuple_inv blockSize t t' tuple marker idx Hup)
    as (t1 & v0 & Hidx & Hle & Hlast & Hv0 & Hne0 & ->).
  pose proof (getTupleIndex_again blockSize t t1 tuple idx Hbs Hidx) as Hagain.
  destruct (getTupleIndex_frame blockSize t t1 tuple idx Hidx) as [Hu (pa & pi & Ht1)].
  split; [apply getTupleIndex_set_tuples; exact Hagain|].
  subst t1. simpl. red in Hu. split; [lia|]. split; [exact Hlast|].
  apply list_lookup_insert_eq. eapply lookup_lt_Some. exact Hv0.
Qed.

(** X4: after a successful [updateTuple] with a code other than the inactive
    one, a second [updateTuple] of the same tuple succeeds for every code,
    returns the same slot index, and its code is the one the slot then
    holds. *)
Theorem updateTuple_overwrites
    (blockSize : Z) (t t' : TableTupleFilter) (tuple : TableTuple) (m1 m2 idx : Z) :
  0 < blockSize ->
  m1 <> INACTIVE_TUPLE ->
  updateTuple blockSize t tuple m1 = Ok (idx, t') ->
  exists t'',
    updateTuple blockSize t' tuple m2 = Ok (idx, t'') /\
    getTupleValue t'' idx = Ok m2 /\
    (forall s, s <> idx -> getTupleValue t'' s = getTupleValue t s).
Proof.
  intros Hbs Hm1 Hup.
  destruct (updateTuple_again blockSize t t' tuple m1 idx Hbs Hup)
    as (Hidx' & Hrange & Hlast & Hv).
  exists (set_tuples t' (<[Z.to_nat idx := m2]> (m_tuples t'))). split; [|split].
  - rewrite (updateTuple_resolved blockSize t' t' tuple m2 idx Hidx').
    rewrite (proj2 (Z.leb_le _ _)) by lia.
    rewrite (proj2 (Z.eqb_neq _ _)) by exact Hlast. simpl. rewrite Hv.
    rewrite (proj2 (Z.eqb_neq _ _)) by exact Hm1. reflexivity.
  - eapply getTupleValue_set_tuples_same; [lia|exact Hv].
  - intros s Hs. rewrite getTupleValue_set_tuples_other by (lia || assumption).
    destruct (updateTuple_inv blockSize t t' tuple m1 idx Hup)
      as (t1 & v0 & _ & _ & _ & _ & _ & ->).
    apply getTupleValue_set_tuples_other; [lia|exact Hs].
Qed.

Lemma updateTuple_overwrites_witness :
  0 < 64 /\ 5 <> INACTIVE_TUPLE /\
  updateTuple 64 scenario_marked {| address := 4112 |} 5
  = Ok (1, set_tuples (set_prevBlock scenario_marked 4096 0) [0; 5; -1; 0; -1; -1; 0; -1]) /\
  exists t'',
    updateTuple 64
      (set_tuples (set_prevBlock scenario_marked 4096 0) [0; 5; -1; 0; -1; -1; 0; -1])
      {| address := 4112 |} 7 = Ok (1, t'') /\
    getTupleValue t'' 1 = Ok 7 /\
    (forall s, s <> 1 -> getTupleValue t'' s = getTupleValue scenario_marked s).
Proof.
  assert (0 < 64) as Hbs by lia.
  assert (5 <> INACTIVE_TUPLE) as Hm by discriminate.
  split; [exact Hbs|]. split; [exact Hm|]. split; [reflexivity|].
  exact (updateTuple_overwrites 64 scenario_marked _ {| address := 4112 |} 5 7 1
           Hbs Hm eq_refl).
Defined.

(** X5: a slot that [updateTuple] was given the inactive code for is out of
    reach of [updateTuple] from then on: every later [updateTuple] of the
    same tuple fails the assertion that the slot is not inactive. *)
Theorem updateTuple_inactive_is_final
    (blockSize : Z) (t t' : TableTupleFilter) (tuple : TableTuple) (marker idx : Z) :
  0 < blockSize ->
  updateTuple blockSize t tuple INACTIVE_TUPLE = Ok (idx, t') ->
  getTupleValue t' idx = Ok INACTIVE_TUPLE /\
  updateTuple blockSize t' tuple marker = Fail AssertionFailed.
Proof.
  intros Hbs Hup.
  destruct (updateTuple_again blockSize t t' tuple INACTIVE_TUPLE idx Hbs Hup)
    as (Hidx' & Hrange & Hlast & Hv).
  split; [apply getTupleValue_lookup; split; [lia|exact Hv]|].
  rewrite (updateTuple_resolved blockSize t' t' tuple marker idx Hidx').
  rewrite (proj2 (Z.leb_le _ _)) by lia.
  rewrite (proj2 (Z.eqb_neq _ _)) by exact Hlast. simpl. rewrite Hv. reflexivity.
Qed.

Lemma updateTuple_inactive_is_final_witness :
  0 < 64 /\
  updateTuple 64 scenario_marked {| address := 4112 |} INACTIVE_TUPLE
  = Ok (1, set_tuples (set_prevBlock scenario_marked 4096 0) [0; -1; -1; 0; -1; -1; 0; -1]) /\
  getTupleValue
    (set_tuples (set_prevBlock scenario_marked 4096 0) [0; -1; -1; 0; -1; -1; 0; -1]) 1
  = Ok INACTIVE_TUPLE /\
  updateTuple 64
    (set_tuples (set_prevBlock scenario_marked 4096 0) [0; -1; -1; 0; -1; -1; 0; -1])
    {| address := 4112 |} 5
  = Fail AssertionFailed.
Proof.
  assert (0 < 64) as Hbs by lia.
  split; [exact Hbs|]. split; [reflexivity|].
  exact (updateTuple_inactive_is_final 64 scenario_marked _ {| address := 4112 |} 5 1
           Hbs eq_refl).
Defined.

(** X6: a successful [updateTuple] with the code [marker] moves the tuple's
    slot, and nothing else, between the iterations: afterwards the slot is
    visited by the iteration over [marker] and by no other, and every other
    slot is visited by the iterations that visited it before. *)
Theorem updateTuple_moves_slot_between_iterations
    (blockSize : Z) (t t' : TableTupleFilter) (tuple : TableTuple) (marker idx : Z)
    (MARKER this : Z) (fuel : nat) :
  last_ok t ->
  updateTuple blockSize t tuple marker = Ok (idx, t') ->
  (iteration_fuel t <= fuel)%nat ->
  exists before after,
    iterate fuel this MARKER t = Ok (before, end_ this MARKER t) /\
    iterate fuel this MARKER t' = Ok (after, end_ this MARKER t') /\
    forall i, i ∈ after <-> (i = idx /\ MARKER = marker) \/ (i <> idx /\ i ∈ before).
Proof.
  intros Hok Hup Hfuel.
  destruct (updateTuple_inv blockSize t t' tuple marker idx Hup)
    as (t1 & v0 & Hidx & Hle & Hlast & Hv0 & Hne0 & ->).
  destruct (getTupleIndex_frame blockSize t t1 tuple idx Hidx) as [Hu (pa & pi & ->)].
  assert (empty t = false) as He by (unfold empty; apply Z.eqb_neq; exact Hlast).
  destruct (last_ok_nonempty t Hok He) as (Hlu & _ & Hsize).
  unfold iteration_fuel in Hfuel. rewrite He in Hfuel.
  destruct (iterate_nonempty MARKER t this fuel Hlu Hlast Hsize Hfuel) as [Hbefore _].
  set (t' := set_tuples (set_prevBlock t pa pi) (<[Z.to_nat idx := marker]> (m_tuples t))).
  destruct (iterate_nonempty MARKER t' this fuel) as [Hafter _].
  { exact Hlu. }
  { exact Hlast. }
  { unfold m_tuples_size in *. simpl. rewrite length_insert. exact Hsize. }
  { exact Hfuel. }
  eexists. eexists. split; [exact Hbefore|]. split; [exact Hafter|].
  intros i. rewrite !elem_of_matching. simpl. red in Hu.
  pose proof (lookup_lt_Some _ _ _ Hv0) as Hlt.
  destruct (Z.eq_dec i idx) as [->|Hne].
  - rewrite list_lookup_insert_eq by exact Hlt. split.
    + intros [_ [= ->]]. left. split; reflexivity.
    + intros [[_ ->]|[Hcontra _]]; [|contradiction]. split; [lia|reflexivity].
  - split.
    + intros [Hr Hl]. right. split; [exact Hne|]. split; [exact Hr|].
      rewrite list_lookup_insert_ne in Hl by lia. exact Hl.
    + intros [[Hcontra _]|[_ [Hr Hl]]]; [contradiction|]. split; [exact Hr|].
      rewrite list_lookup_insert_ne by lia. exact Hl.
Qed.

Lemma updateTuple_moves_slot_between_iterations_witness :
  last_ok scenario_marked /\
  updateTuple 64 scenario_marked {| address := 4112 |} 5
  = Ok (1, set_tuples (set_prevBlock scenario_marked 4096 0) [0; 5; -1; 0; -1; -1; 0; -1]) /\
  exists before after,
    iterate 8 0 ACTIVE_TUPLE scenario_marked
    = Ok (before, end_ 0 ACTIVE_TUPLE scenario_marked) /\
    iterate 8 0 ACTIVE_TUPLE
      (set_tuples (set_prevBlock scenario_marked 4096 0) [0; 5; -1; 0; -1; -1; 0; -1])
    = Ok (after,
          end_ 0 ACTIVE_TUPLE
            (set_tuples (set_prevBlock scenario_marked 4096 0)
                        [0; 5; -1; 0; -1; -1; 0; -1])) /\
    forall i, i ∈ after <-> (i = 1 /\ ACTIVE_TUPLE = 5) \/ (i <> 1 /\ i ∈ before).
Proof.
  pose proof scenario_marked_ok as [Hok _].
  split; [exact Hok|]. split; [reflexivity|].
  apply (updateTuple_moves_slot_between_iterations 64 scenario_marked _
           {| address := 4112 |} 5 1 ACTIVE_TUPLE 0 8 Hok eq_refl).
  unfold iteration_fuel. simpl. lia.
Defined.

(** ** The iterator, again *)

(** X7: from any slot up to the last active index, [increment] moves the
    iterator strictly forward, to the next slot that carries [MARKER], or to
    the end when no later slot does; the slots it passes do not carry
    [MARKER]. *)
Theorem increment_next_match
    (MARKER : Z) (t : TableTupleFilter) (this q : Z) (fuel : nat) :
  last_ok t -> empty t = false ->
  0 <= q <= m_lastActiveTupleIndex t ->
  (iteration_fuel t <= fuel)%nat ->
  exists q',
    increment fuel MARKER t {| m_tableFilter := this; m_tupleIdx := q |}
    = Ok {| m_tableFilter := this; m_tupleIdx := q' |} /\
    q < q' <= m_lastActiveTupleIndex t + 1 /\
    (q' <= m_lastActiveTupleIndex t -> getTupleValue t q' = Ok MARKER) /\
    (forall j, q < j < q' -> getTupleValue t j <> Ok MARKER).
Proof.
  intros Hok He Hq Hfuel.
  destruct (last_ok_nonempty t Hok He) as (Hu & Hne & Hsize).
  unfold iteration_fuel in Hfuel. rewrite He in Hfuel.
  red in Hu. unfold INVALID_INDEX in Hne.
  assert (wrap64 (q + 1) = q + 1) as Hw by (apply wrap64_small; red; lia).
  unfold increment, getLastActiveTupleIndex. simpl.
  destruct (increment_loop_finds MARKER t (m_lastActiveTupleIndex t) ltac:(lia) Hsize
              (Z.to_nat (m_lastActiveTupleIndex t + 1 - wrap64 (q + 1))) fuel q)
    as (q' & Hq' & Hrange & Hm & Hnil); [rewrite Hw; lia|reflexivity|rewrite Hw; lia|].
  rewrite Hw in *. exists q'. rewrite Hq'. simpl.
  split; [reflexivity|]. split; [lia|]. split.
  - intros Hle. apply getTupleValue_lookup. split; [lia|auto].
  - intros j Hj Hv. apply getTupleValue_lookup in Hv as [_ Hv].
    assert (j ∈ matching MARKER t (q + 1) q') as Hin
      by (apply elem_of_matching; split; [lia|exact Hv]).
    rewrite Hnil in Hin. inversion Hin.
Qed.

Lemma increment_next_match_witness :
  last_ok scenario_marked /\ empty scenario_marked = false /\
  0 <= 1 <= m_lastActiveTupleIndex scenario_marked /\
  exists q',
    increment 8 ACTIVE_TUPLE scenario_marked {| m_tableFilter := 0; m_tupleIdx := 1 |}
    = Ok {| m_tableFilter := 0; m_tupleIdx := q' |} /\
    1 < q' <= m_lastActiveTupleIndex scenario_marked + 1 /\
    (q' <= m_lastActiveTupleIndex scenario_marked ->
     getTupleValue scenario_marked q' = Ok ACTIVE_TUPLE) /\
    (forall j, 1 < j < q' -> getTupleValue scenario_marked j <> Ok ACTIVE_TUPLE).
Proof.
  pose proof scenario_marked_ok as [Hok _].
  assert (0 <= 1 <= m_lastActiveTupleIndex scenario_marked) as Hq by (simpl; lia).
  split; [exact Hok|]. split; [reflexivity|]. split; [exact Hq|].
  apply (increment_next_match ACTIVE_TUPLE scenario_marked 0 1 8 Hok eq_refl Hq).
  unfold iteration_fuel. simpl. lia.
Defined.

(** X8: [increment] does not stop at the end: from an index past the last
    active one it steps to the next index without reading a marker, so an
    iterator that is incremented at the end moves past it and no longer
    compares equal to [end]. *)
Theorem increment_runs_past_end
    (MARKER : Z) (t : TableTupleFilter) (this q : Z) (fuel : nat) :
  empty t = false ->
  0 <= m_lastActiveTupleIndex t < q -> q + 1 < 2 ^ 64 ->
  (0 < fuel)%nat ->
  increment fuel MARKER t {| m_tableFilter := this; m_tupleIdx := q |}
  = Ok {| m_tableFilter := this; m_tupleIdx := q + 1 |} /\
  equal {| m_tableFilter := this; m_tupleIdx := q + 1 |} (end_ this MARKER t) = Ok false.
Proof.
  intros He Hq Hlt Hfuel. unfold empty in He. apply Z.eqb_neq in He.
  assert (wrap64 (q + 1) = q + 1) as Hw by (apply wrap64_small; red; lia).
  split.
  - destruct fuel as [|fuel]; [lia|].
    unfold increment, getLastActiveTupleIndex. simpl. rewrite Hw.
    rewrite (proj2 (Z.leb_gt _ _)) by lia. reflexivity.
  - unfold equal, end_, getLastActiveTupleIndex. simpl. rewrite Z.eqb_refl. simpl.
    rewrite (proj2 (Z.eqb_neq (m_lastActiveTupleIndex t) INVALID_INDEX)) by exact He. simpl.
    rewrite wrap64_small by (red; lia).
    rewrite (proj2 (Z.eqb_neq (q + 1) (m_lastActiveTupleIndex t + 1))) by lia.
    reflexivity.
Qed.

Lemma increment_runs_past_end_witness :
  empty scenario_marked = false /\
  0 <= m_lastActiveTupleIndex scenario_marked < 7 /\ 7 + 1 < 2 ^ 64 /\
  increment 1 5 scenario_marked {| m_tableFilter := 0; m_tupleIdx := 7 |}
  = Ok {| m_tableFilter := 0; m_tupleIdx := 7 + 1 |} /\
  equal {| m_tableFilter := 0; m_tupleIdx := 7 + 1 |} (end_ 0 5 scenario_marked) = Ok false.
Proof.
  assert (0 <= m_lastActiveTupleIndex scenario_marked < 7) as Hq by (simpl; lia).
  assert (7 + 1 < 2 ^ 64) as Hlt by lia.
  split; [reflexivity|]. split; [exact Hq|]. split; [exact Hlt|].
  apply (increment_runs_past_end 5 scenario_marked 0 7 1 eq_refl Hq Hlt). lia.
Defined.

(** On an empty filter the loop test against the last active index never
    fails, and the scan runs into the bound check of [getTupleValue]. *)
Lemma increment_loop_empty (MARKER : Z) (t : TableTupleFilter) :
  m_tuples_size t < 2 ^ 64 ->
  (forall s, m_tuples t !! s <> Some MARKER) ->
  forall (n fuel : nat) (idx : Z),
    0 <= wrap64 (idx + 1) <= m_tuples_size t ->
    Z.to_nat (m_tuples_size t - wrap64 (idx + 1)) = n ->
    (n < fuel)%nat ->
    increment_loop fuel MARKER t INVALID_INDEX idx = Fail AssertionFailed.
Proof.
  intros Hsize Hnone n. induction n as [|n IH]; intros fuel idx Hp Hn Hfuel.
  - destruct fuel as [|fuel]; [lia|]. simpl.
    rewrite (proj2 (Z.leb_le _ INVALID_INDEX)) by (unfold INVALID_INDEX; lia).
    unfold getTupleValue. rewrite (proj2 (Z.ltb_ge _ _)) by lia. reflexivity.
  - destruct fuel as [|fuel]; [lia|]. simpl.
    set (p := wrap64 (idx + 1)) in *.
    rewrite (proj2 (Z.leb_le p INVALID_INDEX)) by (unfold INVALID_INDEX; lia).
    destruct (lookup_lt_is_Some_2 (m_tuples t) (Z.to_nat p)) as [v Hv];
      [unfold m_tuples_size in *; lia|].
    rewrite (proj2 (getTupleValue_lookup t p v)) by (split; [lia|exact Hv]).
    simpl. destruct (Z.eqb_spec v MARKER) as [->|Hne]; [exfalso; eapply Hnone; exact Hv|].
    simpl. assert (wrap64 (p + 1) = p + 1) as Hw by (apply wrap64_small; red; lia).
    apply IH; [rewrite Hw; lia|rewrite Hw; lia|lia].
Qed.

(** X9: the check for an empty filter in the [begin] constructor is what
    keeps the scan in bounds: on an empty filter none of whose markers is
    [MARKER], [increment] from the invalid index walks through the whole
    marker array and fails the bound assertion of [getTupleValue], where
    [begin] returns the end iterator. *)
Theorem increment_on_empty_filter_fails
    (MARKER : Z) (t : TableTupleFilter) (this : Z) (fuel : nat) :
  empty t = true ->
  m_tuples_size t < 2 ^ 64 ->
  (forall s, getTupleValue t s <> Ok MARKER) ->
  (Z.to_nat (m_tuples_size t) < fuel)%nat ->
  increment fuel MARKER t {| m_tableFilter := this; m_tupleIdx := INVALID_INDEX |}
  = Fail AssertionFailed /\
  begin fuel this MARKER t = Ok (end_ this MARKER t).
Proof.
  intros He Hsize Hnone Hfuel. split.
  - unfold increment, getLastActiveTupleIndex. simpl.
    unfold empty in He. apply Z.eqb_eq in He. rewrite He.
    rewrite (increment_loop_empty MARKER t Hsize) with (n := Z.to_nat (m_tuples_size t));
      [reflexivity| |rewrite wrap64_invalid_succ; unfold m_tuples_size; lia
       |rewrite wrap64_invalid_succ; f_equal; lia|exact Hfuel].
    intros s Hs. apply (Hnone (Z.of_nat s)). apply getTupleValue_lookup.
    split; [lia|]. rewrite Nat2Z.id. exact Hs.
  - apply iterate_empty. exact He.
Qed.

Lemma increment_on_empty_filter_fails_witness :
  empty scenario_unmarked = true /\
  m_tuples_size scenario_unmarked < 2 ^ 64 /\
  (forall s, getTupleValue scenario_unmarked s <> Ok 5) /\
  increment 9 5 scenario_unmarked {| m_tableFilter := 0; m_tupleIdx := INVALID_INDEX |}
  = Fail AssertionFailed /\
  begin 9 0 5 scenario_unmarked = Ok (end_ 0 5 scenario_unmarked).
Proof.
  assert (m_tuples_size scenario_unmarked < 2 ^ 64) as Hsize
    by (unfold m_tuples_size; simpl; lia).
  assert (forall s, getTupleValue scenario_unmarked s <> Ok 5) as Hnone.
  { intros s Hs. apply getTupleValue_lookup in Hs as [_ Hs].
    change (m_tuples scenario_unmarked) with (replicate 8 INACTIVE_TUPLE) in Hs.
    apply lookup_replicate in Hs as [Hs _]. discriminate. }
  split; [reflexivity|]. split; [exact Hsize|]. split; [exact Hnone|].
  apply (increment_on_empty_filter_fails 5 scenario_unmarked 0 9 eq_refl Hsize Hnone).
  unfold m_tuples_size. simpl. lia.
Defined.

(** X10: the iterations split the slots up to the last active index by
    marker: each such slot holds a marker, and the iteration over a marker
    visits the slot exactly when it is that one. *)
Theorem iterations_partition_slots
    (t : TableTupleFilter) (this i : Z) (fuel : nat) :
  last_ok t -> empty t = false -> (iteration_fuel t <= fuel)%nat ->
  0 <= i <= m_lastActiveTupleIndex t ->
  exists M,
    getTupleValue t i = Ok M /\
    forall MARKER,
      exists visited,
        iterate fuel this MARKER t = Ok (visited, end_ this MARKER t) /\
        (i ∈ visited <-> MARKER = M).
Proof.
  intros Hok He Hfuel Hi.
  destruct (last_ok_nonempty t Hok He) as (Hu & Hne & Hsize).
  unfold iteration_fuel in Hfuel. rewrite He in Hfuel.
  destruct (lookup_lt_is_Some_2 (m_tuples t) (Z.to_nat i)) as [M HM];
    [unfold m_tuples_size in Hsize; lia|].
  exists M. split; [apply getTupleValue_lookup; split; [lia|exact HM]|].
  intros MARKER.
  destruct (iterate_nonempty MARKER t this fuel Hu Hne Hsize Hfuel) as [Hit _].
  eexists. split; [exact Hit|].
  rewrite elem_of_matching, HM. split.
  - intros [_ [= ->]]. reflexivity.
  - intros ->. split; [lia|reflexivity].
Qed.

Lemma iterations_partition_slots_witness :
  last_ok scenario_marked /\ empty scenario_marked = false /\
  0 <= 2 <= m_lastActiveTupleIndex scenario_marked /\
  exists M,
    getTupleValue scenario_marked 2 = Ok M /\
    forall MARKER,
      exists visited,
        iterate 8 0 MARKER scenario_marked = Ok (visited, end_ 0 MARKER scenario_marked) /\
        (2 ∈ visited <-> MARKER = M).
Proof.
  pose proof scenario_marked_ok as [Hok _].
  assert (0 <= 2 <= m_lastActiveTupleIndex scenario_marked) as Hi by (simpl; lia).
  split; [exact Hok|]. split; [reflexivity|]. split; [exact Hi|].
  apply (iterations_partition_slots scenario_marked 0 2 8 Hok eq_refl); [|exact Hi].
  unfold iteration_fuel. simpl. lia.
Defined.

(** X11: in a filter whose marked slots lie below the last active index,
    as initialization and updates keep it, the iteration over a marker
    other than the inactive one misses no slot of the whole marker array:
    it visits a slot exactly when the slot carries the marker, the filter
    being empty or not. *)
Theorem iteration_finds_every_marked_slot
    (MARKER : Z) (t : TableTupleFilter) (this : Z) (fuel : nat) :
  markers_ok t -> MARKER <> INACTIVE_TUPLE -> (iteration_fuel t <= fuel)%nat ->
  exists visited,
    iterate fuel this MARKER t = Ok (visited, end_ this MARKER t) /\
    forall i, i ∈ visited <-> getTupleValue t i = Ok MARKER.
Proof.
  intros [Hok Hbelow] HM Hfuel. unfold iteration_fuel in Hfuel.
  destruct (empty t) eqn:He.
  - exists []. destruct (iterate_empty MARKER t this fuel He) as [_ Hit].
    split; [apply Hit; lia|]. intros i. split; [intros Hin; inversion Hin|].
    intros Hv. apply getTupleValue_lookup in Hv as [_ Hv].
    destruct (Hbelow _ _ Hv HM) as [Hne _].
    unfold empty in He. apply Z.eqb_eq in He. contradiction.
  - destruct (last_ok_nonempty t Hok He) as (Hu & Hne & Hsize).
    destruct (iterate_nonempty MARKER t this fuel Hu Hne Hsize Hfuel) as [Hit _].
    eexists. split; [exact Hit|].
    intros i. rewrite elem_of_matching, getTupleValue_lookup. split.
    + intros [Hr Hv]. split; [lia|exact Hv].
    + intros [H0 Hv]. split; [|exact Hv].
      destruct (Hbelow _ _ Hv HM) as [_ Hle]. lia.
Qed.

Lemma iteration_finds_every_marked_slot_witness :
  markers_ok scenario_marked /\ ACTIVE_TUPLE <> INACTIVE_TUPLE /\
  exists visited,
    iterate 8 0 ACTIVE_TUPLE scenario_marked
    = Ok (visited, end_ 0 ACTIVE_TUPLE scenario_marked) /\
    forall i, i ∈ visited <-> getTupleValue scenario_marked i = Ok ACTIVE_TUPLE.
Proof.
  assert (ACTIVE_TUPLE <> INACTIVE_TUPLE) as HM by discriminate.
  split; [exact scenario_marked_ok|]. split; [exact HM|].
  apply (iteration_finds_every_marked_slot ACTIVE_TUPLE scenario_marked 0 8
           scenario_marked_ok HM).
  unfold iteration_fuel. simpl. lia.
Defined.

(** X12: [updateTuple], with any code, and [initActiveTuple] keep the
    filter in a state where the last active index is a slot of the marker
    array and every slot whose marker is not the inactive code lies at or
    below it; neither changes the size of the marker array. *)
Theorem operations_keep_markers_ok
    (blockSize : Z) (t : TableTupleFilter) (tuple : TableTuple) :
  markers_ok t -> m_tuples_size t < 2 ^ 64 ->
  (forall marker idx t',
     updateTuple blockSize t tuple marker = Ok (idx, t') ->
     markers_ok t' /\ m_tuples_size t' = m_tuples_size t) /\
  (forall t',
     initActiveTuple blockSize t tuple = Ok t' ->
     markers_ok t' /\ m_tuples_size t' = m_tuples_size t).
Proof.
  intros Hok Hsize. split.
  - intros marker idx t' Hup.
    split; [exact (updateTuple_markers_ok blockSize t t' tuple marker idx Hok Hup)|].
    destruct (updateTuple_inv blockSize t t' tuple marker idx Hup)
      as (t1 & v0 & _ & _ & _ & _ & _ & ->).
    unfold m_tuples_size. simpl. rewrite length_insert. reflexivity.
  - intros t' Hinit. exact (initActiveTuple_markers_ok blockSize t t' tuple Hsize Hok Hinit).
Qed.

Lemma operations_keep_markers_ok_witness :
  markers_ok scenario_marked /\ m_tuples_size scenario_marked < 2 ^ 64 /\
  (forall marker idx t',
     updateTuple 64 scenario_marked {| address := 4112 |} marker = Ok (idx, t') ->
     markers_ok t' /\ m_tuples_size t' = m_tuples_size scenario_marked) /\
  (forall t',
     initActiveTuple 64 scenario_marked {| address := 4128 |} = Ok t' ->
     markers_ok t' /\ m_tuples_size t' = m_tuples_size scenario_marked).
Proof.
  assert (m_tuples_size scenario_marked < 2 ^ 64) as Hsize
    by (unfold m_tuples_size; simpl; lia).
  split; [exact scenario_marked_ok|]. split; [exact Hsize|].
  split.
  - exact (proj1 (operations_keep_markers_ok 64 scenario_marked {| address := 4112 |}
                    scenario_marked_ok Hsize)).
  - exact (proj2 (operations_keep_markers_ok 64 scenario_marked {| address := 4128 |}
                    scenario_marked_ok Hsize)).
Defined.

(** ** Recovering an address *)

(** The address [getTupleAddress] computes for the slot at position [k] of
    block number [i]. *)
Lemma getTupleAddress_value (t : TableTupleFilter) (i : nat) (b k : Z) :
  m_blocks t !! i = Some b ->
  0 <= k < m_tuplesPerBlock t ->
  Z.of_nat i * m_tuplesPerBlock t + k < m_tuples_size t ->
  getTupleAddress t (Z.of_nat i * m_tuplesPerBlock t + k)
  = Ok (wrap64 (b + wrap64 (wrap64 (Z.of_nat i * m_tuplesPerBlock t + k - Z.of_nat i)
                            * m_tupleLength t))).
Proof.
  intros Hb Hk Hs. unfold getTupleAddress.
  rewrite (proj2 (Z.ltb_lt _ (m_tuples_size t))) by exact Hs. simpl.
  rewrite (proj2 (Z.eqb_neq (m_tuplesPerBlock t) 0)) by lia.
  assert ((Z.of_nat i * m_tuplesPerBlock t + k) / m_tuplesPerBlock t = Z.of_nat i) as ->.
  { rewrite Z.add_comm, Z.div_add by lia. rewrite Z.div_small by lia. lia. }
  pose proof (lookup_lt_Some _ _ _ Hb) as Hlt.
  rewrite (proj2 (Z.ltb_lt _ _)) by lia. simpl.
  rewrite (proj2 (vec_get_lookup (m_blocks t) (Z.of_nat i) b))
    by (split; [lia|rewrite Nat2Z.id; exact Hb]).
  reflexivity.
Qed.

(** X13: for the slot at position [k] of block number [i], when nothing
    overflows, [getTupleAddress] returns the address of that tuple plus
    [i * (tuples per block - 1) * tuple length]: it is the tuple's address
    exactly when the block is the first one, or a block holds one tuple, or
    tuples have no length. *)
Theorem getTupleAddress_offset
    (t : TableTupleFilter) (i : nat) (b k : Z) :
  m_blocks t !! i = Some b ->
  0 <= k < m_tuplesPerBlock t ->
  Z.of_nat i * m_tuplesPerBlock t + k < m_tuples_size t ->
  m_tuples_size t < 2 ^ 64 ->
  0 <= b -> 0 <= m_tupleLength t ->
  b + (Z.of_nat i * m_tuplesPerBlock t + k - Z.of_nat i) * m_tupleLength t < 2 ^ 64 ->
  getTupleAddress t (Z.of_nat i * m_tuplesPerBlock t + k)
  = Ok (b + k * m_tupleLength t
        + Z.of_nat i * (m_tuplesPerBlock t - 1) * m_tupleLength t) /\
  (b + k * m_tupleLength t + Z.of_nat i * (m_tuplesPerBlock t - 1) * m_tupleLength t
   = b + k * m_tupleLength t
   <-> i = 0%nat \/ m_tuplesPerBlock t = 1 \/ m_tupleLength t = 0).
Proof.
  intros Hb Hk Hs Hsize H0b Hlen Hfit. split.
  - rewrite (getTupleAddress_value t i b k Hb Hk Hs).
    set (d := Z.of_nat i * m_tuplesPerBlock t + k - Z.of_nat i) in *.
    assert (0 <= d) as Hd by (subst d; nia).
    assert (d < 2 ^ 64) as Hd' by (subst d; nia).
    assert (0 <= d * m_tupleLength t) as Hprod by nia.
    rewrite (wrap64_small d) by (red; lia).
    rewrite (wrap64_small (d * m_tupleLength t)) by (red; lia).
    rewrite wrap64_small by (red; lia).
    f_equal. subst d. ring.
  - split.
    + intros Heq.
      assert (Z.of_nat i * (m_tuplesPerBlock t - 1) * m_tupleLength t = 0) as Hz by lia.
      apply Z.mul_eq_0 in Hz as [Hz|Hz]; [|auto].
      apply Z.mul_eq_0 in Hz as [Hz|Hz]; [left; lia|right; left; lia].
    + intros [->|[->| ->]]; simpl; lia.
Qed.

Lemma getTupleAddress_offset_witness :
  m_blocks scenario_marked !! 1%nat = Some 8192 /\
  0 <= 2 < m_tuplesPerBlock scenario_marked /\
  Z.of_nat 1 * m_tuplesPerBlock scenario_marked + 2 < m_tuples_size scenario_marked /\
  getTupleAddress scenario_marked (Z.of_nat 1 * m_tuplesPerBlock scenario_marked + 2)
  = Ok (8192 + 2 * m_tupleLength scenario_marked
        + Z.of_nat 1 * (m_tuplesPerBlock scenario_marked - 1)
          * m_tupleLength scenario_marked) /\
  (8192 + 2 * m_tupleLength scenario_marked
   + Z.of_nat 1 * (m_tuplesPerBlock scenario_marked - 1) * m_tupleLength scenario_marked
   = 8192 + 2 * m_tupleLength scenario_marked
   <-> 1%nat = 0%nat \/ m_tuplesPerBlock scenario_marked = 1
       \/ m_tupleLength scenario_marked = 0).
Proof.
  assert (0 <= 2 < m_tuplesPerBlock scenario_marked) as Hk by (simpl; lia).
  assert (Z.of_nat 1 * m_tuplesPerBlock scenario_marked + 2 < m_tuples_size scenario_marked)
    as Hs by (unfold m_tuples_size; simpl; lia).
  split; [reflexivity|]. split; [exact Hk|]. split; [exact Hs|].
  apply (getTupleAddress_offset scenario_marked 1 8192 2 eq_refl Hk Hs).
  - unfold m_tuples_size. simpl. lia.
  - lia.
  - simpl. lia.
  - simpl. lia.
Defined.

(** X14: in the first block the two translations are inverse: the address
    of the tuple at position [k] of the block resolves to the slot index
    [k], and [getTupleAddress] gives that address back for it. *)
Theorem address_round_trip_first_block
    (blockSize : Z) (t : TableTupleFilter) (b k : Z) :
  blocks_aligned blockSize t -> offsets_ok t -> cache_ok blockSize t ->
  m_blocks t !! 0%nat = Some b ->
  0 <= k < m_tuplesPerBlock t -> 0 < m_tupleLength t ->
  k * m_tupleLength t < blockSize ->
  k < m_tuples_size t ->
  b + k * m_tupleLength t < 2 ^ 64 ->
  exists t1,
    getTupleIndex blockSize t {| address := b + k * m_tupleLength t |} = Ok (k, t1) /\
    getTupleAddress t1 k = Ok (b + k * m_tupleLength t).
Proof.
  intros Hal Hoff Hc Hb Hk Hlen Hspan Hs Hfit.
  destruct (blocks_aligned_lookup blockSize t 0 b Hal Hb) as [Hbu _]. red in Hbu.
  assert (slot_of t 0 b (b + k * m_tupleLength t) = k) as Hslot.
  { unfold slot_of. replace (b + k * m_tupleLength t - b) with (k * m_tupleLength t) by lia.
    rewrite Z.div_mul by lia. simpl. lia. }
  exists (set_prevBlock t b (Z.of_nat 0 * m_tuplesPerBlock t)). split.
  - rewrite (getTupleIndex_in_block blockSize t {| address := b + k * m_tupleLength t |}
               0 b Hal Hoff Hc); cbn [address].
    + rewrite Hslot. reflexivity.
    + split; [exact Hb|nia].
    + lia.
    + red. nia.
    + rewrite Hslot. red. nia.
  - set (t1 := set_prevBlock t b (Z.of_nat 0 * m_tuplesPerBlock t)).
    replace k with (Z.of_nat 0 * m_tuplesPerBlock t1 + k) at 1 by (simpl; lia).
    rewrite (getTupleAddress_value t1 0 b k Hb Hk) by (simpl; exact Hs).
    f_equal. subst t1. cbn [m_tuplesPerBlock m_tupleLength set_prevBlock].
    replace (Z.of_nat 0 * m_tuplesPerBlock t + k - Z.of_nat 0) with k by (simpl; lia).
    rewrite (wrap64_small k) by (red; nia).
    rewrite (wrap64_small (k * m_tupleLength t)) by (red; nia).
    apply wrap64_small. red. nia.
Qed.

Lemma address_round_trip_first_block_witness :
  blocks_aligned 64 scenario_marked /\ offsets_ok scenario_marked /\
  cache_ok 64 scenario_marked /\
  m_blocks scenario_marked !! 0%nat = Some 4096 /\
  exists t1,
    getTupleIndex 64 scenario_marked
      {| address := 4096 + 3 * m_tupleLength scenario_marked |} = Ok (3, t1) /\
    getTupleAddress t1 3 = Ok (4096 + 3 * m_tupleLength scenario_marked).
Proof.
  assert (cache_ok 64 scenario_marked) as Hc
    by exact (scenario_marked_cache 1 8192 eq_refl).
  split; [exact scenario_marked_aligned|]. split; [exact scenario_marked_offsets|].
  split; [exact Hc|]. split; [reflexivity|].
  apply (address_round_trip_first_block 64 scenario_marked 4096 3
           scenario_marked_aligned scenario_marked_offsets Hc eq_refl).
  - simpl. lia.
  - simpl. lia.
  - simpl. lia.
  - unfold m_tuples_size. simpl. lia.
  - simpl. lia.
Defined.

Lemma init_size_ok (t : TableTupleFilter) (blocks : list Z) (tuplesPerBlock tupleLength : Z) :
  0 <= tuplesPerBlock -> size_ok (init t blocks tuplesPerBlock tupleLength).
Proof.
  intros Htpb. unfold size_ok, m_tuples_size. simpl. rewrite length_replicate. lia.
Qed.

(** X15: in a filter whose marker array has one slot per tuple of every
    block, [getTupleAddress] returns an address for exactly the slot
    indices below the size of the array, and fails its first assertion for
    the others; the assertion on the block index cannot fail. *)
Theorem getTupleAddress_defined_on_slots (t : TableTupleFilter) (tupleIdx : Z) :
  size_ok t -> 0 < m_tuplesPerBlock t -> 0 <= tupleIdx ->
  (tupleIdx < m_tuples_size t -> exists a, getTupleAddress t tupleIdx = Ok a) /\
  (m_tuples_size t <= tupleIdx -> getTupleAddress t tupleIdx = Fail AssertionFailed).
Proof.
  intros Hsz Htpb H0. unfold getTupleAddress. split.
  - intros Hlt. rewrite (proj2 (Z.ltb_lt _ (m_tuples_size t))) by exact Hlt. simpl.
    rewrite (proj2 (Z.eqb_neq (m_tuplesPerBlock t) 0)) by lia.
    assert (0 <= tupleIdx / m_tuplesPerBlock t < Z.of_nat (length (m_blocks t))) as Hq.
    { split; [apply Z.div_pos; lia|].
      apply Z.div_lt_upper_bound; [lia|]. rewrite Hsz in Hlt. lia. }
    rewrite (proj2 (Z.ltb_lt _ _)) by lia. simpl.
    destruct (lookup_lt_is_Some_2 (m_blocks t) (Z.to_nat (tupleIdx / m_tuplesPerBlock t)))
      as [b Hb]; [lia|].
    rewrite (proj2 (vec_get_lookup (m_blocks t) _ b)) by (split; [lia|exact Hb]).
    simpl. eauto.
  - intros Hge. rewrite (proj2 (Z.ltb_ge tupleIdx (m_tuples_size t))) by exact Hge.
    reflexivity.
Qed.

Lemma getTupleAddress_defined_on_slots_witness :
  size_ok scenario_marked /\ 0 < m_tuplesPerBlock scenario_marked /\ 0 <= 7 /\
  (7 < m_tuples_size scenario_marked -> exists a, getTupleAddress scenario_marked 7 = Ok a) /\
  (m_tuples_size scenario_marked <= 7 ->
   getTupleAddress scenario_marked 7 = Fail AssertionFailed).
Proof.
  assert (size_ok scenario_marked) as Hsz by reflexivity.
  assert (0 < m_tuplesPerBlock scenario_marked) as Htpb by (simpl; lia).
  split; [exact Hsz|]. split; [exact Htpb|]. split; [lia|].
  apply (getTupleAddress_defined_on_slots scenario_marked 7 Hsz Htpb). lia.
Defined.

(** X16: the tuples of the enumerated blocks get slots of their own, inside
    the marker array: the addresses of the tuples at position [k1] of block
    [i1] and at position [k2] of block [i2], resolved one after the other,
    give [i1 * tuples per block + k1] and [i2 * tuples per block + k2],
    which are equal only for the same block and position and lie below the
    size of the array. *)
Theorem distinct_tuples_distinct_slots
    (blockSize : Z) (t : TableTupleFilter) (i1 i2 : nat) (b1 b2 k1 k2 : Z) :
  blocks_aligned blockSize t -> offsets_ok t -> cache_ok blockSize t ->
  size_ok t -> m_tuples_size t < 2 ^ 64 ->
  0 < m_tupleLength t ->
  m_blocks t !! i1 = Some b1 -> m_blocks t !! i2 = Some b2 ->
  0 <= k1 < m_tuplesPerBlock t -> 0 <= k2 < m_tuplesPerBlock t ->
  k1 * m_tupleLength t < blockSize -> k2 * m_tupleLength t < blockSize ->
  b1 + k1 * m_tupleLength t < 2 ^ 64 -> b2 + k2 * m_tupleLength t < 2 ^ 64 ->
  let s1 := Z.of_nat i1 * m_tuplesPerBlock t + k1 in
  let s2 := Z.of_nat i2 * m_tuplesPerBlock t + k2 in
  exists t1 t2,
    getTupleIndex blockSize t {| address := b1 + k1 * m_tupleLength t |} = Ok (s1, t1) /\
    getTupleIndex blockSize t1 {| address := b2 + k2 * m_tupleLength t |} = Ok (s2, t2) /\
    (s1 = s2 <-> i1 = i2 /\ k1 = k2) /\
    0 <= s1 < m_tuples_size t /\ 0 <= s2 < m_tuples_size t.
Proof.
  intros Hal Hoff Hc Hsz Hsize Hlen Hb1 Hb2 Hk1 Hk2 Hsp1 Hsp2 Hf1 Hf2 s1 s2.
  assert (forall (i : nat) b k,
            m_blocks t !! i = Some b -> 0 <= k < m_tuplesPerBlock t ->
            0 <= Z.of_nat i * m_tuplesPerBlock t + k < m_tuples_size t) as Hin.
  { intros i b k Hb Hk. pose proof (lookup_lt_Some _ _ _ Hb) as Hlt.
    rewrite Hsz. nia. }
  pose proof (Hin i1 b1 k1 Hb1 Hk1) as Hs1. pose proof (Hin i2 b2 k2 Hb2 Hk2) as Hs2.
  assert (forall t0 (i : nat) b k,
            blocks_aligned blockSize t0 -> offsets_ok t0 -> cache_ok blockSize t0 ->
            m_blocks t0 = m_blocks t -> m_tuplesPerBlock t0 = m_tuplesPerBlock t ->
            m_tupleLength t0 = m_tupleLength t ->
            m_blocks t !! i = Some b -> 0 <= k < m_tuplesPerBlock t ->
            k * m_tupleLength t < blockSize -> b + k * m_tupleLength t < 2 ^ 64 ->
            getTupleIndex blockSize t0 {| address := b + k * m_tupleLength t |}
            = Ok (Z.of_nat i * m_tuplesPerBlock t + k,
                  set_prevBlock t0 b (Z.of_nat i * m_tuplesPerBlock t0))) as Hres.
  { intros t0 i b k Hal0 Hoff0 Hc0 Eb Etpb Elen Hb Hk Hsp Hf.
    rewrite <- Eb in Hb.
    destruct (blocks_aligned_lookup blockSize t0 i b Hal0 Hb) as [Hbu _]. red in Hbu.
    assert (slot_of t0 i b (b + k * m_tupleLength t)
            = Z.of_nat i * m_tuplesPerBlock t + k) as Hslot.
    { unfold slot_of. rewrite Elen, Etpb.
      replace (b + k * m_tupleLength t - b) with (k * m_tupleLength t) by lia.
      rewrite Z.div_mul by lia. lia. }
    rewrite (getTupleIndex_in_block blockSize t0 {| address := b + k * m_tupleLength t |}
               i b Hal0 Hoff0 Hc0); cbn [address].
    - rewrite Hslot. reflexivity.
    - split; [exact Hb|nia].
    - lia.
    - red. nia.
    - rewrite Hslot. rewrite Eb in Hb. pose proof (Hin i b k Hb Hk). red. lia. }
  exists (set_prevBlock t b1 (Z.of_nat i1 * m_tuplesPerBlock t)).
  exists (set_prevBlock (set_prevBlock t b1 (Z.of_nat i1 * m_tuplesPerBlock t))
                        b2 (Z.of_nat i2 * m_tuplesPerBlock t)).
  split; [exact (Hres t i1 b1 k1 Hal Hoff Hc eq_refl eq_refl eq_refl Hb1 Hk1 Hsp1 Hf1)|].
  split.
  { apply (Hres (set_prevBlock t b1 (Z.of_nat i1 * m_tuplesPerBlock t)) i2 b2 k2);
      try reflexivity; try assumption.
    apply (cache_ok_refreshed blockSize t i1 b1 Hal Hoff Hb1). }
  split; [|split; assumption].
  subst s1 s2. split.
  - intros Heq.
    assert (Z.of_nat i1 = Z.of_nat i2) as Hi by nia.
    split; [lia|nia].
  - intros [-> ->]. reflexivity.
Qed.

Lemma distinct_tuples_distinct_slots_witness :
  blocks_aligned 64 scenario_marked /\ offsets_ok scenario_marked /\
  cache_ok 64 scenario_marked /\ size_ok scenario_marked /\
  exists t1 t2,
    getTupleIndex 64 scenario_marked
      {| address := 4096 + 3 * m_tupleLength scenario_marked |}
    = Ok (Z.of_nat 0 * m_tuplesPerBlock scenario_marked + 3, t1) /\
    getTupleIndex 64 t1 {| address := 8192 + 2 * m_tupleLength scenario_marked |}
    = Ok (Z.of_nat 1 * m_tuplesPerBlock scenario_marked + 2, t2) /\
    (Z.of_nat 0 * m_tuplesPerBlock scenario_marked + 3
     = Z.of_nat 1 * m_tuplesPerBlock scenario_marked + 2
     <-> 0%nat = 1%nat /\ 3 = 2) /\
    0 <= Z.of_nat 0 * m_tuplesPerBlock scenario_marked + 3 < m_tuples_size scenario_marked /\
    0 <= Z.of_nat 1 * m_tuplesPerBlock scenario_marked + 2 < m_tuples_size scenario_marked.
Proof.
  assert (cache_ok 64 scenario_marked) as Hc
    by exact (scenario_marked_cache 1 8192 eq_refl).
  assert (size_ok scenario_marked) as Hsz by reflexivity.
  split; [exact scenario_marked_aligned|]. split; [exact scenario_marked_offsets|].
  split; [exact Hc|]. split; [exact Hsz|].
  apply (distinct_tuples_distinct_slots 64 scenario_marked 0 1 4096 8192 3 2
           scenario_marked_aligned scenario_marked_offsets Hc Hsz);
    try reflexivity; try (simpl; lia).
Defined.

(** * Properties of the executor factory *)

Module ExecutorFactoryFacts.

Import ExecutorFactory.

(** What [allocate] does on an initialized factory. *)
Lemma allocate_running (partitionId maxThreads nextAlloc : Z) (executors : list executor)
    (refCounts : gmap executor Z) (pid2exec : gmap Z executor)
    (made : nat) (down : list executor) :
  allocate partitionId (running maxThreads nextAlloc executors refCounts pid2exec made down)
  = match pid2exec !! partitionId with
    | Some les =>
        match refCounts !! les with
        | Some count =>
            Return les (running maxThreads nextAlloc executors
                                (<[les := wrap32 (count + 1)]> refCounts) pid2exec made down)
        | None =>
            Throw NullPointerException
                  (running maxThreads nextAlloc executors refCounts pid2exec made down)
        end
    | None =>
        if Z.of_nat (length executors) <? maxThreads then
          Return made (running maxThreads nextAlloc (executors ++ [made])
                               (<[made := 1]> refCounts)
                               (<[partitionId := made]> pid2exec) (S made) down)
        else
          let index := if Z.of_nat (length executors) <=? nextAlloc then 0 else nextAlloc in
          match (if (0 <=? index) && (index <? Z.of_nat (length executors))
                 then executors !! Z.to_nat index else None) with
          | Some les =>
              match refCounts !! les with
              | Some count =>
                  Return les (running maxThreads (wrap32 (index + 1)) executors
                                      (<[les := wrap32 (count + 1)]> refCounts)
                                      (<[partitionId := les]> pid2exec) made down)
              | None =>
                  Throw NullPointerException
                        (running maxThreads index executors refCounts pid2exec made down)
              end
          | None =>
              Throw IndexOutOfBoundsException
                    (running maxThreads index executors refCounts pid2exec made down)
          end
    end.
Proof.
  unfold allocate, running, bind, pid2execMap_get, deref, ret. simpl.
  destruct (pid2exec !! partitionId) as [les|].
  - unfold refCounts_get, refCounts_put, bind, deref, ret, set_refCounts. simpl.
    destruct (refCounts !! les); reflexivity.
  - unfold executors_size, bind, deref, ret. simpl.
    destruct (Z.of_nat (length executors) <? maxThreads); [reflexivity|].
    unfold gets. simpl.
    destruct (Z.of_nat (length executors) <=? nextAlloc); simpl.
    + unfold executors_get, bind, deref. simpl.
      destruct (0 <? Z.of_nat (length executors)); simpl; [|reflexivity].
      destruct (executors !! Z.to_nat 0) as [les|]; [|reflexivity]. unfold ret. simpl.
      unfold refCounts_get, bind, deref. simpl.
      destruct (refCounts !! les); reflexivity.
    + unfold executors_get, bind, deref, ret. simpl.
      destruct ((0 <=? nextAlloc) && (nextAlloc <? Z.of_nat (length executors)));
        [|reflexivity].
      destruct (executors !! Z.to_nat nextAlloc) as [les|]; [|reflexivity]. simpl.
      unfold refCounts_get, bind, deref. simpl.
      destruct (refCounts !! les); reflexivity.
Qed.

(** What [release] does on an initialized factory. *)
Lemma release_running (partitionId maxThreads nextAlloc : Z) (executors : list executor)
    (refCounts : gmap executor Z) (pid2exec : gmap Z executor)
    (made : nat) (down : list executor) :
  release partitionId (running maxThreads nextAlloc executors refCounts pid2exec made down)
  = match pid2exec !! partitionId with
    | None =>
        Throw (IllegalStateException FreesUnallocated)
              (running maxThreads nextAlloc executors refCounts pid2exec made down)
    | Some les =>
        match refCounts !! les with
        | None =>
            Throw NullPointerException
                  (running maxThreads nextAlloc executors refCounts pid2exec made down)
        | Some count =>
            if wrap32 (count - 1) <? 0 then
              Throw (IllegalStateException InvalidRefCount)
                    (running maxThreads nextAlloc executors refCounts pid2exec made down)
            else if wrap32 (count - 1) =? 0 then
              Return tt
                (running maxThreads
                   (if Z.of_nat (length (remove_first les executors)) <? nextAlloc
                    then 0 else nextAlloc)
                   (remove_first les executors)
                   (delete les refCounts)
                   (filter (fun kv => snd kv <> les) pid2exec)
                   made (les :: down))
            else
              Return tt (running maxThreads nextAlloc executors
                                 (<[les := wrap32 (count - 1)]> refCounts) pid2exec
                                 made down)
        end
    end.
Proof.
  unfold release, running, bind, pid2execMap_get, deref, ret. simpl.
  destruct (pid2exec !! partitionId) as [les|]; [|reflexivity].
  unfold refCounts_get, bind, deref, ret. simpl.
  destruct (refCounts !! les) as [count|]; [|reflexivity].
  destruct (wrap32 (count - 1) <? 0); [reflexivity|].
  destruct (wrap32 (count - 1) =? 0); [|reflexivity].
  unfold executors_remove, refCounts_remove, pid2execMap_removeIf, executors_size,
    bind, deref, gets, ret. simpl.
  destruct (Z.of_nat (length (remove_first les executors)) <? nextAlloc); reflexivity.
Qed.

Lemma initialize_running (env : Environment) (maxThreads nextAlloc : Z)
    (executors : list executor) (refCounts : gmap executor Z) (pid2exec : gmap Z executor)
    (made : nat) (down : list executor) :
  initialize env (running maxThreads nextAlloc executors refCounts pid2exec made down)
  = Return tt (running maxThreads nextAlloc executors refCounts pid2exec made down).
Proof. reflexivity. Qed.

Lemma initialize_new (env : Environment) (made : nat) (down : list executor) :
  initialize env (ExecutorFactory_new made down)
  = if settled_threads env <? 0
    then Throw IllegalArgumentException
           {| m_maxThreads := Some (settled_threads env); m_nextAlloc := 0;
              m_executors := None; m_refCounts := None; m_pid2execMap := None;
              created := made; shutdowns := down |}
    else Return tt (running (settled_threads env) 0 [] ∅ ∅ made down).
Proof.
  unfold initialize, ExecutorFactory_new, settled_threads, bind, isInitialized, gets, ret,
    set_maxThreads, deref. simpl.
  destruct (getConfigMaxThreads env <? 1); simpl.
  - destruct (getMinThreads env <? 0); reflexivity.
  - destruct (getLocalSitesCount env =? 0); simpl.
    + destruct (getMinThreads env <? 0); reflexivity.
    + destruct (getLocalSitesCount env <? getConfigMaxThreads env); simpl.
      * destruct (getLocalSitesCount env <? 0); reflexivity.
      * destruct (getConfigMaxThreads env <? 0); reflexivity.
Qed.

Lemma wrap32_small (x : Z) : -(2 ^ 31) <= x < 2 ^ 31 -> wrap32 x = x.
Proof. intros H. unfold wrap32. rewrite Z.mod_small by lia. lia. Qed.

Lemma elem_of_remove_first (x y : executor) (l : list executor) :
  NoDup l -> (y ∈ remove_first x l <-> y ∈ l /\ y <> x).
Proof.
  induction l as [|z l IH]; intros Hnd; simpl.
  - split; [intros H; inversion H|intros [H _]; inversion H].
  - apply NoDup_cons in Hnd as [Hz Hnd]. destruct (decide (x = z)) as [->|Hne].
    + rewrite elem_of_cons. split.
      * intros Hy. split; [right; exact Hy|]. intros ->. contradiction.
      * intros [[->|Hy] Hyz]; [contradiction|exact Hy].
    + rewrite !elem_of_cons, (IH Hnd). split.
      * intros [->|[Hy Hyx]]; [split; [left; reflexivity|congruence]|].
        split; [right; exact Hy|exact Hyx].
      * intros [[->|Hy] Hyx]; [left; reflexivity|right; split; assumption].
Qed.

Lemma length_remove_first (x : executor) (l : list executor) :
  x ∈ l -> S (length (remove_first x l)) = length l.
Proof.
  induction l as [|z l IH]; intros Hin; [inversion Hin|]. simpl.
  destruct (decide (x = z)) as [->|Hne]; [reflexivity|].
  apply elem_of_cons in Hin as [->|Hin]; [contradiction|]. simpl. rewrite IH by exact Hin.
  reflexivity.
Qed.

Lemma NoDup_remove_first (x : executor) (l : list executor) :
  NoDup l -> NoDup (remove_first x l).
Proof.
  induction l as [|z l IH]; intros Hnd; simpl; [constructor|].
  pose proof Hnd as Hnd0. apply NoDup_cons in Hnd as [Hz Hnd].
  destruct (decide (x = z)) as [->|Hne]; [exact Hnd|].
  apply NoDup_cons. split; [|apply IH; exact Hnd].
  intros Hin. apply (elem_of_remove_first x z l Hnd) in Hin as [Hin _]. contradiction.
Qed.

Section Running.

Variables (maxThreads nextAlloc : Z) (executors : list executor)
  (refCounts : gmap executor Z) (pid2exec : gmap Z executor)
  (made : nat) (down : list executor).

Hypothesis Hok : running_ok maxThreads nextAlloc executors refCounts pid2exec made down.

(** A partition that is mapped gets its executor, whose count goes up. *)
Lemma allocate_mapped_ok (partitionId : Z) (les : executor) (count : Z) :
  pid2exec !! partitionId = Some les -> refCounts !! les = Some count ->
  count < 2 ^ 31 - 1 ->
  allocate partitionId (running maxThreads nextAlloc executors refCounts pid2exec made down)
  = Return les (running maxThreads nextAlloc executors (<[les := count + 1]> refCounts)
                        pid2exec made down) /\
  running_ok maxThreads nextAlloc executors (<[les := count + 1]> refCounts)
             pid2exec made down.
Proof.
  intros Hpid Hrc Hlt.
  destruct Hok as (Hmax & Hcap & Hnd & Hdom & Hpos & Hmap & Hnext & Hfresh & Hdown & Hlive).
  pose proof (Hpos _ _ Hrc) as Hc. split.
  - rewrite allocate_running, Hpid, Hrc. rewrite wrap32_small by lia. reflexivity.
  - unfold running_ok.
    split; [lia|]. split; [lia|]. split; [exact Hnd|]. split.
    { intros les'. destruct (decide (les' = les)) as [->|Hne].
      - rewrite lookup_insert_eq. split; [eauto|]. intros _. apply Hdom. eauto.
      - rewrite lookup_insert_ne by congruence. apply Hdom. }
    split.
    { intros les' count'. destruct (decide (les' = les)) as [->|Hne].
      - rewrite lookup_insert_eq. intros [= <-]. lia.
      - rewrite lookup_insert_ne by congruence. apply Hpos. }
    split; [exact Hmap|]. split; [lia|].
    split; [exact Hfresh|]. split; [exact Hdown|exact Hlive].
Qed.

(** Below the cap a partition that is not mapped gets a new executor. *)
Lemma allocate_new_ok (partitionId : Z) :
  pid2exec !! partitionId = None ->
  Z.of_nat (length executors) < maxThreads ->
  allocate partitionId (running maxThreads nextAlloc executors refCounts pid2exec made down)
  = Return made (running maxThreads nextAlloc (executors ++ [made])
                         (<[made := 1]> refCounts)
                         (<[partitionId := made]> pid2exec) (S made) down) /\
  running_ok maxThreads nextAlloc (executors ++ [made]) (<[made := 1]> refCounts)
             (<[partitionId := made]> pid2exec) (S made) down /\
  (made ∉ executors) /\ (made ∉ down).
Proof.
  intros Hpid Hlt.
  destruct Hok as (Hmax & Hcap & Hnd & Hdom & Hpos & Hmap & Hnext & Hfresh & Hdown & Hlive).
  assert (made ∉ executors) as Hnew by (intros Hin; apply Hfresh in Hin; lia).
  assert (made ∉ down) as Hnew' by (intros Hin; apply Hdown in Hin; lia).
  split; [|split; [|split; assumption]].
  - rewrite allocate_running, Hpid. rewrite (proj2 (Z.ltb_lt _ _)) by exact Hlt. reflexivity.
  - unfold running_ok. rewrite length_app. simpl.
    split; [lia|]. split; [lia|]. split.
    { apply NoDup_app. split; [exact Hnd|]. split; [|apply NoDup_singleton].
      intros x Hx Hx'. apply list_elem_of_singleton in Hx'. subst x. contradiction. }
    split.
    { intros les. rewrite elem_of_app, list_elem_of_singleton.
      destruct (decide (les = made)) as [->|Hne].
      - rewrite lookup_insert_eq. split; eauto.
      - rewrite lookup_insert_ne by congruence. rewrite <- Hdom. tauto. }
    split.
    { intros les count. destruct (decide (les = made)) as [->|Hne].
      - rewrite lookup_insert_eq. intros [= <-]. lia.
      - rewrite lookup_insert_ne by congruence. apply Hpos. }
    split.
    { intros pid les. rewrite elem_of_app, list_elem_of_singleton.
      destruct (decide (pid = partitionId)) as [->|Hne].
      - rewrite lookup_insert_eq. intros [= <-]. right. reflexivity.
      - rewrite lookup_insert_ne by congruence. intros H. left. eapply Hmap. exact H. }
    split; [lia|]. split.
    { intros les. rewrite elem_of_app, list_elem_of_singleton.
      intros [Hin| ->]; [apply Hfresh in Hin|]; lia. }
    split.
    { intros les Hin. apply Hdown in Hin. lia. }
    intros les. rewrite elem_of_app, list_elem_of_singleton.
    intros [Hin| ->]; [apply Hlive; exact Hin|exact Hnew'].
Qed.

(** At the cap a partition that is not mapped shares a listed executor, the
    one at the next index, the indices going round. *)
Lemma allocate_shared_ok (partitionId : Z) :
  pid2exec !! partitionId = None ->
  maxThreads <= Z.of_nat (length executors) ->
  (forall les count, refCounts !! les = Some count -> count < 2 ^ 31 - 1) ->
  let index := if Z.of_nat (length executors) <=? nextAlloc then 0 else nextAlloc in
  exists les count,
    executors !! Z.to_nat index = Some les /\ refCounts !! les = Some count /\
    0 <= index < Z.of_nat (length executors) /\
    allocate partitionId
      (running maxThreads nextAlloc executors refCounts pid2exec made down)
    = Return les (running maxThreads (index + 1) executors
                          (<[les := count + 1]> refCounts)
                          (<[partitionId := les]> pid2exec) made down) /\
    running_ok maxThreads (index + 1) executors (<[les := count + 1]> refCounts)
               (<[partitionId := les]> pid2exec) made down.
Proof.
  intros Hpid Hge Hbelow index.
  destruct Hok as (Hmax & Hcap & Hnd & Hdom & Hpos & Hmap & Hnext & Hfresh & Hdown & Hlive).
  assert (0 <= index < Z.of_nat (length executors)) as Hindex.
  { subst index. destruct (Z.leb_spec (Z.of_nat (length executors)) nextAlloc); lia. }
  destruct (lookup_lt_is_Some_2 executors (Z.to_nat index)) as [les Hles]; [lia|].
  assert (les ∈ executors) as Hin by (eapply list_elem_of_lookup_2; exact Hles).
  destruct (proj1 (Hdom les) Hin) as [count Hrc].
  pose proof (Hpos _ _ Hrc) as Hc. pose proof (Hbelow _ _ Hrc) as Hc'.
  exists les, count. split; [exact Hles|]. split; [exact Hrc|]. split; [exact Hindex|].
  split.
  - rewrite allocate_running, Hpid. rewrite (proj2 (Z.ltb_ge _ _)) by exact Hge.
    fold index. cbv zeta.
    rewrite (proj2 (Z.leb_le 0 index)) by lia.
    rewrite (proj2 (Z.ltb_lt index _)) by lia. simpl. rewrite Hles, Hrc.
    rewrite !wrap32_small by lia. reflexivity.
  - unfold running_ok.
    split; [lia|]. split; [lia|]. split; [exact Hnd|]. split.
    { intros les'. destruct (decide (les' = les)) as [->|Hne].
      - rewrite lookup_insert_eq. split; eauto.
      - rewrite lookup_insert_ne by congruence. apply Hdom. }
    split.
    { intros les' count'. destruct (decide (les' = les)) as [->|Hne].
      - rewrite lookup_insert_eq. intros [= <-]. lia.
      - rewrite lookup_insert_ne by congruence. apply Hpos. }
    split.
    { intros pid les'. destruct (decide (pid = partitionId)) as [->|Hne].
      - rewrite lookup_insert_eq. intros [= <-]. exact Hin.
      - rewrite lookup_insert_ne by congruence. apply Hmap. }
    split; [lia|]. split; [exact Hfresh|]. split; [exact Hdown|exact Hlive].
Qed.

(** Releasing for a partition whose executor has other holders. *)
Lemma release_shared_ok (partitionId : Z) (les : executor) (count : Z) :
  pid2exec !! partitionId = Some les -> refCounts !! les = Some count ->
  2 <= count ->
  release partitionId (running maxThreads nextAlloc executors refCounts pid2exec made down)
  = Return tt (running maxThreads nextAlloc executors (<[les := count - 1]> refCounts)
                       pid2exec made down) /\
  running_ok maxThreads nextAlloc executors (<[les := count - 1]> refCounts)
             pid2exec made down.
Proof.
  intros Hpid Hrc Hge.
  destruct Hok as (Hmax & Hcap & Hnd & Hdom & Hpos & Hmap & Hnext & Hfresh & Hdown & Hlive).
  pose proof (Hpos _ _ Hrc) as Hc. split.
  - rewrite release_running, Hpid, Hrc. rewrite wrap32_small by lia.
    rewrite (proj2 (Z.ltb_ge _ _)) by lia.
    rewrite (proj2 (Z.eqb_neq _ _)) by lia. reflexivity.
  - unfold running_ok.
    split; [lia|]. split; [lia|]. split; [exact Hnd|]. split.
    { intros les'. destruct (decide (les' = les)) as [->|Hne].
      - rewrite lookup_insert_eq. split; [eauto|]. intros _. apply Hdom. eauto.
      - rewrite lookup_insert_ne by congruence. apply Hdom. }
    split.
    { intros les' count'. destruct (decide (les' = les)) as [->|Hne].
      - rewrite lookup_insert_eq. intros [= <-]. lia.
      - rewrite lookup_insert_ne by congruence. apply Hpos. }
    split; [exact Hmap|]. split; [lia|].
    split; [exact Hfresh|]. split; [exact Hdown|exact Hlive].
Qed.

(** Releasing for the last holder of an executor. *)
Lemma release_last_ok (partitionId : Z) (les : executor) :
  pid2exec !! partitionId = Some les -> refCounts !! les = Some 1 ->
  let executors' := remove_first les executors in
  let nextAlloc' := if Z.of_nat (length executors') <? nextAlloc then 0 else nextAlloc in
  let pid2exec' := filter (fun kv => snd kv <> les) pid2exec in
  release partitionId (running maxThreads nextAlloc executors refCounts pid2exec made down)
  = Return tt (running maxThreads nextAlloc' executors' (delete les refCounts)
                       pid2exec' made (les :: down)) /\
  running_ok maxThreads nextAlloc' executors' (delete les refCounts) pid2exec'
             made (les :: down) /\
  S (length executors') = length executors.
Proof.
  intros Hpid Hrc executors' nextAlloc' pid2exec'.
  destruct Hok as (Hmax & Hcap & Hnd & Hdom & Hpos & Hmap & Hnext & Hfresh & Hdown & Hlive).
  assert (les ∈ executors) as Hin by (eapply Hmap; exact Hpid).
  pose proof (length_remove_first les executors Hin) as Hlen. fold executors' in Hlen.
  split; [|split; [|exact Hlen]].
  - rewrite release_running, Hpid, Hrc. reflexivity.
  - unfold running_ok.
    split; [lia|]. split; [lia|]. split; [apply NoDup_remove_first; exact Hnd|]. split.
    { intros les'. unfold executors'. rewrite (elem_of_remove_first les les' executors Hnd).
      destruct (decide (les' = les)) as [->|Hne].
      - rewrite lookup_delete_eq. split; [intros [_ H]; contradiction|].
        intros [x Hx]. discriminate.
      - rewrite lookup_delete_ne by congruence. rewrite <- Hdom. tauto. }
    split.
    { intros les' count'. destruct (decide (les' = les)) as [->|Hne].
      - rewrite lookup_delete_eq. discriminate.
      - rewrite lookup_delete_ne by congruence. apply Hpos. }
    split.
    { intros pid les' Hl. unfold pid2exec' in Hl.
      apply map_lookup_filter_Some in Hl as [Hl Hne]. simpl in Hne.
      unfold executors'. apply (elem_of_remove_first les les' executors Hnd).
      split; [eapply Hmap; exact Hl|exact Hne]. }
    split.
    { subst nextAlloc'. destruct (Z.ltb_spec (Z.of_nat (length executors')) nextAlloc); lia. }
    split.
    { intros les' Hl. apply (elem_of_remove_first les les' executors Hnd) in Hl as [Hl _].
      apply Hfresh. exact Hl. }
    split.
    { intros les' Hl. apply elem_of_cons in Hl as [->|Hl]; [apply Hfresh; exact Hin|].
      apply Hdown. exact Hl. }
    intros les' Hl. apply (elem_of_remove_first les les' executors Hnd) in Hl as [Hl Hne].
    intros Hd. apply elem_of_cons in Hd as [->|Hd]; [contradiction|].
    apply (Hlive les' Hl Hd).
Qed.

End Running.

Lemma getExecutor_running (env : Environment) (partitionId maxThreads nextAlloc : Z)
    (executors : list executor) (refCounts : gmap executor Z) (pid2exec : gmap Z executor)
    (made : nat) (down : list executor) :
  getExecutor env partitionId
    (running maxThreads nextAlloc executors refCounts pid2exec made down)
  = allocate partitionId
      (running maxThreads nextAlloc executors refCounts pid2exec made down).
Proof. reflexivity. Qed.

Lemma freeExecutor_running (partitionId maxThreads nextAlloc : Z)
    (executors : list executor) (refCounts : gmap executor Z) (pid2exec : gmap Z executor)
    (made : nat) (down : list executor) :
  freeExecutor partitionId
    (running maxThreads nextAlloc executors refCounts pid2exec made down)
  = release partitionId
      (running maxThreads nextAlloc executors refCounts pid2exec made down).
Proof. reflexivity. Qed.

Lemma running_ok_started (maxThreads : Z) (made : nat) (down : list executor) :
  1 <= maxThreads < 2 ^ 31 -> (forall les, les ∈ down -> (les < made)%nat) ->
  running_ok maxThreads 0 [] ∅ ∅ made down.
Proof.
  intros Hmax Hdown. unfold running_ok. simpl.
  split; [exact Hmax|]. split; [lia|]. split; [constructor|]. split.
  { intros les. rewrite lookup_empty. split; [intros H; inversion H|intros [x Hx]; discriminate]. }
  split; [intros les count; rewrite lookup_empty; discriminate|].
  split; [intros pid les; rewrite lookup_empty; discriminate|].
  split; [lia|]. split; [intros les H; inversion H|].
  split; [exact Hdown|intros les H; inversion H].
Qed.

(** The factory of the examples is in order. *)
Lemma demo_started_ok : running_ok 2 0 [] ∅ ∅ 0 [].
Proof. apply running_ok_started; [lia|]. intros les H. inversion H. Qed.

Lemma demo_one_ok :
  running_ok 2 0 [0%nat] (<[0%nat := 1]> ∅) (<[10 := 0%nat]> ∅) 1 [].
Proof.
  exact (proj1 (proj2 (allocate_new_ok 2 0 [] ∅ ∅ 0 [] demo_started_ok 10
                         (lookup_empty _) ltac:(simpl; lia)))).
Qed.

Lemma demo_two_ok :
  running_ok 2 0 [0; 1]%nat (<[1%nat := 1]> (<[0%nat := 1]> ∅))
             (<[11 := 1%nat]> (<[10 := 0%nat]> ∅)) 2 [].
Proof.
  exact (proj1 (proj2 (allocate_new_ok 2 0 [0%nat] _ _ 1 [] demo_one_ok 11
                         eq_refl ltac:(simpl; lia)))).
Qed.

Lemma demo_two_below (les : executor) (count : Z) :
  (<[1%nat := 1]> (<[0%nat := 1]> (∅ : gmap executor Z))) !! les = Some count ->
  count < 2 ^ 31 - 1.
Proof.
  destruct (decide (les = 1%nat)) as [->|H1].
  - rewrite lookup_insert_eq. intros [= <-]. lia.
  - rewrite lookup_insert_ne by congruence.
    destruct (decide (les = 0%nat)) as [->|H0].
    + rewrite lookup_insert_eq. intros [= <-]. lia.
    + rewrite lookup_insert_ne by congruence. rewrite lookup_empty. discriminate.
Qed.

Lemma demo_two_consistent : consistent demo_two.
Proof. do 7 eexists. split; [reflexivity|exact demo_two_ok]. Qed.

Lemma demo_two_counts_below : counts_below demo_two (2 ^ 31 - 1).
Proof.
  intros les count (rc & Hrc & Hl). injection Hrc as <-. exact (demo_two_below les count Hl).
Qed.

Lemma getMinThreads_ge (env : Environment) : 2 <= getMinThreads env.
Proof. unfold getMinThreads. lia. Qed.

(** ** Initialization *)

(** X17: when the local sites count is not negative, the first
    initialization succeeds and leaves a factory without executors whose
    thread limit is at least 1: the smaller of the configured number and
    the local sites count when both are 1 or more, and the minimal number
    of threads, which is at least 2, when the configured number is below 1
    or the local sites count is 0.  Initializing again, under any
    environment, changes nothing. *)
Theorem initialize_settles_threads
    (env : Environment) (made : nat) (down : list executor) :
  0 <= getLocalSitesCount env ->
  settled_threads env < 2 ^ 31 ->
  (forall les, les ∈ down -> (les < made)%nat) ->
  exists f,
    initialize env (ExecutorFactory_new made down) = Return tt f /\
    consistent f /\
    getMaxThreadCount f = Return (settled_threads env) f /\
    getCurrentThreadCount f = Return 0 f /\
    1 <= settled_threads env /\
    (1 <= getConfigMaxThreads env -> 1 <= getLocalSitesCount env ->
     settled_threads env = Z.min (getConfigMaxThreads env) (getLocalSitesCount env)) /\
    (getConfigMaxThreads env < 1 \/ getLocalSitesCount env = 0 ->
     settled_threads env = getMinThreads env /\ 2 <= getMinThreads env) /\
    (forall env', initialize env' f = Return tt f).
Proof.
  intros Hlsc Hint Hdown. pose proof (getMinThreads_ge env) as Hmin.
  assert (1 <= settled_threads env) as Hone.
  { unfold settled_threads.
    destruct (Z.ltb_spec (getConfigMaxThreads env) 1); [lia|].
    destruct (Z.eqb_spec (getLocalSitesCount env) 0); [lia|].
    destruct (Z.ltb_spec (getLocalSitesCount env) (getConfigMaxThreads env)); lia. }
  exists (running (settled_threads env) 0 [] ∅ ∅ made down).
  split; [rewrite initialize_new, (proj2 (Z.ltb_ge _ _)) by lia; reflexivity|].
  split.
  { do 7 eexists. split; [reflexivity|]. apply running_ok_started; [lia|exact Hdown]. }
  split; [reflexivity|]. split; [reflexivity|]. split; [exact Hone|].
  split; [|split; [|intros env'; reflexivity]].
  - intros Hc Hl. unfold settled_threads.
    rewrite (proj2 (Z.ltb_ge _ _)) by lia.
    rewrite (proj2 (Z.eqb_neq _ _)) by lia.
    destruct (Z.ltb_spec (getLocalSitesCount env) (getConfigMaxThreads env)); lia.
  - intros Hcase. split; [|exact Hmin]. unfold settled_threads.
    destruct (Z.ltb_spec (getConfigMaxThreads env) 1); [reflexivity|].
    destruct (Z.eqb_spec (getLocalSitesCount env) 0); [reflexivity|lia].
Qed.

Lemma initialize_settles_threads_witness :
  0 <= getLocalSitesCount demo_env /\
  settled_threads demo_env < 2 ^ 31 /\
  exists f,
    initialize demo_env (ExecutorFactory_new 0 []) = Return tt f /\
    consistent f /\
    getMaxThreadCount f = Return (settled_threads demo_env) f /\
    getCurrentThreadCount f = Return 0 f /\
    1 <= settled_threads demo_env /\
    (1 <= getConfigMaxThreads demo_env -> 1 <= getLocalSitesCount demo_env ->
     settled_threads demo_env
     = Z.min (getConfigMaxThreads demo_env) (getLocalSitesCount demo_env)) /\
    (getConfigMaxThreads demo_env < 1 \/ getLocalSitesCount demo_env = 0 ->
     settled_threads demo_env = getMinThreads demo_env /\ 2 <= getMinThreads demo_env) /\
    (forall env', initialize env' f = Return tt f).
Proof.
  assert (0 <= getLocalSitesCount demo_env) as H0 by (vm_compute; discriminate).
  assert (settled_threads demo_env < 2 ^ 31) as H1 by (vm_compute; reflexivity).
  split; [exact H0|]. split; [exact H1|].
  apply (initialize_settles_threads demo_env 0 [] H0 H1).
  intros les H. inversion H.
Defined.

(** X18: a first initialization under a negative local sites count fails
    and is not tried again: the thread limit settles on that negative
    count, making the list of executors throws an
    [IllegalArgumentException], and the factory is left with its limit set
    and its collections [null], so that it counts as initialized and every
    later [getExecutor] and [freeExecutor] throws a
    [NullPointerException]. *)
Theorem failed_initialization_is_not_retried
    (env : Environment) (partitionId : Z) (made : nat) (down : list executor) :
  settled_threads env < 0 ->
  exists f,
    getExecutor env partitionId (ExecutorFactory_new made down)
    = Throw IllegalArgumentException f /\
    getMaxThreadCount f = Return (getLocalSitesCount env) f /\
    1 <= getConfigMaxThreads env /\ getLocalSitesCount env < 0 /\
    (forall env' partitionId',
       getExecutor env' partitionId' f = Throw NullPointerException f) /\
    (forall partitionId', freeExecutor partitionId' f = Throw NullPointerException f).
Proof.
  intros Hneg. pose proof (getMinThreads_ge env) as Hmin.
  assert (settled_threads env = getLocalSitesCount env /\
          1 <= getConfigMaxThreads env /\ getLocalSitesCount env < 0) as (Heq & Hc & Hl).
  { unfold settled_threads in *.
    destruct (Z.ltb_spec (getConfigMaxThreads env) 1); [lia|].
    destruct (Z.eqb_spec (getLocalSitesCount env) 0); [lia|].
    destruct (Z.ltb_spec (getLocalSitesCount env) (getConfigMaxThreads env)); lia. }
  eexists. split.
  { unfold getExecutor, bind. rewrite initialize_new.
    rewrite (proj2 (Z.ltb_lt _ _)) by exact Hneg. reflexivity. }
  split; [rewrite Heq; reflexivity|]. split; [exact Hc|]. split; [exact Hl|].
  split; intros; reflexivity.
Qed.

Lemma failed_initialization_is_not_retried_witness :
  settled_threads {| availableProcessors := 8; maxExportThreadsProperty := Some 4;
                     nodeLocalSitesCount := Some (-1) |} < 0 /\
  exists f,
    getExecutor {| availableProcessors := 8; maxExportThreadsProperty := Some 4;
                   nodeLocalSitesCount := Some (-1) |} 10 (ExecutorFactory_new 0 [])
    = Throw IllegalArgumentException f /\
    getMaxThreadCount f
    = Return (getLocalSitesCount
                {| availableProcessors := 8; maxExportThreadsProperty := Some 4;
                   nodeLocalSitesCount := Some (-1) |}) f /\
    1 <= getConfigMaxThreads
           {| availableProcessors := 8; maxExportThreadsProperty := Some 4;
              nodeLocalSitesCount := Some (-1) |} /\
    getLocalSitesCount {| availableProcessors := 8; maxExportThreadsProperty := Some 4;
                          nodeLocalSitesCount := Some (-1) |} < 0 /\
    (forall env' partitionId',
       getExecutor env' partitionId' f = Throw NullPointerException f) /\
    (forall partitionId', freeExecutor partitionId' f = Throw NullPointerException f).
Proof.
  assert (settled_threads {| availableProcessors := 8; maxExportThreadsProperty := Some 4;
                             nodeLocalSitesCount := Some (-1) |} < 0) as Hneg
    by (vm_compute; reflexivity).
  split; [exact Hneg|].
  exact (failed_initialization_is_not_retried _ 10 0 [] Hneg).
Defined.

(** X19: before the first [getExecutor] the factory is not initialized:
    [freeExecutor] throws an [IllegalStateException], and
    [getMaxThreadCount] and [getCurrentThreadCount] throw a
    [NullPointerException], the first on unboxing the limit that is still
    [null], the second on the list of executors that is still [null]; the
    factory is left as it was. *)
Theorem uninitialized_use_throws (partitionId : Z) (made : nat) (down : list executor) :
  freeExecutor partitionId (ExecutorFactory_new made down)
  = Throw (IllegalStateException FreesUninitialized) (ExecutorFactory_new made down) /\
  getMaxThreadCount (ExecutorFactory_new made down)
  = Throw NullPointerException (ExecutorFactory_new made down) /\
  getCurrentThreadCount (ExecutorFactory_new made down)
  = Throw NullPointerException (ExecutorFactory_new made down).
Proof. repeat split. Qed.

(** ** Getting and freeing executors *)

(** What can be seen of an initialized factory in order. *)
Lemma running_observe (maxThreads nextAlloc : Z) (executors : list executor)
    (refCounts : gmap executor Z) (pid2exec : gmap Z executor)
    (made : nat) (down : list executor) (partitionId : Z) (les : executor) :
  running_ok maxThreads nextAlloc executors refCounts pid2exec made down ->
  pid2exec !! partitionId = Some les ->
  let f := running maxThreads nextAlloc executors refCounts pid2exec made down in
  consistent f /\ mapped f partitionId les /\ listed f les /\ (les ∉ shutdowns f) /\
  (exists count, count_of f les count /\ 1 <= count) /\
  exists n m,
    getCurrentThreadCount f = Return n f /\ getMaxThreadCount f = Return m f /\ n <= m.
Proof.
  intros Hok Hpid f.
  pose proof Hok as (Hmax & Hcap & Hnd & Hdom & Hpos & Hmap & Hnext & Hfresh & Hdown & Hlive).
  assert (les ∈ executors) as Hin by (eapply Hmap; exact Hpid).
  destruct (proj1 (Hdom les) Hin) as [count Hrc].
  split; [do 7 eexists; split; [reflexivity|exact Hok]|].
  split; [eexists; split; [reflexivity|exact Hpid]|].
  split; [eexists; split; [reflexivity|exact Hin]|].
  split; [apply Hlive; exact Hin|].
  split; [exists count; split; [eexists; split; [reflexivity|exact Hrc]|apply (Hpos _ _ Hrc)]|].
  exists (Z.of_nat (length executors)), maxThreads.
  split; [reflexivity|]. split; [reflexivity|exact Hcap].
Qed.

(** X20: on a factory in order whose counts are below the largest [int],
    [getExecutor] does not throw; it leaves the factory in order, with the
    partition mapped to the executor it returns, which is listed, counted
    at least once and not shut down, and with no more executors than the
    thread limit. *)
Theorem getExecutor_keeps_consistent
    (env : Environment) (partitionId : Z) (f : factory) :
  consistent f -> counts_below f (2 ^ 31 - 1) ->
  exists les f',
    getExecutor env partitionId f = Return les f' /\
    consistent f' /\ mapped f' partitionId les /\ listed f' les /\
    (les ∉ shutdowns f') /\
    (exists count, count_of f' les count /\ 1 <= count) /\
    exists n m,
      getCurrentThreadCount f' = Return n f' /\ getMaxThreadCount f' = Return m f' /\
      n <= m.
Proof.
  intros (maxThreads & nextAlloc & executors & refCounts & pid2exec & made & down & -> & Hok)
         Hbelow.
  assert (forall les count, refCounts !! les = Some count -> count < 2 ^ 31 - 1) as Hb.
  { intros les count Hrc. apply (Hbelow les count). eexists. split; [reflexivity|exact Hrc]. }
  rewrite getExecutor_running.
  destruct (pid2exec !! partitionId) as [les|] eqn:Hpid.
  - pose proof Hok as (_ & _ & _ & Hdom & _ & Hmap & _).
    destruct (proj1 (Hdom les) (Hmap _ _ Hpid)) as [count Hrc].
    destruct (allocate_mapped_ok _ _ _ _ _ _ _ Hok partitionId les count Hpid Hrc
                (Hb _ _ Hrc)) as [Hrun Hok'].
    eexists. eexists. split; [exact Hrun|].
    exact (running_observe _ _ _ _ _ _ _ partitionId les Hok' Hpid).
  - destruct (Z.lt_ge_cases (Z.of_nat (length executors)) maxThreads) as [Hlt|Hge].
    + destruct (allocate_new_ok _ _ _ _ _ _ _ Hok partitionId Hpid Hlt) as (Hrun & Hok' & _).
      eexists. eexists. split; [exact Hrun|].
      apply (running_observe _ _ _ _ _ _ _ partitionId made Hok').
      apply lookup_insert_eq.
    + destruct (allocate_shared_ok _ _ _ _ _ _ _ Hok partitionId Hpid Hge Hb)
        as (les & count & _ & _ & _ & Hrun & Hok').
      eexists. eexists. split; [exact Hrun|].
      apply (running_observe _ _ _ _ _ _ _ partitionId les Hok').
      apply lookup_insert_eq.
Qed.

Lemma getExecutor_keeps_consistent_witness :
  consistent demo_two /\ counts_below demo_two (2 ^ 31 - 1) /\
  exists les f',
    getExecutor demo_env 12 demo_two = Return les f' /\
    consistent f' /\ mapped f' 12 les /\ listed f' les /\
    (les ∉ shutdowns f') /\
    (exists count, count_of f' les count /\ 1 <= count) /\
    exists n m,
      getCurrentThreadCount f' = Return n f' /\ getMaxThreadCount f' = Return m f' /\
      n <= m.
Proof.
  split; [exact demo_two_consistent|]. split; [exact demo_two_counts_below|].
  exact (getExecutor_keeps_consistent demo_env 12 demo_two
           demo_two_consistent demo_two_counts_below).
Defined.

(** X21: a partition that is mapped gets the executor it is mapped to: the
    count of that executor goes up by one and nothing else changes, no
    executor being made. *)
Theorem mapped_partition_gets_its_executor
    (env : Environment) (partitionId : Z) (f : factory) (les : executor) (count : Z) :
  consistent f -> mapped f partitionId les -> count_of f les count ->
  count < 2 ^ 31 - 1 ->
  exists f',
    getExecutor env partitionId f = Return les f' /\
    count_of f' les (count + 1) /\
    (forall les' count', les' <> les -> count_of f' les' count' <-> count_of f les' count') /\
    m_executors f' = m_executors f /\ m_pid2execMap f' = m_pid2execMap f /\
    m_maxThreads f' = m_maxThreads f /\ m_nextAlloc f' = m_nextAlloc f /\
    created f' = created f /\ shutdowns f' = shutdowns f.
Proof.
  intros (maxThreads & nextAlloc & executors & refCounts & pid2exec & made & down & -> & Hok)
         (pm & [= <-] & Hpid) (rc & [= <-] & Hrc) Hlt.
  destruct (allocate_mapped_ok _ _ _ _ _ _ _ Hok partitionId les count Hpid Hrc Hlt)
    as [Hrun _].
  eexists. split; [rewrite getExecutor_running; exact Hrun|].
  split; [eexists; split; [reflexivity|apply lookup_insert_eq]|].
  split; [|repeat split].
  intros les' count' Hne. unfold count_of. simpl. split.
  - intros (rc' & [= <-] & Hl). rewrite lookup_insert_ne in Hl by congruence. eauto.
  - intros (rc' & [= <-] & Hl). eexists. split; [reflexivity|].
    rewrite lookup_insert_ne by congruence. exact Hl.
Qed.

Lemma demo_two_mapped : mapped demo_two 10 0%nat.
Proof. eexists. split; reflexivity. Qed.

Lemma demo_two_count : count_of demo_two 0%nat 1.
Proof. eexists. split; reflexivity. Qed.

Lemma mapped_partition_gets_its_executor_witness :
  consistent demo_two /\ mapped demo_two 10 0%nat /\ count_of demo_two 0%nat 1 /\
  exists f',
    getExecutor demo_env 10 demo_two = Return 0%nat f' /\
    count_of f' 0%nat (1 + 1) /\
    (forall les' count',
       les' <> 0%nat -> count_of f' les' count' <-> count_of demo_two les' count') /\
    m_executors f' = m_executors demo_two /\ m_pid2execMap f' = m_pid2execMap demo_two /\
    m_maxThreads f' = m_maxThreads demo_two /\ m_nextAlloc f' = m_nextAlloc demo_two /\
    created f' = created demo_two /\ shutdowns f' = shutdowns demo_two.
Proof.
  split; [exact demo_two_consistent|]. split; [exact demo_two_mapped|].
  split; [exact demo_two_count|].
  apply (mapped_partition_gets_its_executor demo_env 10 demo_two 0%nat 1
           demo_two_consistent demo_two_mapped demo_two_count). lia.
Defined.

(** X22: for a partition that is mapped, [getExecutor] followed by
    [freeExecutor] leaves the factory exactly as it was. *)
Theorem get_then_free_restores
    (env : Environment) (partitionId : Z) (f : factory) (les : executor) (count : Z) :
  consistent f -> mapped f partitionId les -> count_of f les count ->
  count < 2 ^ 31 - 1 ->
  exists f1,
    getExecutor env partitionId f = Return les f1 /\
    freeExecutor partitionId f1 = Return tt f.
Proof.
  intros (maxThreads & nextAlloc & executors & refCounts & pid2exec & made & down & -> & Hok)
         (pm & [= <-] & Hpid) (rc & [= <-] & Hrc) Hlt.
  destruct (allocate_mapped_ok _ _ _ _ _ _ _ Hok partitionId les count Hpid Hrc Hlt)
    as [Hrun Hok'].
  pose proof Hok as (_ & _ & _ & _ & Hpos & _).
  pose proof (Hpos _ _ Hrc) as Hc.
  destruct (release_shared_ok _ _ _ _ _ _ _ Hok' partitionId les (count + 1) Hpid
              (lookup_insert_eq _ _ _) ltac:(lia)) as [Hrel _].
  eexists. split; [rewrite getExecutor_running; exact Hrun|].
  rewrite freeExecutor_running, Hrel. f_equal. f_equal.
  rewrite insert_insert_eq. replace (count + 1 - 1) with count by lia.
  apply insert_id. exact Hrc.
Qed.

Lemma get_then_free_restores_witness :
  consistent demo_two /\ mapped demo_two 10 0%nat /\ count_of demo_two 0%nat 1 /\
  exists f1,
    getExecutor demo_env 10 demo_two = Return 0%nat f1 /\
    freeExecutor 10 f1 = Return tt demo_two.
Proof.
  split; [exact demo_two_consistent|]. split; [exact demo_two_mapped|].
  split; [exact demo_two_count|].
  apply (get_then_free_restores demo_env 10 demo_two 0%nat 1
           demo_two_consistent demo_two_mapped demo_two_count). lia.
Defined.

(** X23: on an initialized factory, [freeExecutor] for a partition that is
    not mapped throws an [IllegalStateException] and changes nothing. *)
Theorem freeExecutor_unmapped_throws (partitionId : Z) (f : factory) (maxThreads : Z) :
  m_maxThreads f = Some maxThreads -> unmapped f partitionId ->
  freeExecutor partitionId f = Throw (IllegalStateException FreesUnallocated) f.
Proof.
  intros Hinit (pm & Hpm & Hpid).
  unfold freeExecutor, isInitialized, release, pid2execMap_get, bind, gets, deref, ret.
  rewrite Hinit. simpl. rewrite Hpm, Hpid. reflexivity.
Qed.

Lemma freeExecutor_unmapped_throws_witness :
  m_maxThreads demo_two = Some 2 /\ unmapped demo_two 12 /\
  freeExecutor 12 demo_two = Throw (IllegalStateException FreesUnallocated) demo_two.
Proof.
  assert (unmapped demo_two 12) as Hun by (eexists; split; reflexivity).
  split; [reflexivity|]. split; [exact Hun|].
  exact (freeExecutor_unmapped_throws 12 demo_two 2 eq_refl Hun).
Defined.

(** X24: [freeExecutor] for a partition whose executor is counted once
    shuts that executor down and drops it from the list, so that there is
    one thread less; every partition that was mapped to it is mapped no
    more, the other partitions and the other counts are as before, and the
    factory is still in order. *)
Theorem last_free_shuts_down (partitionId : Z) (f : factory) (les : executor) :
  consistent f -> mapped f partitionId les -> count_of f les 1 ->
  exists f',
    freeExecutor partitionId f = Return tt f' /\
    consistent f' /\
    ~ listed f' les /\
    shutdowns f' = les :: shutdowns f /\
    (forall partitionId', mapped f partitionId' les -> unmapped f' partitionId') /\
    (forall partitionId' les',
       les' <> les -> mapped f' partitionId' les' <-> mapped f partitionId' les') /\
    (forall les' count', les' <> les -> count_of f' les' count' <-> count_of f les' count') /\
    exists n,
      getCurrentThreadCount f = Return (n + 1) f /\ getCurrentThreadCount f' = Return n f'.
Proof.
  intros (maxThreads & nextAlloc & executors & refCounts & pid2exec & made & down & -> & Hok)
         (pm & [= <-] & Hpid) (rc & [= <-] & Hrc).
  destruct (release_last_ok _ _ _ _ _ _ _ Hok partitionId les Hpid Hrc)
    as (Hrel & Hok' & Hlen).
  pose proof Hok as (_ & _ & Hnd & _).
  eexists. split; [rewrite freeExecutor_running; exact Hrel|].
  split; [do 7 eexists; split; [reflexivity|exact Hok']|].
  split.
  { intros (ex & [= <-] & Hin).
    apply (elem_of_remove_first les les executors Hnd) in Hin as [_ Hne]. congruence. }
  split; [reflexivity|]. split.
  { intros pid' (pm & [= <-] & Hpid'). eexists. split; [reflexivity|].
    destruct (filter (fun kv => snd kv <> les) pid2exec !! pid') as [v|] eqn:Hv;
      [|reflexivity].
    apply map_lookup_filter_Some in Hv as [Hv Hne]. simpl in Hne. congruence. }
  split.
  { intros pid' les' Hne. unfold mapped. simpl. split.
    - intros (pm & [= <-] & Hl). apply map_lookup_filter_Some in Hl as [Hl _]. eauto.
    - intros (pm & [= <-] & Hl). eexists. split; [reflexivity|].
      apply map_lookup_filter_Some. split; [exact Hl|exact Hne]. }
  split.
  { intros les' count' Hne. unfold count_of. simpl. split.
    - intros (rc & [= <-] & Hl). rewrite lookup_delete_ne in Hl by congruence. eauto.
    - intros (rc & [= <-] & Hl). eexists. split; [reflexivity|].
      rewrite lookup_delete_ne by congruence. exact Hl. }
  exists (Z.of_nat (length (remove_first les executors))). split; [|reflexivity].
  unfold getCurrentThreadCount, executors_size, bind, deref, ret. simpl.
  f_equal. lia.
Qed.

Lemma last_free_shuts_down_witness :
  consistent demo_two /\ mapped demo_two 10 0%nat /\ count_of demo_two 0%nat 1 /\
  exists f',
    freeExecutor 10 demo_two = Return tt f' /\
    consistent f' /\
    ~ listed f' 0%nat /\
    shutdowns f' = 0%nat :: shutdowns demo_two /\
    (forall partitionId', mapped demo_two partitionId' 0%nat -> unmapped f' partitionId') /\
    (forall partitionId' les',
       les' <> 0%nat -> mapped f' partitionId' les' <-> mapped demo_two partitionId' les') /\
    (forall les' count',
       les' <> 0%nat -> count_of f' les' count' <-> count_of demo_two les' count') /\
    exists n,
      getCurrentThreadCount demo_two = Return (n + 1) demo_two /\
      getCurrentThreadCount f' = Return n f'.
Proof.
  split; [exact demo_two_consistent|]. split; [exact demo_two_mapped|].
  split; [exact demo_two_count|].
  exact (last_free_shuts_down 10 demo_two 0%nat
           demo_two_consistent demo_two_mapped demo_two_count).
Defined.

(** X25: at the thread limit a partition that is not mapped shares an
    executor that is listed, without one being made: it gets the executor
    at the index of the next allocation, or the first one when that index
    has reached the end of the list, its count goes up by one, and the
    index of the next allocation becomes the one after it. *)
Theorem shared_at_limit_in_turn
    (env : Environment) (partitionId : Z) (f : factory)
    (executors : list executor) (maxThreads : Z) :
  consistent f -> counts_below f (2 ^ 31 - 1) -> unmapped f partitionId ->
  m_executors f = Some executors -> m_maxThreads f = Some maxThreads ->
  maxThreads <= Z.of_nat (length executors) ->
  let index := if Z.of_nat (length executors) <=? m_nextAlloc f then 0 else m_nextAlloc f in
  exists les count f',
    executors !! Z.to_nat index = Some les /\
    count_of f les count /\
    getExecutor env partitionId f = Return les f' /\
    consistent f' /\ mapped f' partitionId les /\
    count_of f' les (count + 1) /\
    m_nextAlloc f' = index + 1 /\
    m_executors f' = Some executors /\
    created f' = created f /\ shutdowns f' = shutdowns f.
Proof.
  intros (maxT & nextAlloc & execs & refCounts & pid2exec & made & down & -> & Hok)
         Hbelow (pm & [= <-] & Hpid) [= <-] [= <-] Hge index.
  assert (forall les count, refCounts !! les = Some count -> count < 2 ^ 31 - 1) as Hb.
  { intros les count Hrc. apply (Hbelow les count). eexists. split; [reflexivity|exact Hrc]. }
  destruct (allocate_shared_ok _ _ _ _ _ _ _ Hok partitionId Hpid Hge Hb)
    as (les & count & Hles & Hrc & _ & Hrun & Hok').
  exists les, count. eexists.
  split; [exact Hles|]. split; [eexists; split; [reflexivity|exact Hrc]|].
  split; [rewrite getExecutor_running; exact Hrun|].
  split; [do 7 eexists; split; [reflexivity|exact Hok']|].
  split; [eexists; split; [reflexivity|apply lookup_insert_eq]|].
  split; [eexists; split; [reflexivity|apply lookup_insert_eq]|].
  repeat split.
Qed.

Lemma shared_at_limit_in_turn_witness :
  consistent demo_two /\ counts_below demo_two (2 ^ 31 - 1) /\ unmapped demo_two 12 /\
  m_executors demo_two = Some [0; 1]%nat /\ m_maxThreads demo_two = Some 2 /\
  exists les count f',
    [0; 1]%nat !! Z.to_nat 0 = Some les /\
    count_of demo_two les count /\
    getExecutor demo_env 12 demo_two = Return les f' /\
    consistent f' /\ mapped f' 12 les /\
    count_of f' les (count + 1) /\
    m_nextAlloc f' = 0 + 1 /\
    m_executors f' = Some [0; 1]%nat /\
    created f' = created demo_two /\ shutdowns f' = shutdowns demo_two.
Proof.
  assert (unmapped demo_two 12) as Hun by (eexists; split; reflexivity).
  split; [exact demo_two_consistent|]. split; [exact demo_two_counts_below|].
  split; [exact Hun|]. split; [reflexivity|]. split; [reflexivity|].
  apply (shared_at_limit_in_turn demo_env 12 demo_two [0; 1]%nat 2
           demo_two_consistent demo_two_counts_below Hun eq_refl eq_refl).
  simpl. lia.
Defined.

(** X26: below the thread limit a partition that is not mapped gets an
    executor of its own: one that was not listed and was never shut down
    is made, goes to the end of the list counted once, and the partition
    is mapped to it; the other partitions are mapped as before. *)
Theorem new_executor_below_limit
    (env : Environment) (partitionId : Z) (f : factory)
    (executors : list executor) (maxThreads : Z) :
  consistent f -> unmapped f partitionId ->
  m_executors f = Some executors -> m_maxThreads f = Some maxThreads ->
  Z.of_nat (length executors) < maxThreads ->
  exists les f',
    getExecutor env partitionId f = Return les f' /\
    ~ listed f les /\ (les ∉ shutdowns f) /\
    consistent f' /\ mapped f' partitionId les /\
    count_of f' les 1 /\
    m_executors f' = Some (executors ++ [les]) /\
    (forall partitionId' les',
       partitionId' <> partitionId ->
       mapped f' partitionId' les' <-> mapped f partitionId' les').
Proof.
  intros (maxT & nextAlloc & execs & refCounts & pid2exec & made & down & -> & Hok)
         (pm & [= <-] & Hpid) [= <-] [= <-] Hlt.
  destruct (allocate_new_ok _ _ _ _ _ _ _ Hok partitionId Hpid Hlt)
    as (Hrun & Hok' & Hnew & Hnew').
  exists made. eexists.
  split; [rewrite getExecutor_running; exact Hrun|].
  split; [intros (ex & [= <-] & Hin); contradiction|].
  split; [exact Hnew'|].
  split; [do 7 eexists; split; [reflexivity|exact Hok']|].
  split; [eexists; split; [reflexivity|apply lookup_insert_eq]|].
  split; [eexists; split; [reflexivity|apply lookup_insert_eq]|].
  split; [reflexivity|].
  intros pid' les' Hne. unfold mapped. simpl. split.
  - intros (pm & [= <-] & Hl). rewrite lookup_insert_ne in Hl by congruence. eauto.
  - intros (pm & [= <-] & Hl). eexists. split; [reflexivity|].
    rewrite lookup_insert_ne by congruence. exact Hl.
Qed.

Lemma demo_started_consistent : consistent demo_started.
Proof. do 7 eexists. split; [reflexivity|exact demo_started_ok]. Qed.

Lemma new_executor_below_limit_witness :
  consistent demo_started /\ unmapped demo_started 10 /\
  m_executors demo_started = Some [] /\ m_maxThreads demo_started = Some 2 /\
  exists les f',
    getExecutor demo_env 10 demo_started = Return les f' /\
    ~ listed demo_started les /\ (les ∉ shutdowns demo_started) /\
    consistent f' /\ mapped f' 10 les /\
    count_of f' les 1 /\
    m_executors f' = Some ([] ++ [les]) /\
    (forall partitionId' les',
       partitionId' <> 10 ->
       mapped f' partitionId' les' <-> mapped demo_started partitionId' les').
Proof.
  assert (unmapped demo_started 10) as Hun by (eexists; split; reflexivity).
  split; [exact demo_started_consistent|]. split; [exact Hun|].
  split; [reflexivity|]. split; [reflexivity|].
  apply (new_executor_below_limit demo_env 10 demo_started [] 2
           demo_started_consistent Hun eq_refl eq_refl).
  simpl. lia.
Defined.

(** ** The counts and the holders *)

Lemma holding_cons (pid2exec : gmap Z executor) (les : executor) (h : Z) (holders : list Z) :
  holding pid2exec les (h :: holders)
  = if decide (pid2exec !! h = Some les) then S (holding pid2exec les holders)
    else holding pid2exec les holders.
Proof.
  unfold holding. destruct (decide (pid2exec !! h = Some les)) as [Hy|Hn].
  - rewrite filter_cons_True by exact Hy. reflexivity.
  - rewrite filter_cons_False by exact Hn. reflexivity.
Qed.

Lemma holding_ext (pid2exec pid2exec' : gmap Z executor) (les : executor)
    (holders : list Z) :
  (forall h, h ∈ holders -> pid2exec !! h = Some les <-> pid2exec' !! h = Some les) ->
  holding pid2exec les holders = holding pid2exec' les holders.
Proof.
  induction holders as [|h holders IH]; intros Hext; [reflexivity|].
  rewrite !holding_cons.
  rewrite IH by (intros x Hx; apply Hext; apply elem_of_cons; right; exact Hx).
  apply decide_ext. apply Hext. apply elem_of_cons. left. reflexivity.
Qed.

Lemma holding_none (pid2exec : gmap Z executor) (les : executor) (holders : list Z) :
  holding pid2exec les holders = 0%nat <->
  forall h, h ∈ holders -> pid2exec !! h <> Some les.
Proof.
  induction holders as [|h holders IH].
  - split; [intros _ x Hx; inversion Hx|reflexivity].
  - rewrite holding_cons. destruct (decide (pid2exec !! h = Some les)) as [Hy|Hn].
    + split; [discriminate|]. intros Hall. exfalso.
      apply (Hall h); [apply elem_of_cons; left; reflexivity|exact Hy].
    + rewrite IH. split.
      * intros Hall x Hx. apply elem_of_cons in Hx as [->|Hx]; [exact Hn|apply Hall; exact Hx].
      * intros Hall x Hx. apply Hall. apply elem_of_cons. right. exact Hx.
Qed.

Lemma holding_le (pid2exec : gmap Z executor) (les : executor) (holders : list Z) :
  (holding pid2exec les holders <= length holders)%nat.
Proof. unfold holding. apply length_filter. Qed.

Lemma elem_of_remove_holder (x h : Z) (holders : list Z) :
  x ∈ remove_holder h holders -> x ∈ holders.
Proof.
  induction holders as [|y holders IH]; simpl; [intros H; inversion H|].
  destruct (decide (h = y)) as [->|Hne].
  - intros Hx. apply elem_of_cons. right. exact Hx.
  - intros Hx. apply elem_of_cons in Hx as [->|Hx]; apply elem_of_cons;
      [left; reflexivity|right; apply IH; exact Hx].
Qed.

Lemma holding_remove_in (pid2exec : gmap Z executor) (les : executor) (h : Z)
    (holders : list Z) :
  h ∈ holders -> pid2exec !! h = Some les ->
  S (holding pid2exec les (remove_holder h holders)) = holding pid2exec les holders.
Proof.
  induction holders as [|y holders IH]; intros Hin Hh; [inversion Hin|]. simpl.
  destruct (decide (h = y)) as [->|Hne].
  - rewrite holding_cons, decide_True by exact Hh. reflexivity.
  - apply elem_of_cons in Hin as [->|Hin]; [contradiction|].
    rewrite !holding_cons. destruct (decide (pid2exec !! y = Some les)).
    + rewrite IH by assumption. reflexivity.
    + apply IH; assumption.
Qed.

Lemma holding_remove_out (pid2exec : gmap Z executor) (les : executor) (h : Z)
    (holders : list Z) :
  pid2exec !! h <> Some les ->
  holding pid2exec les (remove_holder h holders) = holding pid2exec les holders.
Proof.
  intros Hh. induction holders as [|y holders IH]; [reflexivity|]. simpl.
  destruct (decide (h = y)) as [->|Hne].
  - rewrite holding_cons, decide_False by exact Hh. reflexivity.
  - rewrite !holding_cons, IH. reflexivity.
Qed.

Lemma accounted_started (maxThreads : Z) (made : nat) (down : list executor) :
  1 <= maxThreads < 2 ^ 31 -> (forall les, les ∈ down -> (les < made)%nat) ->
  accounted (running maxThreads 0 [] ∅ ∅ made down) [].
Proof.
  intros Hmax Hdown. do 7 eexists. split; [reflexivity|].
  split; [apply running_ok_started; assumption|].
  split; [intros pid H; inversion H|].
  intros les count. rewrite lookup_empty. discriminate.
Qed.

(** One more holder. *)
Lemma accounted_getExecutor (env : Environment) (partitionId : Z) (f : factory)
    (holders : list Z) :
  accounted f holders -> Z.of_nat (length holders) < 2 ^ 31 - 1 ->
  exists les f',
    getExecutor env partitionId f = Return les f' /\
    mapped f' partitionId les /\
    accounted f' (partitionId :: holders).
Proof.
  intros (maxThreads & nextAlloc & executors & refCounts & pid2exec & made & down
          & -> & Hok & Hheld & Hcount) Hlen.
  assert (forall les count, refCounts !! les = Some count -> count < 2 ^ 31 - 1) as Hb.
  { intros les count Hrc. rewrite (Hcount _ _ Hrc).
    pose proof (holding_le pid2exec les holders). lia. }
  pose proof Hok as (_ & _ & _ & Hdom & _ & Hmap & _).
  rewrite getExecutor_running.
  destruct (pid2exec !! partitionId) as [les|] eqn:Hpid.
  - destruct (proj1 (Hdom les) (Hmap _ _ Hpid)) as [count Hrc].
    destruct (allocate_mapped_ok _ _ _ _ _ _ _ Hok partitionId les count Hpid Hrc
                (Hb _ _ Hrc)) as [Hrun Hok'].
    eexists. eexists. split; [exact Hrun|].
    split; [eexists; split; [reflexivity|exact Hpid]|].
    do 7 eexists. split; [reflexivity|]. split; [exact Hok'|]. split.
    + intros pid Hin. apply elem_of_cons in Hin as [->|Hin]; [eauto|apply Hheld; exact Hin].
    + intros les' count'. rewrite holding_cons.
      destruct (decide (les' = les)) as [->|Hne].
      * rewrite lookup_insert_eq. intros [= <-].
        rewrite decide_True by exact Hpid. rewrite (Hcount _ _ Hrc). lia.
      * rewrite lookup_insert_ne by congruence. intros Hrc'.
        rewrite decide_False by congruence. apply Hcount. exact Hrc'.
  - assert (partitionId ∉ holders) as Hfresh.
    { intros Hin. destruct (Hheld _ Hin) as [x Hx]. congruence. }
    assert (forall les' les'', holding (<[partitionId := les'']> pid2exec) les' holders
                               = holding pid2exec les' holders) as Hsame.
    { intros les' les''. apply holding_ext. intros h Hh.
      rewrite lookup_insert_ne; [reflexivity|]. intros ->. contradiction. }
    destruct (Z.lt_ge_cases (Z.of_nat (length executors)) maxThreads) as [Hlt|Hge].
    + destruct (allocate_new_ok _ _ _ _ _ _ _ Hok partitionId Hpid Hlt)
        as (Hrun & Hok' & Hnew & _).
      eexists. eexists. split; [exact Hrun|].
      split; [eexists; split; [reflexivity|apply lookup_insert_eq]|].
      do 7 eexists. split; [reflexivity|]. split; [exact Hok'|]. split.
      * intros pid Hin. apply elem_of_cons in Hin as [->|Hin].
        -- rewrite lookup_insert_eq. eauto.
        -- rewrite lookup_insert_ne by (intros ->; contradiction). apply Hheld. exact Hin.
      * intros les' count'. rewrite holding_cons, lookup_insert_eq, Hsame.
        destruct (decide (les' = made)) as [->|Hne].
        -- rewrite lookup_insert_eq. intros [= <-].
           rewrite decide_True by reflexivity.
           assert (holding pid2exec made holders = 0%nat) as ->; [|reflexivity].
           apply holding_none. intros h Hh Hl. apply Hnew. eapply Hmap. exact Hl.
        -- rewrite lookup_insert_ne by congruence. intros Hrc'.
           rewrite decide_False by congruence. apply Hcount. exact Hrc'.
    + destruct (allocate_shared_ok _ _ _ _ _ _ _ Hok partitionId Hpid Hge Hb)
        as (les & count & _ & Hrc & _ & Hrun & Hok').
      eexists. eexists. split; [exact Hrun|].
      split; [eexists; split; [reflexivity|apply lookup_insert_eq]|].
      do 7 eexists. split; [reflexivity|]. split; [exact Hok'|]. split.
      * intros pid Hin. apply elem_of_cons in Hin as [->|Hin].
        -- rewrite lookup_insert_eq. eauto.
        -- rewrite lookup_insert_ne by (intros ->; contradiction). apply Hheld. exact Hin.
      * intros les' count'. rewrite holding_cons, lookup_insert_eq, Hsame.
        destruct (decide (les' = les)) as [->|Hne].
        -- rewrite lookup_insert_eq. intros [= <-].
           rewrite decide_True by reflexivity. rewrite (Hcount _ _ Hrc). lia.
        -- rewrite lookup_insert_ne by congruence. intros Hrc'.
           rewrite decide_False by congruence. apply Hcount. exact Hrc'.
Qed.

(** One holder less. *)
Lemma accounted_freeExecutor (partitionId : Z) (f : factory) (holders : list Z) :
  accounted f holders -> partitionId ∈ holders ->
  exists f',
    freeExecutor partitionId f = Return tt f' /\
    accounted f' (remove_holder partitionId holders).
Proof.
  intros (maxThreads & nextAlloc & executors & refCounts & pid2exec & made & down
          & -> & Hok & Hheld & Hcount) Hin.
  pose proof Hok as (_ & _ & _ & Hdom & Hpos & Hmap & _).
  destruct (Hheld _ Hin) as [les Hpid].
  destruct (proj1 (Hdom les) (Hmap _ _ Hpid)) as [count Hrc].
  pose proof (Hcount _ _ Hrc) as Hc.
  pose proof (holding_remove_in pid2exec les partitionId holders Hin Hpid) as Hrem.
  rewrite freeExecutor_running.
  destruct (Z.eq_dec count 1) as [->|Hne1].
  - destruct (release_last_ok _ _ _ _ _ _ _ Hok partitionId les Hpid Hrc)
      as (Hrel & Hok' & _).
    eexists. split; [exact Hrel|].
    do 7 eexists. split; [reflexivity|]. split; [exact Hok'|].
    assert (forall h, h ∈ remove_holder partitionId holders -> pid2exec !! h <> Some les)
      as Hnone by (apply holding_none; lia).
    split.
    + intros h Hh. destruct (Hheld h (elem_of_remove_holder _ _ _ Hh)) as [e He].
      exists e. apply map_lookup_filter_Some. split; [exact He|]. simpl.
      intros ->. apply (Hnone h Hh). exact He.
    + intros les' count'. destruct (decide (les' = les)) as [->|Hne].
      * rewrite lookup_delete_eq. discriminate.
      * rewrite lookup_delete_ne by congruence. intros Hrc'.
        rewrite (Hcount _ _ Hrc').
        rewrite <- (holding_remove_out pid2exec les' partitionId holders) by congruence.
        f_equal. apply holding_ext. intros h _. split.
        -- intros Hl. apply map_lookup_filter_Some. split; [exact Hl|exact Hne].
        -- intros Hl. apply map_lookup_filter_Some in Hl as [Hl _]. exact Hl.
  - pose proof (Hpos _ _ Hrc) as Hrange.
    destruct (release_shared_ok _ _ _ _ _ _ _ Hok partitionId les count Hpid Hrc
                ltac:(lia)) as [Hrel Hok'].
    eexists. split; [exact Hrel|].
    do 7 eexists. split; [reflexivity|]. split; [exact Hok'|]. split.
    + intros h Hh. apply Hheld. eapply elem_of_remove_holder. exact Hh.
    + intros les' count'. destruct (decide (les' = les)) as [->|Hne].
      * rewrite lookup_insert_eq. intros [= <-]. lia.
      * rewrite lookup_insert_ne by congruence. intros Hrc'.
        rewrite (Hcount _ _ Hrc').
        rewrite holding_remove_out by congruence. reflexivity.
Qed.

Lemma length_remove_holder (h : Z) (holders : list Z) :
  (length (remove_holder h holders) <= length holders)%nat.
Proof.
  induction holders as [|y holders IH]; simpl; [lia|].
  destruct (decide (h = y)); simpl; lia.
Qed.

Lemma accounted_listed (f : factory) (holders : list Z) (les : executor) :
  accounted f holders ->
  listed f les <-> exists partitionId, partitionId ∈ holders /\ mapped f partitionId les.
Proof.
  intros (maxThreads & nextAlloc & executors & refCounts & pid2exec & made & down
          & -> & Hok & Hheld & Hcount).
  pose proof Hok as (_ & _ & _ & Hdom & Hpos & Hmap & _). split.
  - intros (ex & [= <-] & Hin). destruct (proj1 (Hdom les) Hin) as [count Hrc].
    pose proof (Hpos _ _ Hrc) as Hc. rewrite (Hcount _ _ Hrc) in Hc.
    destruct (filter (fun partitionId => pid2exec !! partitionId = Some les) holders)
      as [|pid rest] eqn:Hf; [unfold holding in Hc; rewrite Hf in Hc; simpl in Hc; lia|].
    assert (pid ∈ filter (fun partitionId => pid2exec !! partitionId = Some les) holders)
      as Hpid by (rewrite Hf; apply elem_of_cons; left; reflexivity).
    apply list_elem_of_filter in Hpid as [Hl Hh].
    exists pid. split; [exact Hh|]. eexists. split; [reflexivity|exact Hl].
  - intros (pid & _ & pm & [= <-] & Hl). eexists. split; [reflexivity|].
    eapply Hmap. exact Hl.
Qed.

(** X27: with the counts accounting for the holders, [getExecutor] does not
    throw and the counts account for the holders and the partition it was
    called for. *)
Theorem getExecutor_counts_the_holder
    (env : Environment) (partitionId : Z) (f : factory) (holders : list Z) :
  accounted f holders -> Z.of_nat (length holders) < 2 ^ 31 - 1 ->
  exists les f',
    getExecutor env partitionId f = Return les f' /\
    mapped f' partitionId les /\
    accounted f' (partitionId :: holders).
Proof. apply accounted_getExecutor. Qed.

Lemma demo_started_accounted : accounted demo_started [].
Proof. apply accounted_started; [lia|]. intros les H. inversion H. Qed.

Lemma getExecutor_counts_the_holder_witness :
  accounted demo_started [] /\
  exists les f',
    getExecutor demo_env 10 demo_started = Return les f' /\
    mapped f' 10 les /\
    accounted f' [10].
Proof.
  split; [exact demo_started_accounted|].
  apply (getExecutor_counts_the_holder demo_env 10 demo_started [] demo_started_accounted).
  simpl. lia.
Defined.

(** The factory of the examples with its holders. *)
Lemma demo_two_accounted : accounted demo_two [11; 10].
Proof.
  destruct (accounted_getExecutor demo_env 10 demo_started [] demo_started_accounted
              ltac:(simpl; lia)) as (les1 & f1 & Hrun1 & _ & Hacc1).
  vm_compute in Hrun1. injection Hrun1 as <- <-.
  destruct (accounted_getExecutor demo_env 11 _ [10] Hacc1 ltac:(simpl; lia))
    as (les2 & f2 & Hrun2 & _ & Hacc2).
  vm_compute in Hrun2. injection Hrun2 as <- <-. exact Hacc2.
Qed.

(** X28: with the counts accounting for the holders, [freeExecutor] for the
    partition of a holder does not throw, and the counts account for the
    holders that are left. *)
Theorem freeExecutor_of_holder_succeeds
    (partitionId : Z) (f : factory) (holders : list Z) :
  accounted f holders -> partitionId ∈ holders ->
  exists f',
    freeExecutor partitionId f = Return tt f' /\
    accounted f' (remove_holder partitionId holders).
Proof. apply accounted_freeExecutor. Qed.

Lemma freeExecutor_of_holder_succeeds_witness :
  accounted demo_two [11; 10] /\ 10 ∈ [11; 10] /\
  exists f',
    freeExecutor 10 demo_two = Return tt f' /\
    accounted f' (remove_holder 10 [11; 10]).
Proof.
  assert (10 ∈ [11; 10]) as Hin by (apply elem_of_cons; right; apply elem_of_cons; left; reflexivity).
  split; [exact demo_two_accounted|]. split; [exact Hin|].
  exact (freeExecutor_of_holder_succeeds 10 demo_two [11; 10] demo_two_accounted Hin).
Defined.

Lemma run_calls_accounted (env : Environment) (calls : list call) :
  forall (f : factory) (holders holders' : list Z),
    accounted f holders ->
    holders_after calls holders = Some holders' ->
    Z.of_nat (length calls + length holders) < 2 ^ 31 - 1 ->
    exists f', run_calls env calls f = Return tt f' /\ accounted f' holders'.
Proof.
  induction calls as [|[pid|pid] calls IH]; intros f holders holders' Hacc Hafter Hlen.
  - simpl in Hafter. injection Hafter as <-. exists f. split; [reflexivity|exact Hacc].
  - simpl in Hafter, Hlen.
    destruct (accounted_getExecutor env pid f holders Hacc ltac:(lia))
      as (les & f1 & Hrun & _ & Hacc1).
    destruct (IH f1 (pid :: holders) holders' Hacc1 Hafter ltac:(simpl; lia))
      as (f' & Hrest & Hacc').
    exists f'. split; [|exact Hacc'].
    simpl. unfold bind. rewrite Hrun. exact Hrest.
  - simpl in Hafter, Hlen.
    destruct (decide (pid ∈ holders)) as [Hin|]; [|discriminate].
    destruct (accounted_freeExecutor pid f holders Hacc Hin) as (f1 & Hrun & Hacc1).
    pose proof (length_remove_holder pid holders) as Hle.
    destruct (IH f1 (remove_holder pid holders) holders' Hacc1 Hafter ltac:(lia))
      as (f' & Hrest & Hacc').
    exists f'. split; [|exact Hacc'].
    simpl. unfold bind. rewrite Hrun. exact Hrest.
Qed.

(** X29: the counts serve their purpose.  When the counts account for the
    holders, a run of calls in which every [freeExecutor] is for a holder
    does not throw, and afterwards an executor is listed exactly when a
    holder is mapped to it; so once every [getExecutor] has been matched
    by a [freeExecutor], no executor is left running. *)
Theorem matched_calls_leave_no_thread
    (env : Environment) (calls : list call) (f : factory) (holders holders' : list Z) :
  accounted f holders ->
  holders_after calls holders = Some holders' ->
  Z.of_nat (length calls + length holders) < 2 ^ 31 - 1 ->
  exists f',
    run_calls env calls f = Return tt f' /\
    accounted f' holders' /\
    (forall les,
       listed f' les <->
       exists partitionId, partitionId ∈ holders' /\ mapped f' partitionId les) /\
    (holders' = [] -> getCurrentThreadCount f' = Return 0 f').
Proof.
  intros Hacc Hafter Hlen.
  destruct (run_calls_accounted env calls f holders holders' Hacc Hafter Hlen)
    as (f' & Hrun & Hacc').
  exists f'. split; [exact Hrun|]. split; [exact Hacc'|].
  split; [intros les; apply (accounted_listed f' holders' les Hacc')|].
  intros ->.
  pose proof (fun les => accounted_listed f' [] les Hacc') as Hlisted.
  destruct Hacc' as (maxThreads & nextAlloc & executors & refCounts & pid2exec & made & down
                     & -> & _).
  destruct executors as [|les executors]; [reflexivity|]. exfalso.
  destruct (proj1 (Hlisted les)) as (pid & Hin & _); [|inversion Hin].
  eexists. split; [reflexivity|]. apply elem_of_cons. left. reflexivity.
Qed.

Lemma matched_calls_leave_no_thread_witness :
  accounted demo_started [] /\
  holders_after [Get 10; Get 11; Get 12; Free 10; Free 12; Free 11] [] = Some [] /\
  exists f',
    run_calls demo_env [Get 10; Get 11; Get 12; Free 10; Free 12; Free 11] demo_started
    = Return tt f' /\
    accounted f' [] /\
    (forall les,
       listed f' les <->
       exists partitionId, partitionId ∈ @nil Z /\ mapped f' partitionId les) /\
    (@nil Z = [] -> getCurrentThreadCount f' = Return 0 f').
Proof.
  assert (holders_after [Get 10; Get 11; Get 12; Free 10; Free 12; Free 11] [] = Some [])
    as Hafter by (vm_compute; reflexivity).
  split; [exact demo_started_accounted|]. split; [exact Hafter|].
  apply (matched_calls_leave_no_thread demo_env
           [Get 10; Get 11; Get 12; Free 10; Free 12; Free 11] demo_started [] []
           demo_started_accounted Hafter).
  simpl. lia.
Defined.

End ExecutorFactoryFacts.

